(** * Speculative Huffman decoding: a shallow embedding of the Python sources

    The first part follows the layout of the repository:
    - [heapq] of the standard library          -> [Module heapq]
    - [source/huffman/Huffman.py]              -> [Module HuffmanCode]
    - [source/decoders/SingleDecodingResult.py]-> [Module SingleDecodingResult]
    - [source/decoders/SingleDecoder.py]       -> [Module SingleDecoder]
    - [source/predictors/*.py]                 -> [Class Predictor],
                                                  [Module StaticPredictor],
                                                  [Module DynamicPredictor]
    - [source/decoders/SpeculativeDecoder.py]  -> [Module SpeculativeDecoder]
    - [source/theory/simple/*.py]              -> [Module SimpleProbabilisticScheme],
                                                  [Module SimpleStatisticalCalculations]
    - [source/optimizers/*.py]                 -> [Module VariantsGenerator],
                                                  [Module SimpleOptimizer]
    The second part names what the properties speak about, the third part
    states and proves them.

    Conventions of the embedding.
    - A Python [str] is a [list ascii]; positions, offsets, predicted lengths,
      widths and the chain limit are [nat] (the data model has them
      nonnegative).
    - A symbol is any hashable value: a type with decidable equality that is
      countable.  [None] is not a symbol, an [Optional] symbol is an [option].
      What [bytes(...)] reads of a symbol is its [__index__] ([Class Index]);
      a [bytes] object is the list of its byte values.
    - [Optional[Node]] is the type [Node] with the constructor [NoneNode].
    - A [dict] that is only looked up and written is a [gmap]; a [dict] that
      is iterated over is the list of its items in iteration order.
    - Frequencies, outcomes and the entries of an L-vector are Python integers
      ([Z]); where numpy takes them into an array they are [int64], and the
      wrap-around of its arithmetic is written out ([wrap_int64]).
      Probabilities are Python floats, here a type with the arithmetic the
      code uses ([Number]), read at exact rationals ([Qc]) and at binary64
      floats ([float]).
    - A method that mutates its object answers the object as the call leaves
      it, beside what it returns.
    - A Python call either returns, raises, or does not return; this is the
      type [Res] below.  Loops whose termination is not structural take a fuel
      argument and answer [Diverge] when it runs out. *)

From Stdlib Require Import ZArith QArith Qcanon Ascii String Floats.
From stdpp Require Import gmap list sorting.
From Equations Require Import Equations.

Local Open Scope Z_scope.
Local Open Scope nat_scope.

(** ** Outcomes of a Python call *)

Inductive exn : Set :=
| ValueError
| IndexError
| AttributeError
| TypeError.

Inductive Res (A : Type) : Type :=
| Ret (a : A)
| Raise (e : exn)
| Diverge.
Arguments Ret {A} a.
Arguments Raise {A} e.
Arguments Diverge {A}.

Definition Res_bind {A B} (f : A -> Res B) (m : Res A) : Res B :=
  match m with
  | Ret a => f a
  | Raise e => Raise e
  | Diverge => Diverge
  end.

#[export] Instance Res_ret : MRet Res := fun A a => Ret a.
#[export] Instance Res_mbind : MBind Res := fun A B f m => Res_bind f m.
#[export] Instance Res_fmap : FMap Res := fun A B f m => Res_bind (fun a => Ret (f a)) m.

Definition returns {A} (m : Res A) : Prop := exists a, m = Ret a.
Definition raises {A} (m : Res A) : Prop := exists e, m = Raise e.

Definition bit0 : ascii := "0"%char.
Definition bit1 : ascii := "1"%char.

(** A bit string: every character is ['0'] or ['1']. *)
Definition is_bit (c : ascii) : bool := Ascii.eqb c bit0 || Ascii.eqb c bit1.
Definition is_bit_string (s : list ascii) : Prop := Forall (fun c => is_bit c = true) s.

(** ** Python's [sorted] and [heapq]

    [sorted] is a stable sort; [py_sorted lt] orders by [lt] and keeps the
    original order of elements that [lt] does not separate (this is also what
    [reverse=True] does). *)

Fixpoint py_insert {A} (lt : A -> A -> bool) (x : A) (l : list A) : list A :=
  match l with
  | [] => [x]
  | y :: l' => if lt y x then y :: py_insert lt x l' else x :: l
  end.

Definition py_sorted {A} (lt : A -> A -> bool) (l : list A) : list A :=
  foldr (py_insert lt) [] l.

(** The standard library's binary heap on a list, as [heapq.py] has it:
    [_siftdown], [_siftup], [heappush], [heappop], [heapify].  The branches
    marked unreachable are list accesses that the callers keep in range. *)

Module heapq.
Section heap.
Context {A : Type} (lt : A -> A -> bool).

Equations? _siftdown_loop (heap : list A) (startpos pos : nat) (newitem : A)
  : list A by wf pos Nat.lt :=
_siftdown_loop heap startpos pos newitem with decide (startpos < pos) := {
  | right _ := <[pos := newitem]> heap
  | left _ with heap !! ((pos - 1) / 2) := {
    | None := <[pos := newitem]> heap (* unreachable *)
    | Some parent with lt newitem parent := {
      | true := _siftdown_loop (<[pos := parent]> heap) startpos ((pos - 1) / 2) newitem
      | false := <[pos := newitem]> heap } } }.
Proof.
  unfold Nat.lt. change (Nat.divmod (pos - 1) 1 0 1).1 with ((pos - 1) / 2).
  apply Nat.Div0.div_lt_upper_bound. lia.
Qed.

Definition _siftdown (heap : list A) (startpos pos : nat) : list A :=
  match heap !! pos with
  | Some newitem => _siftdown_loop heap startpos pos newitem
  | None => heap (* unreachable *)
  end.

(** The [while childpos < endpos] loop of [_siftup]: bubbles the smaller
    child up and answers the list with the position of the hole. *)
Equations? _siftup_loop (heap : list A) (endpos pos : nat)
  : list A * nat by wf (endpos - pos) Nat.lt :=
_siftup_loop heap endpos pos with decide (2 * pos + 1 < endpos) := {
  | right _ := (heap, pos)
  | left _ :=
      let childpos := 2 * pos + 1 in
      let rightpos := childpos + 1 in
      let childpos :=
        match heap !! childpos, heap !! rightpos with
        | Some c, Some r =>
            if bool_decide (rightpos < endpos) && negb (lt c r) then rightpos else childpos
        | _, _ => childpos
        end in
      match heap !! childpos with
      | Some c => _siftup_loop (<[pos := c]> heap) endpos childpos
      | None => (heap, pos) (* unreachable *)
      end }.
Proof.
  subst childpos rightpos childpos0. unfold Nat.lt.
  repeat case_match; lia.
Qed.

Definition _siftup (heap : list A) (pos : nat) : list A :=
  match heap !! pos with
  | Some newitem =>
      let '(heap, hole) := _siftup_loop heap (length heap) pos in
      _siftdown (<[hole := newitem]> heap) pos hole
  | None => heap (* unreachable *)
  end.

Definition heappush (heap : list A) (item : A) : list A :=
  _siftdown (heap ++ [item]) 0 (length heap).

Definition heappop (heap : list A) : Res (A * list A) :=
  match last heap with
  | None => Raise IndexError
  | Some lastelt =>
      match removelast heap with
      | [] => Ret (lastelt, [])
      | returnitem :: rest => Ret (returnitem, _siftup (lastelt :: rest) 0)
      end
  end.

Definition heapify (x : list A) : list A :=
  foldl _siftup x (reverse (seq 0 (length x / 2))).

End heap.
End heapq.

(** ** Huffman.py *)

Module HuffmanCode.

(** [class Node]: [symbol], [frequency], [left], [right]; [NoneNode] is
    Python's [None] where an [Optional[Node]] is expected. *)
Inductive Node (Sym : Type) : Type :=
| NoneNode
| mkNode (symbol : option Sym) (frequency : Z) (left right : Node Sym).
Arguments NoneNode {Sym}.
Arguments mkNode {Sym} symbol frequency left right.

Section symbols.
Context `{Countable Sym}.

Definition symbol (n : Node Sym) : option Sym :=
  match n with NoneNode => None | mkNode s _ _ _ => s end.
Definition frequency (n : Node Sym) : Z :=
  match n with NoneNode => 0%Z | mkNode _ f _ _ => f end.
Definition left (n : Node Sym) : Node Sym :=
  match n with NoneNode => NoneNode | mkNode _ _ l _ => l end.
Definition right (n : Node Sym) : Node Sym :=
  match n with NoneNode => NoneNode | mkNode _ _ _ r => r end.
Definition is_None (n : Node Sym) : bool :=
  match n with NoneNode => true | _ => false end.

(** [HuffmanCode.encode]: the loop appends the code of each symbol and
    raises [ValueError] at the first symbol without a code. *)
Fixpoint encode_loop (data : list Sym) (huffman_codes : gmap Sym (list ascii))
    (encoded_bits : list (list ascii)) : Res (list (list ascii)) :=
  match data with
  | [] => Ret encoded_bits
  | symbol :: data' =>
      match huffman_codes !! symbol with
      | Some code => encode_loop data' huffman_codes (encoded_bits ++ [code])
      | None => Raise ValueError
      end
  end.

Definition encode (data : list Sym) (huffman_codes : gmap Sym (list ascii))
    : Res (list ascii) :=
  if bool_decide (data = []) || bool_decide (huffman_codes = ∅) then Ret []
  else encoded_bits ← encode_loop data huffman_codes []; Ret (concat encoded_bits).

(** [HuffmanCode.decode]: the [for bit in encoded_bits] loop.  Every
    character other than ['0'] takes the [else] branch. *)
Fixpoint decode_loop (huffman_tree current_node : Node Sym)
    (encoded_bits : list ascii) (decoded : list Sym) : Res (list Sym) :=
  match encoded_bits with
  | [] => Ret decoded
  | bit :: rest =>
      match current_node with
      | NoneNode => Raise AttributeError
      | mkNode _ _ l r =>
          let next := if Ascii.eqb bit bit0 then l else r in
          match next with
          | NoneNode => Raise ValueError
          | mkNode (Some s) _ _ _ =>
              decode_loop huffman_tree huffman_tree rest (decoded ++ [s])
          | mkNode None _ _ _ =>
              decode_loop huffman_tree next rest decoded
          end
      end
  end.

Definition decode (encoded_bits : list ascii) (huffman_tree : Node Sym)
    : Res (list Sym) :=
  match encoded_bits, huffman_tree with
  | [], _ => Ret []
  | _, NoneNode => Ret []
  | _, mkNode (Some s) _ _ _ => Ret (replicate (length encoded_bits) s)
  | _, mkNode None _ _ _ => decode_loop huffman_tree huffman_tree encoded_bits []
  end.

(** [Node.__lt__]: nodes compare by frequency. *)
Definition Node_lt (a b : Node Sym) : bool := (frequency a <? frequency b)%Z.

(** The [while len(heap) > 1] loop of [build_huffman_tree]. *)
Fixpoint build_loop (fuel : nat) (heap : list (Node Sym)) : Res (Node Sym) :=
  if bool_decide (1 < length heap) then
    match fuel with
    | 0 => Diverge
    | S fuel' =>
        '(left, heap) ← heapq.heappop Node_lt heap;
        '(right, heap) ← heapq.heappop Node_lt heap;
        let merged := mkNode None (frequency left + frequency right)%Z left right in
        build_loop fuel' (heapq.heappush Node_lt heap merged)
    end
  else match heap with
       | root :: _ => Ret root
       | [] => Raise IndexError
       end.

(** [build_huffman_tree]: the frequency table is a [dict], here the list of
    its items in iteration order. *)
Definition build_huffman_tree (frequency_table : list (Sym * Z)) : Res (Node Sym) :=
  match frequency_table with
  | [] => Ret NoneNode
  | [(symbol, freq)] => Ret (mkNode (Some symbol) freq NoneNode NoneNode)
  | _ =>
      let heap := map (fun '(sym, freq) => mkNode (Some sym) freq NoneNode NoneNode)
                      frequency_table in
      build_loop (length frequency_table) (heapq.heapify Node_lt heap)
  end.

(** [generate_huffman_codes]: the dictionary is threaded through the
    traversal, as the mutated argument is in the source. *)
Fixpoint generate_huffman_codes (node : Node Sym) (current_code : list ascii)
    (huffman_codes : gmap Sym (list ascii)) : gmap Sym (list ascii) :=
  match node with
  | NoneNode => huffman_codes
  | mkNode (Some s) _ _ _ => <[s := current_code]> huffman_codes
  | mkNode None _ l r =>
      let huffman_codes :=
        match l with
        | NoneNode => huffman_codes
        | _ => generate_huffman_codes l (current_code ++ [bit0]) huffman_codes
        end in
      match r with
      | NoneNode => huffman_codes
      | _ => generate_huffman_codes r (current_code ++ [bit1]) huffman_codes
      end
  end.

Definition generate (symbol_frequencies : list (Sym * Z)) : Res (gmap Sym (list ascii)) :=
  match symbol_frequencies with
  | [] => Ret ∅
  | _ =>
      root ← build_huffman_tree symbol_frequencies;
      Ret (generate_huffman_codes root
             (if bool_decide (length symbol_frequencies = 1) then [bit0] else []) ∅)
  end.

(** [get_bit_lengths]: the code length of every symbol of [data] ([0] for a
    symbol without a code), the map from the symbols met to their code
    length, and the largest of these lengths. *)
Definition get_bit_lengths (data : list Sym) (code : gmap Sym (list ascii))
    : list nat * gmap Sym nat * nat :=
  if bool_decide (data = []) || bool_decide (code = ∅) then ([], ∅, 0)
  else
    let '(length_map, max_len) :=
      foldl (fun '(length_map, max_len) char =>
               match code !! char with
               | Some c =>
                   let code_len := length c in
                   (<[char := code_len]> length_map, Nat.max max_len code_len)
               | None => (length_map, max_len)
               end)
            (∅, 0) data in
    ((fun char => default 0 (length_map !! char)) <$> data, length_map, max_len).

(** [build_decoding_tree], one code: the walk from [current] down the
    characters of [code], which makes the nodes that are missing, and
    [current.symbol = symbol] where it ends.  Every character other than
    ['0'] goes right.  The nodes are updated in place; no node is shared. *)
Definition child_or_new (child : Node Sym) : Node Sym :=
  match child with
  | NoneNode => mkNode None 0 NoneNode NoneNode
  | _ => child
  end.

Fixpoint insert_code (current : Node Sym) (code : list ascii) (symbol : Sym)
    {struct code} : Node Sym :=
  match code, current with
  | _, NoneNode => NoneNode (* unreachable: [current] is a node *)
  | [], mkNode _ f l r => mkNode (Some symbol) f l r
  | bit :: code', mkNode s f l r =>
      if Ascii.eqb bit bit0
      then mkNode s f (insert_code (child_or_new l) code' symbol) r
      else mkNode s f l (insert_code (child_or_new r) code' symbol)
  end.

(** [build_decoding_tree]: the code table is iterated over, here the list
    of its items in iteration order. *)
Definition build_decoding_tree (huffman_codes : list (Sym * list ascii)) : Node Sym :=
  match huffman_codes with
  | [] => NoneNode
  | _ =>
      foldl (fun root '(symbol, code) => insert_code root code symbol)
            (mkNode None 0 NoneNode NoneNode) huffman_codes
  end.

End symbols.
End HuffmanCode.

(** ** SingleDecodingResult.py *)

Module SingleDecodingResult.
Record t (Sym : Type) : Type := mk
  { was_decoded : bool; symbol : option Sym; length : nat }.
Arguments mk {Sym} was_decoded symbol length.
Arguments was_decoded {Sym} _.
Arguments symbol {Sym} _.
Arguments length {Sym} _.
End SingleDecodingResult.

(** ** DecodingStatistics.py: the counters of a single decoder *)

Module DecodingStatistics.
Record t : Type := mk
  { total_decodes : nat;
    successful_decodes : nat;
    failed_decodes : nat;
    bits_processed : nat;
    single_symbol_decodes : nat }.

(** [DecodingStatistics()]: every counter defaults to [0]. *)
Definition init : t := mk 0 0 0 0 0.

Definition reset (self : t) : t := mk 0 0 0 0 0.
End DecodingStatistics.

(** ** SingleDecoder.py

    [decode] mutates the decoder: it answers the result of [_decode] and
    leaves the counters of [_stats] updated.  Here it answers the result and
    the decoder as the call leaves it.  The attribute [current_node] is only
    ever assigned the tree ([__init__], [_reset_state]) and never read; it is
    left out. *)

Module SingleDecoder.
Import HuffmanCode.

Section symbols.
Context `{Countable Sym}.

Abbreviation SDR := (SingleDecodingResult.t Sym).
Abbreviation failed n := (SingleDecodingResult.mk false None n).
Abbreviation decoded s n := (SingleDecodingResult.mk true (Some s) n).

Record t : Type := mk
  { decoding_tree : Node Sym;
    _single_symbol : option Sym;
    _stats : DecodingStatistics.t }.

(** [__init__]: a [Node] object is always truthy, so [_single_symbol] is the
    symbol of the root when there is a root. *)
Definition init (decoding_tree : Node Sym) : t :=
  {| decoding_tree := decoding_tree;
     _single_symbol := HuffmanCode.symbol decoding_tree;
     _stats := DecodingStatistics.init |}.

(** The [for i in range(position, len(data))] loop of [_decode], run over
    the characters from [position] on. *)
Fixpoint _decode_loop (current_node : Node Sym) (bits : list ascii)
    (bits_consumed : nat) : SDR :=
  match bits with
  | [] => failed bits_consumed
  | bit :: rest =>
      let bits_consumed := S bits_consumed in
      let descend (child : Node Sym) : SDR :=
        match child with
        | NoneNode => failed bits_consumed
        | mkNode (Some s) _ _ _ => decoded s bits_consumed
        | mkNode None _ _ _ => _decode_loop child rest bits_consumed
        end in
      if Ascii.eqb bit bit0 then descend (left current_node)
      else if Ascii.eqb bit bit1 then descend (right current_node)
      else failed bits_consumed
  end.

(** [_decode] reads the decoder and does not change it. *)
Definition _decode (self : t) (data : list ascii) (position : nat) : SDR :=
  if bool_decide (data = []) || bool_decide (List.length data <= position)
     || is_None (decoding_tree self)
  then failed 0
  else match _single_symbol self with
       | Some s =>
           if bool_decide (position < List.length data) then decoded s 1
           else failed 0
       | None => _decode_loop (decoding_tree self) (drop position data) 0
       end.

(** [_update_stats]: the decoder with the counters of [_stats] updated. *)
Definition _update_stats (self : t) (result : SDR) : t :=
  let total_decodes := DecodingStatistics.total_decodes (_stats self) + 1 in
  let bits_processed :=
    DecodingStatistics.bits_processed (_stats self) + SingleDecodingResult.length result in
  {| decoding_tree := decoding_tree self;
     _single_symbol := _single_symbol self;
     _stats :=
       if SingleDecodingResult.was_decoded result then
         DecodingStatistics.mk total_decodes
           (DecodingStatistics.successful_decodes (_stats self) + 1)
           (DecodingStatistics.failed_decodes (_stats self))
           bits_processed
           (if bool_decide (SingleDecodingResult.length result = 1)
               && bool_decide (is_Some (_single_symbol self))
            then DecodingStatistics.single_symbol_decodes (_stats self) + 1
            else DecodingStatistics.single_symbol_decodes (_stats self))
       else
         DecodingStatistics.mk total_decodes
           (DecodingStatistics.successful_decodes (_stats self))
           (DecodingStatistics.failed_decodes (_stats self) + 1)
           bits_processed
           (DecodingStatistics.single_symbol_decodes (_stats self)) |}.

(** [decode]: the result of [_decode], and the decoder after
    [_update_stats]. *)
Definition decode (self : t) (data : list ascii) (position : nat) : SDR * t :=
  let decoded_result := _decode self data position in
  (decoded_result, _update_stats self decoded_result).

(** The property [statistics]: a copy of the counters. *)
Definition statistics (self : t) : DecodingStatistics.t :=
  DecodingStatistics.mk
    (DecodingStatistics.total_decodes (_stats self))
    (DecodingStatistics.successful_decodes (_stats self))
    (DecodingStatistics.failed_decodes (_stats self))
    (DecodingStatistics.bits_processed (_stats self))
    (DecodingStatistics.single_symbol_decodes (_stats self)).

Definition reset_statistics (self : t) : t :=
  {| decoding_tree := decoding_tree self;
     _single_symbol := _single_symbol self;
     _stats := DecodingStatistics.reset (_stats self) |}.

End symbols.
End SingleDecoder.

(** ** predictors/*.py

    The capability set the speculative decoder uses: [implicitly_predict(n)]
    and [feed(length)].  [feed] mutates the predictor, here it answers the
    predictor after the call. *)

Class Predictor (P : Type) : Type :=
  { implicitly_predict : P -> nat -> list nat;
    feed : P -> nat -> P }.

(** A predictor answers at most the [n] lengths it is asked for (every
    predictor of the repository slices its table with [[:n]]). *)
Definition honours_width `{Predictor P} : Prop :=
  forall (p : P) (n : nat), length (implicitly_predict p n) <= n.

Module StaticPredictor.
Record t : Type := mk { _prediction_table : list nat }.

(** [feed] is inherited from [BasePredictor]: it does nothing. *)
#[global] Instance predictor : Predictor t :=
  {| implicitly_predict self n := take n (_prediction_table self);
     feed self current := self |}.
End StaticPredictor.

Module DynamicPredictor.
Record t : Type := mk
  { _prediction_table : gmap (list nat) (list nat);
    _context : list nat;
    _backup_variant : list nat }.

Definition init (assignment_table : gmap (list nat) (list nat))
    (initial_context backup_variant : list nat) : t :=
  {| _prediction_table := assignment_table;
     _context := initial_context;
     _backup_variant := py_sorted Nat.ltb backup_variant |}.

#[global] Instance predictor : Predictor t :=
  {| implicitly_predict self n :=
       match _prediction_table self !! _context self with
       | Some vector => take n vector
       | None => take n (_backup_variant self)
       end;
     feed self current :=
       {| _prediction_table := _prediction_table self;
          _context := drop 1 (_context self) ++ [current];
          _backup_variant := _backup_variant self |} |}.
End DynamicPredictor.

(** ** SpeculativeDecoder.py

    [decode] ends with [bytes(decoded_symbols)].  [bytes] reads every item as
    an integer through [__index__]: an item that has none is a [TypeError],
    an integer outside [range(256)] a [ValueError]. *)

Class Index (Sym : Type) : Type := __index__ : Sym -> option Z.

(** Python integers, here naturals and integers, are their own value. *)
#[export] Instance Index_nat : Index nat := fun n => Some (Z.of_nat n).
#[export] Instance Index_Z : Index Z := fun n => Some n.

(** [bytes(symbols)] for a list: the byte values, in order; the first item
    that is not a byte value decides the exception. *)
Fixpoint bytes `{Index Sym} (symbols : list Sym) : Res (list Z) :=
  match symbols with
  | [] => Ret []
  | item :: symbols' =>
      match __index__ item with
      | None => Raise TypeError
      | Some value =>
          if bool_decide (0 <= value < 256)%Z
          then rest ← bytes symbols'; Ret (value :: rest)
          else Raise ValueError
      end
  end.

Module SpeculativeDecoder.
Import HuffmanCode.

(** What [decode] returns, and the locals it is made of:
    [(decoded, (successes, tries), commited_codewords, truly_predicted)].
    In the loop [decoded_symbols] is the list of the committed symbols, in
    the answer it is the [bytes] object made of that list. *)
Record output (A : Type) : Type := mk_output
  { decoded_symbols : list A;
    successes : nat;
    tries : nat;
    commited_codewords : list nat;
    truly_predicted : list nat }.
Arguments mk_output {A} _ _ _ _ _.
Arguments decoded_symbols {A} _.
Arguments successes {A} _.
Arguments tries {A} _.
Arguments commited_codewords {A} _.
Arguments truly_predicted {A} _.

Section decoder.
Context `{Countable Sym} `{Index Sym} `{Predictor P}.

Abbreviation SDR := (SingleDecodingResult.t Sym).

Record t : Type := mk
  { _decoders : list (@SingleDecoder.t Sym);
    _speculation_width : nat;
    _predictor : P;
    _previous : option Sym;
    _current_position : nat;
    _chain_length_limit : option nat }.

Definition init (decoding_tree : Node Sym) (speculation_width : nat) (predictor : P)
    (chain_length_limit : option nat) : t :=
  {| _decoders := replicate (speculation_width + 1) (SingleDecoder.init decoding_tree);
     _speculation_width := speculation_width;
     _predictor := predictor;
     _previous := None;
     _current_position := 0;
     _chain_length_limit := chain_length_limit |}.

Definition flush (self : t) : t :=
  {| _decoders := _decoders self;
     _speculation_width := _speculation_width self;
     _predictor := _predictor self;
     _previous := None;
     _current_position := 0;
     _chain_length_limit := _chain_length_limit self |}.

(** [for i, length in enumerate(lengths)]: one attempt per offset still inside
    the data; [self._decoders[i]] raises [IndexError] past the last decoder.
    The attempt leaves the counters of [self._decoders[i]] updated. *)
Fixpoint attempts (self : t) (data : list ascii) (current_position i : nat)
    (lengths : list nat) (results : gmap nat SDR) : Res (gmap nat SDR * t) :=
  match lengths with
  | [] => Ret (results, self)
  | length :: lengths' =>
      if bool_decide (current_position + length < List.length data) then
        match _decoders self !! i with
        | None => Raise IndexError
        | Some decoder =>
            let '(res, decoder) :=
              SingleDecoder.decode decoder data (current_position + length) in
            attempts
              {| _decoders := <[i := decoder]> (_decoders self);
                 _speculation_width := _speculation_width self;
                 _predictor := _predictor self;
                 _previous := _previous self;
                 _current_position := _current_position self;
                 _chain_length_limit := _chain_length_limit self |}
              data current_position (S i) lengths'
              (if SingleDecodingResult.was_decoded res
               then <[length := res]> results else results)
        end
      else attempts self data current_position (S i) lengths' results
  end.

(** [while current_offset in results]. *)
Fixpoint chain_loop (fuel : nat) (results : gmap nat SDR) (current_offset : nat)
    (current_sequence : list SDR) : Res (list SDR) :=
  match results !! current_offset with
  | None => Ret current_sequence
  | Some result =>
      match fuel with
      | 0 => Diverge
      | S fuel' =>
          chain_loop fuel' results
            (current_offset + SingleDecodingResult.length result)
            (current_sequence ++ [result])
      end
  end.

(** [speculate]: the chain, the flag, and the decoder as the call leaves
    it. *)
Definition speculate (fuel : nat) (self : t) (data : list ascii) (current_position : nat)
    : Res (list SDR * nat * t) :=
  if bool_decide (List.length data <= current_position) then Ret ([], 0, self)
  else
    let speculated_lengths := implicitly_predict (_predictor self) (_speculation_width self) in
    let lengths := 0 :: speculated_lengths in
    '(results, self) ← attempts self data current_position 0 lengths ∅;
    '(decoding_chain, truly_guessed) ←
      match results !! 0 with
      | Some first =>
          current_sequence ← chain_loop fuel results 0 [];
          Ret (current_sequence,
               if bool_decide (SingleDecodingResult.length first ∈ speculated_lengths)
               then 1 else 0)
      | None => Ret ([], 0)
      end;
    match _chain_length_limit self with
    | Some (S k) => Ret (take (S k) decoding_chain, truly_guessed, self)
    | _ => Ret (decoding_chain, truly_guessed, self)
    end.

(** [for result in results]: append the symbol and feed the length. *)
Definition commit (acc : list Sym * P) (result : SDR) : list Sym * P :=
  match SingleDecodingResult.symbol result with
  | Some s => (acc.1 ++ [s], feed acc.2 (SingleDecodingResult.length result))
  | None => acc
  end.

(** [while self._current_position < len(data)]. *)
Fixpoint decode_loop (fuel : nat) (self : t) (data : list ascii) (out : output Sym)
    : Res (output Sym * t) :=
  if bool_decide (_current_position self < List.length data) then
    match fuel with
    | 0 => Diverge
    | S fuel' =>
        let tries := tries out + (_speculation_width self + 1) in
        '(results, truly_predicted_local, self) ←
          speculate fuel self data (_current_position self);
        match results with
        | [] =>
            Ret ({| decoded_symbols := decoded_symbols out; successes := successes out;
                    tries := tries; commited_codewords := commited_codewords out;
                    truly_predicted := truly_predicted out |}, self)
        | first :: _ =>
            let previous :=
              match SingleDecodingResult.symbol first with
              | Some s => Some s
              | None => _previous self
              end in
            let '(decoded, predictor) :=
              foldl commit (decoded_symbols out, _predictor self) results in
            let total_length := sum_list (SingleDecodingResult.length <$> results) in
            decode_loop fuel'
              {| _decoders := _decoders self;
                 _speculation_width := _speculation_width self;
                 _predictor := predictor;
                 _previous := previous;
                 _current_position := _current_position self + total_length;
                 _chain_length_limit := _chain_length_limit self |}
              data
              {| decoded_symbols := decoded;
                 successes := successes out + List.length results;
                 tries := tries;
                 commited_codewords := commited_codewords out ++ [List.length results];
                 truly_predicted := truly_predicted out ++ [truly_predicted_local] |}
        end
    end
  else Ret (out, self).

(** [decode]: the loop from empty locals, then [bytes(decoded_symbols)].
    When [bytes] raises the decoder has been mutated all the same; an
    exception carries no state in this embedding. *)
Definition decode (fuel : nat) (self : t) (data : list ascii) : Res (output Z * t) :=
  '(out, self) ←
    decode_loop fuel self data
      {| decoded_symbols := []; successes := 0; tries := 0;
         commited_codewords := []; truly_predicted := [] |};
  decoded ← bytes (decoded_symbols out);
  Ret ({| decoded_symbols := decoded; successes := successes out; tries := tries out;
          commited_codewords := commited_codewords out;
          truly_predicted := truly_predicted out |}, self).

End decoder.
End SpeculativeDecoder.

(** ** Numbers of the statistical part

    The probabilities are Python floats.  The code only adds, multiplies and
    compares them, so the calculators are written over a type with these
    operations, and read at exact rationals and at binary64 floats. *)

Class Number (R : Type) : Type :=
  { zero : R; one : R; add : R -> R -> R; mul : R -> R -> R; ltb : R -> R -> bool }.

Definition Qc_ltb (x y : Qc) : bool :=
  match (x ?= y)%Qc with Lt => true | _ => false end.

#[export] Instance Number_Qc : Number Qc :=
  {| zero := 0%Qc; one := 1%Qc; add := Qcplus; mul := Qcmult; ltb := Qc_ltb |}.

#[export] Instance Number_float : Number float :=
  {| zero := 0%float; one := 1%float; add := PrimFloat.add; mul := PrimFloat.mul;
     ltb := PrimFloat.ltb |}.

(** The integers of a numpy array are [int64]: an array made of Python
    integers in [[-2**63, 2**63)] holds them as they are, and its arithmetic
    wraps around. *)
Definition wrap_int64 (x : Z) : Z := ((x + 2 ^ 63) mod 2 ^ 64 - 2 ^ 63)%Z.

(** [for x in xs: state = body(state, x)], stopping at the first exception. *)
Fixpoint for_each {S A} (body : S -> A -> Res S) (state : S) (xs : list A) : Res S :=
  match xs with
  | [] => Ret state
  | x :: xs' => state' ← body state x; for_each body state' xs'
  end.

(** ** theory/simple/SimpleProbabilisticScheme.py *)

Module SimpleProbabilisticScheme.
Section scheme.
Context `{Number R}.

Record t : Type := mk { outcomes : list Z; probabilities : list R }.

(** [self.probabilities[self.outcomes.index(outcome)] if outcome in
    self.outcomes else 0] *)
Definition p (self : t) (outcome : Z) : Res R :=
  match list_find (fun o => o = outcome) (outcomes self) with
  | None => Ret zero
  | Some (index, _) =>
      match probabilities self !! index with
      | Some pr => Ret pr
      | None => Raise IndexError
      end
  end.

Definition get_top (self : t) (n : nat) : Res (list Z) :=
  pairs ← mapM (fun o => pr ← p self o; Ret (o, pr)) (outcomes self);
  let outcomes_and_probabilities :=
    py_sorted (fun x y => ltb y.2 x.2) pairs in
  if bool_decide (length outcomes_and_probabilities < n) then Raise ValueError
  else Ret ((take n outcomes_and_probabilities).*1).

(** The class defines [p], [get_top] and [get_scheme_for_sum], and no
    [compact]: looking the attribute up raises [AttributeError]. *)
Definition compact (self : t) : Res (list (Z * R)) := Raise AttributeError.

End scheme.
Arguments t R : clear implicits.
End SimpleProbabilisticScheme.

(** ** theory/simple/SimpleStatisticalCalculations.py *)

Module SimpleStatisticalCalculations.
Import SimpleProbabilisticScheme.
Section calculations.
Context `{Number R}.

(** [tuple((np.array(l_vec) - l_vec[i])[i + 1:])] once [l_vec[i]] is read.
    The subtraction is written on the integers: it is what the [int64] array
    computes as long as the entries of [l_vec] and their differences fit
    [int64], which they do on the sorted vectors of lengths that the
    calculator is made for. *)
Definition shift (l_vec : list Z) (i : nat) (li : Z) : list Z :=
  drop (i + 1) ((fun x => (x - li)%Z) <$> l_vec).

(** [expectation_sorted]; the cache of [@cache] does not change its value.
    Each call is on a smaller [w]. *)
Equations? expectation_sorted (self : t R) (w : nat) (l_vec : list Z) : Res R
  by wf w Nat.lt :=
expectation_sorted self 0 l_vec := Ret zero;
expectation_sorted self (S w') l_vec :=
  for_each
    (fun res i =>
       match l_vec !! i with
       | None => Raise IndexError
       | Some li =>
           let new_l_vec := shift l_vec i li in
           pr ← p self li;
           e ← expectation_sorted self (S w' - (i + 1)) new_l_vec;
           Ret (add res (mul pr (add one e)))
       end)
    zero (seq 0 (S w')).
Proof. unfold Nat.lt. lia. Qed.

Definition score (self : t R) (w : nat) (l_vec : list Z) : Res R :=
  expectation_sorted self w (py_sorted Z.ltb l_vec).

(** [delta_sorted]: for [w == 1] the expectation itself; otherwise
    [p(l_vec[w - 1])] plus the loop over [i < w - 1].  For [w == 0] the index
    [w - 1] is [-1], the last entry, and the loop is empty.  In the loop the
    recursive call comes before [p(l_vec[i])]. *)
Equations? delta_sorted (self : t R) (w : nat) (l_vec : list Z) : Res R
  by wf w Nat.lt :=
delta_sorted self 0 l_vec :=
  match last l_vec with
  | None => Raise IndexError
  | Some lw => p self lw
  end;
delta_sorted self 1 l_vec := expectation_sorted self 1 l_vec;
delta_sorted self (S (S w')) l_vec :=
  match l_vec !! S w' with
  | None => Raise IndexError
  | Some lw =>
      res ← p self lw;
      for_each
        (fun res i =>
           match l_vec !! i with
           | None => Raise IndexError
           | Some li =>
               let new_l_vec := shift l_vec i li in
               tmp ← delta_sorted self (S (S w') - (i + 1)) new_l_vec;
               pr ← p self li;
               Ret (add res (mul pr tmp))
           end)
        res (seq 0 (S w'))
  end.
Proof. unfold Nat.lt. lia. Qed.

End calculations.
End SimpleStatisticalCalculations.

(** ** theory/conditional: the scheme's [p] and the calculator's recursion *)

Module ConditionalProbabilisticScheme.
Section scheme.
Context `{Number R}.

(** [_map]: for each context (a tuple of lengths) the distribution of the
    next length; the inner maps are [defaultdict(float)]. *)
Record t : Type := mk { _map : gmap (list Z) (gmap Z R) }.

Definition p (self : t) (outcome : Z) (context : list Z) : R :=
  match _map self !! context with
  | Some distribution => default zero (distribution !! outcome)
  | None => zero
  end.

End scheme.
Arguments t R : clear implicits.
End ConditionalProbabilisticScheme.

Module ConditionalStatisticalCalculations.
Import ConditionalProbabilisticScheme.
Section calculations.
Context `{Number R}.

(** [new_l = np.array(l_vec) - l_vec[i]; new_l = new_l[new_l>0]], for
    entries that fit [int64]: the subtraction wraps around. *)
Definition positive_shift (l_vec : list Z) (li : Z) : list Z :=
  filter (fun x => (0 < x)%Z) ((fun x => wrap_int64 (x - li)) <$> l_vec).

Equations? expectation_sorted (self : t R) (w : nat) (l_vec context : list Z) : Res R
  by wf w Nat.lt :=
expectation_sorted self 0 l_vec context := Ret zero;
expectation_sorted self (S w') l_vec context :=
  for_each
    (fun res i =>
       match l_vec !! i with
       | None => Raise IndexError
       | Some li =>
           let new_l := positive_shift l_vec li in
           let new_context := drop 1 context ++ [li] in
           let pr := p self li context in
           e ← expectation_sorted self (S w' - i - 1) new_l new_context;
           Ret (add res (mul pr (add one e)))
       end)
    zero (seq 0 (S w')).
Proof. unfold Nat.lt. lia. Qed.

End calculations.
End ConditionalStatisticalCalculations.

(** ** optimizers/VariantsGenerator.py *)

Module VariantsGenerator.

Record t : Type := mk { _lengths : list Z }.

(** The inner function [_get_j_set]: the set [{0}] for [j == 0], else the
    sorted list of the sums of one length and one element of the previous
    set. *)
Fixpoint _get_j_set (self : t) (j : nat) : list Z :=
  match j with
  | 0 => [0%Z]
  | S j' =>
      let res : gset Z :=
        foldl (fun res l_r =>
                 foldl (fun res l_base => res ∪ {[ (l_base + l_r)%Z ]}) res (_lengths self))
              ∅ (_get_j_set self j') in
      py_sorted Z.ltb (elements res)
  end.

(** [get_baseline_set(n, j)]: each recursive call is on [j + 1]; the fuel
    bounds the number of these calls. *)
Fixpoint get_baseline_set (fuel : nat) (self : t) (n j : nat) : Res (list Z) :=
  match fuel with
  | 0 => Diverge
  | S fuel' =>
      let result : gset Z :=
        foldl (fun result k => result ∪ list_to_set (_get_j_set self k)) ∅ (seq 1 j) in
      if bool_decide (size result < n) then get_baseline_set fuel' self n (j + 1)
      else Ret (take n (py_sorted Z.ltb (elements result)))
  end.

(** [itertools.combinations_with_replacement(pool, r)]: the [r]-tuples of
    elements of [pool] at positions that do not decrease, in lexicographic
    order of the positions. *)
Fixpoint combinations_with_replacement {A} (pool : list A) (r : nat) : list (list A) :=
  match r with
  | 0 => [[]]
  | S r' =>
      (fix from (pool : list A) : list (list A) :=
         match pool with
         | [] => []
         | x :: pool' =>
             (cons x <$> combinations_with_replacement (x :: pool') r') ++ from pool'
         end) pool
  end.

(** [itertools.combinations(pool, r)]: the subsequences of length [r]. *)
Fixpoint combinations {A} (pool : list A) (r : nat) : list (list A) :=
  match r, pool with
  | 0, _ => [[]]
  | S _, [] => []
  | S r', x :: pool' => (cons x <$> combinations pool' r') ++ combinations pool' r
  end.

(** [np.cumsum(c)] for a tuple of integers that fit [int64]: the running
    sums of an [int64] array, which wrap around. *)
Fixpoint cumsum_from (total : Z) (c : list Z) : list Z :=
  match c with
  | [] => []
  | x :: c' =>
      let total := wrap_int64 (total + x) in
      total :: cumsum_from total c'
  end.

Definition cumsum (c : list Z) : list Z := cumsum_from 0 c.

(** [_for_future(r)].  [math.comb(len(self._lengths) + r - 1, r)] is
    evaluated first, for the progress bar: it raises [ValueError] on the
    negative argument [-1], which is the case of no length and [r == 0]. *)
Definition _for_future (self : t) (r : nat) : Res (gset Z) :=
  if bool_decide (length (_lengths self) = 0) && bool_decide (r = 0)
  then Raise ValueError
  else
    Ret (foldl (fun result c => foldl (fun result s => result ∪ {[ s ]}) result (cumsum c))
               ∅ (combinations_with_replacement (_lengths self) r)).

(** [generate_v_set(r, w)].  [variants] is a [set]: [combinations] runs
    over its elements in the order the set yields them, and every
    combination is sorted before it is added. *)
Definition v_set_of (variants : list Z) (w : nat) : gset (list Z) :=
  foldl (fun v_set c => v_set ∪ {[ py_sorted Z.ltb c ]}) ∅ (combinations variants w).

Definition generate_v_set (self : t) (r w : nat) : Res (gset (list Z)) :=
  variants ← _for_future self r;
  Ret (v_set_of (elements variants) w).

End VariantsGenerator.

(** ** optimizers/SimpleOptimizer.py, for a simple scheme *)

Module SimpleOptimizer.
Import SimpleProbabilisticScheme.
Section optimizer.
Context `{Number R}.

(** [get_scheme_for_sum] goes through numpy's FFT; the optimizer is read for
    any function in its place. *)
Context (get_scheme_for_sum : t R -> nat -> Res (t R)).

Definition _calculate_score (self : t R) (w : nat) (variant : list Z) : Res (R * list Z) :=
  s ← SimpleStatisticalCalculations.score self w variant; Ret (s, variant).

Definition _greedy (self : t R) (w : nat) : Res (R * list Z) :=
  top ← get_top self w;
  _calculate_score self w (py_sorted Z.ltb top).

(** [priorities[o] += p] on a [defaultdict(float)], kept in insertion order. *)
Fixpoint priorities_add (priorities : list (Z * R)) (o : Z) (pr : R) : list (Z * R) :=
  match priorities with
  | [] => [(o, add zero pr)]
  | (o', q) :: rest =>
      if bool_decide (o' = o) then (o', add q pr) :: rest
      else (o', q) :: priorities_add rest o pr
  end.

Definition greedy (self : t R) (w r : nat) : Res (R * list Z) :=
  if bool_decide (r = 1) then _greedy self w
  else
    priorities ←
      for_each
        (fun priorities r_candidate =>
           future_scheme ← get_scheme_for_sum self r_candidate;
           items ← compact future_scheme;
           Ret (foldl (fun priorities '(o, pr) => priorities_add priorities o pr)
                      priorities items))
        [] (seq 1 r);
    let priorities := py_sorted (fun x y => ltb y.2 x.2) priorities in
    let variant := py_sorted Z.ltb ((take w priorities).*1) in
    if bool_decide (length variant < w) then Raise ValueError
    else _calculate_score self w variant.

End optimizer.
End SimpleOptimizer.

(** ** theory/KGramModel.py *)

(** [d[key] += 1] on a [defaultdict(int)], kept in insertion order. *)
Fixpoint counter_incr `{EqDecision K} (d : list (K * nat)) (key : K) : list (K * nat) :=
  match d with
  | [] => [(key, 1)]
  | (key', n) :: rest =>
      if bool_decide (key' = key) then (key', n + 1) :: rest
      else (key', n) :: counter_incr rest key
  end.

Module KGramModel.

(** The symbols are Python integers; the context starts as [k] times
    [None].  A [k] below [0] gives the empty context of [k = 0]. *)
Record t : Type := mk
  { k : nat;
    _frequencies : list (list (option Z) * nat);
    _context : list (option Z);
    _is_ok : bool;
    alphabet : gset Z;
    _outcome_frequencies : list (Z * nat) }.

Definition init (k : nat) : t :=
  {| k := k; _frequencies := []; _context := replicate k None; _is_ok := false;
     alphabet := ∅; _outcome_frequencies := [] |}.

Definition number_of_outcomes (self : t) : nat := length (_outcome_frequencies self).

(** [feed]: [self._context.pop(0)] raises [IndexError] on an empty context,
    before anything is written. *)
Definition feed (self : t) (symbol : Z) : Res t :=
  match _context self with
  | [] => Raise IndexError
  | _ :: context =>
      let context := context ++ [Some symbol] in
      let outcome_frequencies := counter_incr (_outcome_frequencies self) symbol in
      let alphabet := alphabet self ∪ {[ symbol ]} in
      if _is_ok self then
        Ret {| k := k self;
               _frequencies := counter_incr (_frequencies self) context;
               _context := context; _is_ok := true;
               alphabet := alphabet; _outcome_frequencies := outcome_frequencies |}
      else
        Ret {| k := k self;
               _frequencies := _frequencies self;
               _context := context;
               _is_ok := bool_decide (None ∉ context);
               alphabet := alphabet; _outcome_frequencies := outcome_frequencies |}
  end.

Definition train (self : t) (sample : list Z) : Res t := for_each feed self sample.

(** [sorted(items, key=lambda x: x[1], reverse=True)[:n]], first components. *)
Definition most_frequent_outcomes (self : t) (n : nat) : list Z :=
  (take n (py_sorted (fun x y => y.2 <? x.2) (_outcome_frequencies self))).*1.

End KGramModel.

(** * The vocabulary of the properties *)

(** ** Trees and codes *)

Section tree_vocabulary.
Context `{Countable Sym}.
Import HuffmanCode.

(** The trees [build_huffman_tree] makes: a leaf has a symbol and no child,
    an internal node has no symbol and two children. *)
Inductive proper : Node Sym -> Prop :=
| proper_leaf s f : proper (mkNode (Some s) f NoneNode NoneNode)
| proper_internal f l r : proper l -> proper r -> proper (mkNode None f l r).

(** The leaves of a tree, left to right, with the path that leads to each:
    ['0'] for a left edge and ['1'] for a right edge. *)
Fixpoint paths (t : Node Sym) : list (Sym * list ascii) :=
  match t with
  | NoneNode => []
  | mkNode (Some s) _ _ _ => [(s, [])]
  | mkNode None _ l r =>
      (prod_map id (cons bit0) <$> paths l) ++ (prod_map id (cons bit1) <$> paths r)
  end.

Definition forest_leaves (heap : list (Node Sym)) : list Sym :=
  foldr (fun t acc => (paths t).*1 ++ acc) [] heap.

End tree_vocabulary.

(** ** Code tables *)

Section code_vocabulary.
Context `{Countable Sym}.

(** For two different symbols of the table, the code of the one is not a
    prefix of the code of the other. *)
Definition prefix_free_table (items : list (Sym * list ascii)) : Prop :=
  forall s c s' c', (s, c) ∈ items -> (s', c') ∈ items -> s <> s' -> ~ c `prefix_of` c'.

End code_vocabulary.

(** The sum of [2 ** (-len(code))] over a list of codes. *)
Definition kraft_sum (codes : list (list ascii)) : Qc :=
  foldr (fun c total => (Q2Qc (1 # 2) ^ length c + total)%Qc) 0%Qc codes.

(** ** Counters and [k]-grams *)

(** The count stored for a key, [0] for a key that is absent. *)
Fixpoint counter_get `{EqDecision K} (d : list (K * nat)) (key : K) : nat :=
  match d with
  | [] => 0
  | (key', n) :: rest => if bool_decide (key' = key) then n else counter_get rest key
  end.

(** The [k]-grams of a sample that start at the positions [1] to
    [len - k], as the tuples the model keys its frequencies with: every
    [k]-gram of the sample but the one at position [0]. *)
Definition later_grams (k : nat) (sample : list Z) : list (list (option Z)) :=
  (fun i => Some <$> take k (drop i sample)) <$> seq 1 (length sample - k).

Section k_gram_vocabulary.
Import KGramModel.

(** The state of a model of order [k >= 1] after it was fed a sample. *)
Record trained (k : nat) (sample : list Z) (self : t) : Prop :=
  { trained_k : KGramModel.k self = k;
    trained_context :
      _context self = drop (length sample) (replicate k None ++ (Some <$> sample));
    trained_is_ok : _is_ok self = bool_decide (k <= length sample);
    trained_frequencies :
      forall gram, counter_get (_frequencies self) gram
                   = length (filter (eq gram) (later_grams k sample));
    trained_grams : NoDup (_frequencies self).*1;
    trained_total : sum_list (_frequencies self).*2 = length sample - k;
    trained_outcomes :
      forall symbol, counter_get (_outcome_frequencies self) symbol
                     = length (filter (eq symbol) sample);
    trained_symbols : forall symbol, symbol ∈ (_outcome_frequencies self).*1 <-> symbol ∈ sample;
    trained_distinct : NoDup (_outcome_frequencies self).*1;
    trained_alphabet : alphabet self = list_to_set sample }.

End k_gram_vocabulary.

(** ** Sums of lengths *)

(** [sum(c)] of a tuple of integers. *)
Definition Zsum (c : list Z) : Z := foldr Z.add 0%Z c.

(** ** Integers that numpy keeps exact *)

(** An integer that an [int64] array holds as it is. *)
Definition fits_int64 (x : Z) : Prop := (- 2 ^ 63 <= x < 2 ^ 63)%Z.

(** A vector whose entries fit [int64], and so do the differences of any
    two of them: subtracting an entry from the array does not wrap. *)
Definition int64_differences (l_vec : list Z) : Prop :=
  Forall fits_int64 l_vec
  /\ forall x y, x ∈ l_vec -> y ∈ l_vec -> fits_int64 (x - y).

(** ** Frequencies of a tree *)

Section frequency_vocabulary.
Context `{Countable Sym}.
Import HuffmanCode.

(** The leaves of a tree, left to right, each with its frequency. *)
Fixpoint leaves (t : Node Sym) : list (Sym * Z) :=
  match t with
  | NoneNode => []
  | mkNode (Some s) f _ _ => [(s, f)]
  | mkNode None _ l r => leaves l ++ leaves r
  end.

(** The frequency of every internal node is the sum of the frequencies of its
    two children. *)
Fixpoint weighted (t : Node Sym) : Prop :=
  match t with
  | mkNode None f l r => f = (frequency l + frequency r)%Z /\ weighted l /\ weighted r
  | _ => True
  end.

End frequency_vocabulary.

(** ** Attempts, chains and tallies of the speculative decoder *)

Section decoder_vocabulary.
Context `{Countable Sym} `{Index Sym} `{Predictor P}.
Import HuffmanCode SpeculativeDecoder.

Abbreviation decoder := (@SpeculativeDecoder.t Sym P).
Abbreviation SDR := (SingleDecodingResult.t Sym).
Abbreviation locals := (SpeculativeDecoder.output Sym).
Abbreviation tally := (SpeculativeDecoder.output Z).

(** A run of [decode] calls on one single decoder. *)
Definition decode_run (self : @SingleDecoder.t Sym) (calls : list (list ascii * nat))
    : @SingleDecoder.t Sym :=
  foldl (fun self '(data, position) => (SingleDecoder.decode self data position).2)
        self calls.

(** The speculative decoder with the counters of its single decoders reset:
    what is left when the statistics are disregarded. *)
Definition without_statistics (self : decoder) : decoder :=
  {| _decoders := SingleDecoder.reset_statistics <$> _decoders self;
     _speculation_width := _speculation_width self;
     _predictor := _predictor self;
     _previous := _previous self;
     _current_position := _current_position self;
     _chain_length_limit := _chain_length_limit self |}.

(** A symbol that [bytes] accepts: an integer in [range(256)]. *)
Definition byte_value (s : Sym) (value : Z) : Prop :=
  __index__ s = Some value /\ (0 <= value < 256)%Z.

(** A successful attempt carries a symbol and consumes at least one bit,
    all of them inside the data. *)
Definition committed (data : list ascii) (position : nat) (r : SDR) : Prop :=
  SingleDecodingResult.was_decoded r = true
  /\ is_Some (SingleDecodingResult.symbol r)
  /\ 1 <= SingleDecodingResult.length r
  /\ position + SingleDecodingResult.length r <= length data.

(** Every entry of the map of successes is the successful attempt of one of
    the decoders at its offset, which lies inside the data. *)
Definition results_ok (self : decoder) (data : list ascii) (position : nat)
    (results : gmap nat SDR) : Prop :=
  forall k r, results !! k = Some r ->
    position + k < length data
    /\ SingleDecodingResult.was_decoded r = true
    /\ exists d, d ∈ _decoders self /\ r = SingleDecoder._decode d data (position + k).

(** The chains that [while current_offset in results] can build from an
    offset, cut anywhere. *)
Inductive chain_from (results : gmap nat SDR) : nat -> list SDR -> Prop :=
| chain_stop offset : chain_from results offset []
| chain_step offset r rest :
    results !! offset = Some r ->
    chain_from results (offset + SingleDecodingResult.length r) rest ->
    chain_from results offset (r :: rest).

(** The bookkeeping of [decode] after any number of rounds. *)
Definition tallies_agree {A} (out : SpeculativeDecoder.output A) : Prop :=
  successes out = sum_list (commited_codewords out)
  /\ successes out = length (decoded_symbols out)
  /\ length (commited_codewords out) = length (truly_predicted out)
  /\ Forall (fun c => 1 <= c) (commited_codewords out)
  /\ Forall (fun g => g = 0 \/ g = 1) (truly_predicted out).

(** The decoders of [__init__]: one more than the width, all on the tree,
    whatever their counters have come to. *)
Definition decoders_of (T : Node Sym) (self : decoder) : Prop :=
  SingleDecoder.reset_statistics <$> _decoders self
  = replicate (_speculation_width self + 1) (SingleDecoder.init T).

End decoder_vocabulary.

(** ** The recursion of the expectation *)

Section recursion_vocabulary.
Context `{Number R}.
Import SimpleProbabilisticScheme SimpleStatisticalCalculations.

(** The vector of the recursion as the specification words it:
    [L[j] - L[i]] for the later entries [j > i] with [L[j] > L[i]]; the
    entries equal to [L[i]] are dropped. *)
Definition drop_and_shift (l_vec : list Z) (i : nat) (li : Z) : list Z :=
  (fun x => (x - li)%Z) <$> filter (fun x => (li < x)%Z) (drop (i + 1) l_vec).

(** [sum over i < w of p(L[i]) * (1 + expectation_sorted(w-i-1, next(L, i)))],
    with the calculator of the source on the right-hand side. *)
Definition recursion_sum (next : list Z -> nat -> Z -> list Z)
    (self : t R) (w : nat) (l_vec : list Z) : Res R :=
  for_each
    (fun res i =>
       match l_vec !! i with
       | None => Raise IndexError
       | Some li =>
           pr ← p self li;
           e ← expectation_sorted self (w - (i + 1)) (next l_vec i li);
           Ret (add res (mul pr (add one e)))
       end)
    zero (seq 0 w).

(** The sum over [drop_and_shift] with, as width, the length of the vector
    that is left. *)
Definition recursion_sum_by_length (self : t R) (w : nat) (l_vec : list Z) : Res R :=
  for_each
    (fun res i =>
       match l_vec !! i with
       | None => Raise IndexError
       | Some li =>
           let next := drop_and_shift l_vec i li in
           pr ← p self li;
           e ← expectation_sorted self (length next) next;
           Ret (add res (mul pr (add one e)))
       end)
    zero (seq 0 w).

End recursion_vocabulary.

(** ** Exact arithmetic *)

(** Numbers whose [+] and [*] obey the laws of a commutative semiring that the
    calculators rely on, as the rationals do; the floats of the source do not
    (their addition is not associative). *)
Record exact_arithmetic `{Number R} : Prop :=
  { exact_add_comm : forall x y : R, add x y = add y x;
    exact_add_assoc : forall x y z : R, add x (add y z) = add (add x y) z;
    exact_add_zero : forall x : R, add zero x = x;
    exact_mul_one : forall x : R, mul x one = x;
    exact_mul_add : forall x y z : R, mul x (add y z) = add (mul x y) (mul x z) }.

(** ** The scenarios of the specification *)

Definition S4_scheme_Qc : SimpleProbabilisticScheme.t Qc :=
  SimpleProbabilisticScheme.mk [1; 2; 3]%Z
    [Q2Qc (1 # 2); Q2Qc (3 # 10); Q2Qc (1 # 5)].

Definition S4_scheme_float : SimpleProbabilisticScheme.t float :=
  SimpleProbabilisticScheme.mk [1; 2; 3]%Z
    [0x1p-1%float; 0x1.3333333333333p-2%float; 0x1.999999999999ap-3%float].

(** The binary64 values nearest to 0.3, 0.2 and 1.05. *)
Definition float_1_05 : float := 0x1.0cccccccccccdp+0%float.

Definition fair_01_scheme : SimpleProbabilisticScheme.t Qc :=
  SimpleProbabilisticScheme.mk [0; 1]%Z [Q2Qc (1 # 2); Q2Qc (1 # 2)].

Definition S1_tree : HuffmanCode.Node nat :=
  HuffmanCode.mkNode None 0
    (HuffmanCode.mkNode (Some 97) 0 HuffmanCode.NoneNode HuffmanCode.NoneNode)
    (HuffmanCode.mkNode None 0
       (HuffmanCode.mkNode (Some 98) 0 HuffmanCode.NoneNode HuffmanCode.NoneNode)
       (HuffmanCode.mkNode (Some 99) 0 HuffmanCode.NoneNode HuffmanCode.NoneNode)).

Definition S1_bits : list ascii := list_ascii_of_string "010011010".

Definition S1_decoder : SpeculativeDecoder.t :=
  SpeculativeDecoder.init S1_tree 2 (StaticPredictor.mk [1; 2]) None.

(** The code table of scenario S1, as a [dict] and as its items. *)
Definition S1_items : list (nat * list ascii) :=
  [(97, list_ascii_of_string "0"); (98, list_ascii_of_string "10");
   (99, list_ascii_of_string "11")].

Definition S1_code_table : gmap nat (list ascii) := list_to_map S1_items.

Definition S1_histogram : list (nat * Z) := [(97, 5%Z); (98, 2%Z); (99, 1%Z)].

Definition S1_data : list nat := [97; 98; 97; 99; 97; 98].

(** Scenario S1, after [decode]: what it answers, and the decoder it leaves.
    Each of the three single decoders has made one attempt per round, all
    successful; they have read 3, 6 and 4 bits. *)
Definition S1_output : SpeculativeDecoder.output Z :=
  SpeculativeDecoder.mk_output [97; 98; 97; 99; 97; 98]%Z 6 9 [2; 2; 2] [1; 1; 1].

Definition S1_final : SpeculativeDecoder.t :=
  SpeculativeDecoder.mk
    [SingleDecoder.mk S1_tree None (DecodingStatistics.mk 3 3 0 3 0);
     SingleDecoder.mk S1_tree None (DecodingStatistics.mk 3 3 0 6 0);
     SingleDecoder.mk S1_tree None (DecodingStatistics.mk 3 3 0 4 0)]
    2 (StaticPredictor.mk [1; 2]) (Some 97) 9 None.

(** A code table with a symbol that is not a byte value: the tree of the
    codes [{300: "0", 1: "1"}], and the code of [300]. *)
Definition wide_symbol_tree : HuffmanCode.Node nat :=
  HuffmanCode.build_decoding_tree
    [(300, list_ascii_of_string "0"); (1, list_ascii_of_string "1")].

Definition wide_symbol_bits : list ascii := list_ascii_of_string "0".

(** A predictor that answers its whole table whatever [n] is: it does not
    honour the width. *)
Definition whole_table_predictor : Predictor (list nat) :=
  {| implicitly_predict table n := table; feed table current := table |}.

(** * Properties of the embedding *)

(** ** The single-symbol decoder *)

Section single_decoder_facts.
Context `{Countable Sym}.
Import HuffmanCode.

(** C3.  [SingleDecoder.decode(bits, position)] answers
    [{was_decoded=false, symbol=None, length=0}] when [bits] is empty, when
    [position >= len(bits)] or when the tree is [None]; when the root of the
    tree carries a symbol (a bare leaf in particular) and
    [position < len(bits)], it answers [{true, symbol, 1}] whatever the
    characters of [bits] are. *)
Theorem single_decoder_guards (T : Node Sym) (bits : list ascii) (position : nat) :
  (bits = [] \/ length bits <= position \/ T = NoneNode ->
     (SingleDecoder.decode (SingleDecoder.init T) bits position).1
     = SingleDecodingResult.mk false None 0)
  /\ (forall s f l r, T = mkNode (Some s) f l r -> position < length bits ->
     (SingleDecoder.decode (SingleDecoder.init T) bits position).1
     = SingleDecodingResult.mk true (Some s) 1).
Proof.
  unfold SingleDecoder.decode, SingleDecoder._decode. cbn [fst]. split.
  - intros [-> | [Hpos | ->]]; simpl.
    + reflexivity.
    + rewrite (bool_decide_eq_true_2 _ Hpos), orb_true_r. reflexivity.
    + rewrite !orb_true_r. reflexivity.
  - intros s f l r -> Hpos. simpl.
    destruct bits as [|b bits]; [simpl in Hpos; lia|].
    rewrite bool_decide_eq_false_2 by discriminate.
    rewrite bool_decide_eq_false_2 by lia. simpl.
    rewrite (bool_decide_eq_true_2 _ Hpos). reflexivity.
Qed.

End single_decoder_facts.

Lemma single_decoder_guards_witness :
  (SingleDecoder.decode
     (SingleDecoder.init (@HuffmanCode.NoneNode nat)) ["1"%char; "0"%char] 0).1
  = SingleDecodingResult.mk false None 0
  /\ (SingleDecoder.decode
        (SingleDecoder.init
           (HuffmanCode.mkNode (Some 7) 3 HuffmanCode.NoneNode HuffmanCode.NoneNode))
        ["0"%char; "x"%char; "1"%char] 1).1
     = SingleDecodingResult.mk true (Some 7) 1.
Proof.
  split.
  - apply (proj1 (single_decoder_guards HuffmanCode.NoneNode ["1"%char; "0"%char] 0)).
    right; right; reflexivity.
  - apply (proj2 (single_decoder_guards _ ["0"%char; "x"%char; "1"%char] 1)
             7 3%Z HuffmanCode.NoneNode HuffmanCode.NoneNode); [reflexivity | simpl; lia].
Defined.

(** ** Encoding *)

Section encode_facts.
Context `{Countable Sym}.
Import HuffmanCode.

Lemma encode_loop_all_present (data : list Sym) (codes : gmap Sym (list ascii)) acc :
  Forall (fun s => is_Some (codes !! s)) data ->
  exists cs, Forall2 (fun s c => codes !! s = Some c) data cs
             /\ encode_loop data codes acc = Ret (acc ++ cs).
Proof.
  intros Hall. revert acc. induction Hall as [|s data [c Hc] _ IH]; intros acc.
  - exists []. split; [constructor | simpl; by rewrite app_nil_r].
  - destruct (IH (acc ++ [c])) as (cs & Hcs & Heq).
    exists (c :: cs). split; [by constructor|].
    simpl. rewrite Hc, Heq. by rewrite <- app_assoc.
Qed.

Lemma encode_loop_missing (data : list Sym) (codes : gmap Sym (list ascii)) acc :
  Exists (fun s => codes !! s = None) data ->
  encode_loop data codes acc = Raise ValueError.
Proof.
  intros Hex. revert acc. induction Hex as [s data Hs | s data _ IH]; intros acc; simpl.
  - by rewrite Hs.
  - destruct (codes !! s); [apply IH | reflexivity].
Qed.

(** With a table that is not empty, [encode] is the concatenation of the
    codes when every symbol has one, and raises [ValueError] otherwise. *)
Lemma encode_nonempty_table (data : list Sym) (codes : gmap Sym (list ascii)) :
  codes <> ∅ ->
  (Forall (fun s => is_Some (codes !! s)) data ->
     exists cs, Forall2 (fun s c => codes !! s = Some c) data cs
                /\ encode data codes = Ret (concat cs))
  /\ (Exists (fun s => codes !! s = None) data -> encode data codes = Raise ValueError).
Proof.
  intros Hne. unfold encode. rewrite (bool_decide_eq_false_2 _ Hne), orb_false_r. split.
  - intros Hall. destruct (encode_loop_all_present data codes [] Hall) as (cs & Hcs & Heq).
    exists cs. split; [done|]. case_bool_decide as Hd.
    + subst data. by inversion Hcs.
    + by rewrite Heq.
  - intros Hex. case_bool_decide as Hd.
    + subst data. inversion Hex.
    + by rewrite encode_loop_missing.
Qed.

(** The guard [if not data or not huffman_codes: return ""] answers before
    any symbol is looked up. *)
Lemma encode_guard (data : list Sym) (codes : gmap Sym (list ascii)) :
  data = [] \/ codes = ∅ -> encode data codes = Ret [].
Proof.
  intros [-> | ->]; unfold encode; [done|].
  by rewrite (bool_decide_eq_true_2 (∅ = ∅)), orb_true_r.
Qed.

(** What [encode] does.  It answers the empty string when the
    sequence or the code table is empty.  With a table that is not empty it
    returns the concatenation of the codes of the symbols when each has an
    entry, and raises [ValueError] when some symbol has none. *)
Theorem encode_contract (data : list Sym) (codes : gmap Sym (list ascii)) :
  (data = [] \/ codes = ∅ -> encode data codes = Ret [])
  /\ (codes <> ∅ -> Forall (fun s => is_Some (codes !! s)) data ->
      exists cs, Forall2 (fun s c => codes !! s = Some c) data cs
                 /\ encode data codes = Ret (concat cs))
  /\ (codes <> ∅ -> Exists (fun s => codes !! s = None) data ->
      encode data codes = Raise ValueError).
Proof.
  split; [apply encode_guard|]. split; intros Hne.
  - apply (proj1 (encode_nonempty_table data codes Hne)).
  - apply (proj2 (encode_nonempty_table data codes Hne)).
Qed.

End encode_facts.

Lemma encode_contract_witness :
  HuffmanCode.encode [98; 97] ({[ 97 := [bit0] ]} : gmap nat (list ascii))
  = Raise ValueError.
Proof.
  apply (proj2 (proj2 (encode_contract [98; 97] {[ 97 := [bit0] ]}))).
  - intros Heq. apply (f_equal (lookup 97)) in Heq. vm_compute in Heq. discriminate.
  - constructor. reflexivity.
Defined.

(** C4.  [encode] is documented to raise [ValueError] when a symbol of the
    data is not found in the codes.  Against an empty code table it does not:
    the symbol [97] has no entry, and [encode] returns the empty string. *)
Theorem encode_empty_table_returns :
  Exists (fun s => (∅ : gmap nat (list ascii)) !! s = None) [97]
  /\ HuffmanCode.encode [97] (∅ : gmap nat (list ascii)) = Ret [].
Proof. split; [by constructor | reflexivity]. Qed.

(** ** The expectation of the simple calculator, on the scheme of scenario S4 *)

(** C9.  For outcomes [[1,2,3]] with probabilities [[0.5,0.3,0.2]],
    [expectation_sorted(2, (1,2))] is 21/20 over the rationals, and over
    binary64 floats it is the float that the literal [1.05] denotes. *)
Theorem expectation_sorted_S4 :
  SimpleStatisticalCalculations.expectation_sorted S4_scheme_Qc 2 [1; 2]%Z
  = Ret (Q2Qc (21 # 20))
  /\ SimpleStatisticalCalculations.expectation_sorted S4_scheme_float 2 [1; 2]%Z
     = Ret float_1_05.
Proof.
  split.
  - vm_compute. f_equal. apply Qc_is_canon. reflexivity.
  - vm_compute. reflexivity.
Qed.

(** ** The recursion of [expectation_sorted] *)

Section recursion.
Context `{Number R}.
Import SimpleProbabilisticScheme SimpleStatisticalCalculations.

Lemma for_each_ext {S A} (f g : S -> A -> Res S) (s : S) (xs : list A) :
  (forall s x, x ∈ xs -> f s x = g s x) -> for_each f s xs = for_each g s xs.
Proof.
  revert s. induction xs as [|x xs IH]; intros s Hfg; simpl; [done|].
  rewrite Hfg by constructor.
  destruct (g s x); simpl; try done. apply IH. intros; apply Hfg; by constructor.
Qed.

Lemma StronglySorted_lookup_drop {A} (rel : relation A) (l : list A) (i : nat) (x : A) :
  StronglySorted rel l -> l !! i = Some x ->
  Forall (rel x) (drop (i + 1) l) /\ StronglySorted rel (drop (i + 1) l).
Proof.
  intros Hs. revert i. induction Hs as [|y l Hs IH Hy]; intros i Hi; [done|].
  destruct i as [|i]; simpl in *.
  - injection Hi as ->. by rewrite drop_0.
  - by apply IH.
Qed.

Lemma drop_and_shift_strict (l_vec : list Z) (i : nat) (li : Z) :
  StronglySorted Z.lt l_vec -> l_vec !! i = Some li ->
  drop_and_shift l_vec i li = shift l_vec i li.
Proof.
  intros Hs Hi. unfold drop_and_shift, shift. rewrite <- fmap_drop. f_equal.
  destruct (StronglySorted_lookup_drop _ _ _ _ Hs Hi) as [Hall _].
  induction Hall as [|x l Hx _ IH]; [done|].
  rewrite filter_cons_True by done. by rewrite IH.
Qed.

(** The defining equation of the calculator, as a sum. *)
Lemma expectation_sorted_shift_sum (self : t R) (w : nat) (l_vec : list Z) :
  expectation_sorted self w l_vec = recursion_sum shift self w l_vec.
Proof. destruct w; simp expectation_sorted; reflexivity. Qed.

(** C5, as the code has it.  [expectation_sorted(w, L)] is the sum over
    [i < w] of [p(L[i]) * (1 + expectation_sorted(w-i-1, shift(L, i)))] where
    [shift(L, i)] keeps every later entry, shifted down by [L[i]]: an entry
    equal to [L[i]] stays in the vector as [0].  On a strictly increasing [L]
    nothing is equal, and the sum is the one over [drop_and_shift]. *)
Theorem expectation_sorted_recursion (self : t R) (w : nat) (l_vec : list Z) :
  expectation_sorted self w l_vec = recursion_sum shift self w l_vec
  /\ (StronglySorted Z.lt l_vec ->
      expectation_sorted self w l_vec = recursion_sum drop_and_shift self w l_vec).
Proof.
  split; [apply expectation_sorted_shift_sum|].
  intros Hs. rewrite expectation_sorted_shift_sum. unfold recursion_sum.
  apply for_each_ext. intros res i _.
  destruct (l_vec !! i) as [li|] eqn:Hi; [|done].
  by rewrite drop_and_shift_strict.
Qed.

End recursion.

Lemma expectation_sorted_recursion_witness :
  SimpleStatisticalCalculations.expectation_sorted S4_scheme_Qc 2 [1; 2]%Z
  = recursion_sum drop_and_shift S4_scheme_Qc 2 [1; 2]%Z.
Proof.
  apply (proj2 (expectation_sorted_recursion S4_scheme_Qc 2 [1; 2]%Z)).
  repeat constructor.
Defined.

(** C5 as stated fails on a vector with a repeated entry.  On
    the scheme of scenario S4 and the sorted vector [(1,1)] the calculator
    keeps the second entry as [0] and answers
    [1/2*(1 + p(0)*1) + 1/2*1 = 1]; the sum over [drop_and_shift] asks for
    [expectation_sorted(1, ())], which reads [l_vec[0]] of an empty tuple and
    raises [IndexError]. *)
Lemma expectation_sorted_repeated_entry :
  Sorted Z.le [1; 1]%Z
  /\ Forall (fun x => (0 <= x)%Z) [1; 1]%Z
  /\ SimpleStatisticalCalculations.expectation_sorted S4_scheme_Qc 2 [1; 1]%Z
     = Ret (Q2Qc 1)
  /\ recursion_sum drop_and_shift S4_scheme_Qc 2 [1; 1]%Z = Raise IndexError
  /\ SimpleStatisticalCalculations.expectation_sorted S4_scheme_Qc 2 [1; 1]%Z
     <> recursion_sum drop_and_shift S4_scheme_Qc 2 [1; 1]%Z.
Proof.
  assert (SimpleStatisticalCalculations.expectation_sorted S4_scheme_Qc 2 [1; 1]%Z
          = Ret (Q2Qc 1)) as Hcode.
  { vm_compute. f_equal. apply Qc_is_canon. reflexivity. }
  assert (recursion_sum drop_and_shift S4_scheme_Qc 2 [1; 1]%Z = Raise IndexError) as Hsum.
  { vm_compute. reflexivity. }
  split; [repeat constructor; lia|]. split; [repeat constructor; lia|].
  split; [done|]. split; [done|]. rewrite Hcode, Hsum. discriminate.
Qed.

(** The entry kept as [0] is summed over like any other: where [0] is an
    outcome it adds to the expectation.  For the outcomes [[0,1]] with
    probabilities [[1/2,1/2]], [expectation_sorted(2, (1,1))] is
    [1/2*(1 + 1/2) + 1/2 = 5/4]. *)
Example expectation_sorted_zero_entry :
  SimpleStatisticalCalculations.expectation_sorted fair_01_scheme 2 [1; 1]%Z
  = Ret (Q2Qc (5 # 4)).
Proof. vm_compute. f_equal. apply Qc_is_canon. reflexivity. Qed.

(** ** Entries kept as [0], where [0] is not an outcome *)

Section zero_entries.
Import SimpleProbabilisticScheme SimpleStatisticalCalculations.

Lemma for_each_fmap {S A B} (f : S -> B -> Res S) (g : A -> B) (s : S) (xs : list A) :
  for_each f s (g <$> xs) = for_each (fun s x => f s (g x)) s xs.
Proof.
  revert s. induction xs as [|x xs IH]; intros s; simpl; [done|].
  destruct (f s (g x)); simpl; [apply IH | done..].
Qed.

(** A leading [0] of probability 0 is an attempt that never commits: the
    calculator answers as on the rest of the vector. *)
Lemma expectation_sorted_skip_zero (self : t Qc) (w : nat) (l_vec : list Z) :
  p self 0 = Ret 0%Qc ->
  expectation_sorted self (S w) (0%Z :: l_vec) = expectation_sorted self w l_vec.
Proof.
  intros Hp0. simp expectation_sorted. cbn [seq for_each lookup list_lookup].
  assert (shift (0%Z :: l_vec) 0 0 = l_vec) as ->.
  { unfold shift. simpl. rewrite drop_0. induction l_vec as [|x l IH]; simpl; [done|].
    by rewrite Z.sub_0_r, IH. }
  rewrite Hp0. cbn [mbind Res_mbind Res_bind].
  replace (S w - (0 + 1)) with w by lia.
  destruct (expectation_sorted self w l_vec) as [v| |] eqn:Hv; cbn [mbind Res_mbind Res_bind];
    [|done..].
  assert (add zero (mul (Q2Qc 0) (add one v)) = zero) as -> by (simpl; ring).
  rewrite <- Hv. clear Hv. rewrite <- fmap_S_seq, for_each_fmap.
  destruct w as [|w]; simp expectation_sorted; [done|].
  apply for_each_ext. intros res i _. cbn [lookup list_lookup].
  change (list_lookup i l_vec) with (l_vec !! i).
  destruct (l_vec !! i) as [li|]; [|done].
  by replace (S (S w) - (S i + 1)) with (S w - (i + 1)) by lia.
Qed.

Lemma expectation_sorted_skip_zeros (self : t Qc) (k w : nat) (l_vec : list Z) :
  p self 0 = Ret 0%Qc ->
  expectation_sorted self (k + w) (replicate k 0%Z ++ l_vec) = expectation_sorted self w l_vec.
Proof.
  intros Hp0. induction k as [|k IH]; [done|].
  simpl. by rewrite expectation_sorted_skip_zero.
Qed.

(** On a sorted run the entries equal to [li] come first: shifting leaves
    them as a block of zeros in front of the entries that [drop_and_shift]
    keeps. *)
Lemma shift_sorted_tail (tail : list Z) (li : Z) :
  StronglySorted Z.le tail -> Forall (fun x => (li <= x)%Z) tail ->
  exists k,
    (fun x => (x - li)%Z) <$> tail
    = replicate k 0%Z ++ ((fun x => (x - li)%Z) <$> filter (fun x => (li < x)%Z) tail).
Proof.
  induction 1 as [|x tail Htail IH Hx]; intros Hall.
  - by exists 0.
  - apply Forall_cons in Hall as [Hli Hall].
    destruct (decide (li < x)%Z) as [Hlt|Heq].
    + exists 0.
      assert (Forall (fun y => (li < y)%Z) (x :: tail)) as Hkeep.
      { constructor; [done|]. eapply Forall_impl; [exact Hx|]. intros y Hy. lia. }
      assert (filter (fun y => (li < y)%Z) (x :: tail) = x :: tail) as ->; [|done].
      clear -Hkeep. induction Hkeep as [|y l Hy _ IHl]; [done|].
      rewrite filter_cons_True by done. by rewrite IHl.
    + destruct (IH Hall) as [k Hk]. exists (S k).
      rewrite filter_cons_False by done. rewrite fmap_cons, Hk.
      replace (x - li)%Z with 0%Z by lia. done.
Qed.

(** With duplicates allowed but [0] not among the outcomes, the calculator
    does agree with the sum over [drop_and_shift], read with the length of the
    vector that is left as width. *)
Lemma expectation_sorted_dropping (self : t Qc) (w : nat) (l_vec : list Z) :
  p self 0 = Ret 0%Qc -> Sorted Z.le l_vec -> length l_vec = w ->
  expectation_sorted self w l_vec = recursion_sum_by_length self w l_vec.
Proof.
  intros Hp0 Hsorted%Sorted_StronglySorted Hlen; [|intros ? ? ?; lia].
  rewrite expectation_sorted_shift_sum.
  unfold recursion_sum, recursion_sum_by_length.
  apply for_each_ext. intros res i _.
  destruct (l_vec !! i) as [li|] eqn:Hi; [|done].
  destruct (StronglySorted_lookup_drop _ _ _ _ Hsorted Hi) as [Hall Htail].
  destruct (shift_sorted_tail _ li Htail Hall) as [k Hk].
  assert (shift l_vec i li = replicate k 0%Z ++ drop_and_shift l_vec i li) as Hshift.
  { unfold shift, drop_and_shift. by rewrite <- fmap_drop. }
  assert (w - (i + 1) = k + length (drop_and_shift l_vec i li)) as Hwidth.
  { apply (f_equal length) in Hshift. unfold shift in Hshift at 1.
    rewrite length_drop, length_fmap, length_app, length_replicate in Hshift. lia. }
  cbv zeta. by rewrite Hwidth, Hshift, expectation_sorted_skip_zeros.
Qed.

Example expectation_sorted_dropping_S4 :
  expectation_sorted S4_scheme_Qc 2 [1; 1]%Z
  = recursion_sum_by_length S4_scheme_Qc 2 [1; 1]%Z.
Proof.
  apply expectation_sorted_dropping; [reflexivity | repeat constructor; lia | reflexivity].
Qed.

End zero_entries.

(** The conditional calculator does drop the entries equal to [L[i]], and
    keeps the width [w - i - 1]: on a vector with a repeated entry it reads
    past the end of the vector that is left. *)
Lemma conditional_expectation_repeated_entry `{Number R}
    (self : ConditionalProbabilisticScheme.t R) (context : list Z) :
  ConditionalStatisticalCalculations.expectation_sorted self 2 [1; 1]%Z context
  = Raise IndexError.
Proof. by simp expectation_sorted. Qed.

(** ** Requests beyond the support *)

Section get_top_facts.
Context `{Number R}.
Import SimpleProbabilisticScheme.

Lemma py_insert_length {A} (lt : A -> A -> bool) (x : A) (l : list A) :
  length (py_insert lt x l) = S (length l).
Proof. induction l as [|y l IH]; simpl; [done|]. destruct (lt y x); simpl; lia. Qed.

Lemma py_sorted_length {A} (lt : A -> A -> bool) (l : list A) :
  length (py_sorted lt l) = length l.
Proof.
  induction l as [|x l IH]; simpl; [done|].
  unfold py_sorted in *. simpl. by rewrite py_insert_length, IH.
Qed.

Lemma mapM_Res_length {A B} (f : A -> Res B) (l : list A) (k : list B) :
  mapM f l = Ret k -> length k = length l.
Proof.
  revert k. induction l as [|x l IH]; intros k; simpl.
  - by intros [= <-].
  - destruct (f x) as [y| |]; simpl; try done.
    destruct (mapM f l) as [ys| |]; simpl; try done.
    intros [= <-]. simpl. f_equal. by apply IH.
Qed.

Lemma mapM_Res_returns {A B} (f : A -> Res B) (l : list A) :
  Forall (fun x => returns (f x)) l -> returns (mapM f l).
Proof.
  induction 1 as [|x l [y Hy] _ [ys IH]]; simpl.
  - by eexists.
  - rewrite Hy. simpl. rewrite IH. by eexists.
Qed.

(** With as many probabilities as outcomes, [p] returns on every outcome. *)
Lemma p_returns_on_outcomes (self : t R) (o : Z) :
  length (outcomes self) <= length (probabilities self) ->
  o ∈ outcomes self -> returns (p self o).
Proof.
  intros Hlen Ho. unfold p.
  destruct (list_find _ _) as [[i x]|] eqn:Hfind; [|by eexists].
  apply list_find_Some in Hfind as (Hi & _ & _).
  apply lookup_lt_Some in Hi.
  destruct (lookup_lt_is_Some_2 (probabilities self) i) as [pr ->]; [lia|].
  by eexists.
Qed.

(** [get_top(n)] raises its [ValueError] when [n] exceeds the number of
    stored outcomes. *)
Lemma get_top_beyond_support (self : t R) (n : nat) :
  length (outcomes self) <= length (probabilities self) ->
  length (outcomes self) < n ->
  get_top self n = Raise ValueError.
Proof.
  intros Hlen Hn. unfold get_top.
  destruct (mapM_Res_returns (fun o => pr ← p self o; Ret (o, pr)) (outcomes self))
    as [pairs Hpairs].
  { apply Forall_forall. intros o Ho.
    destruct (p_returns_on_outcomes self o Hlen Ho) as [pr ->]. by eexists. }
  rewrite Hpairs. simpl.
  rewrite bool_decide_eq_true_2; [done|].
  rewrite py_sorted_length. by rewrite (mapM_Res_length _ _ _ Hpairs).
Qed.

End get_top_facts.

Section baseline_facts.
Import VariantsGenerator.

Lemma _get_j_set_no_lengths (j : nat) : _get_j_set (mk []) (S j) = [].
Proof.
  simpl. generalize (_get_j_set (mk []) j). intros l.
  assert (foldl (fun (res : gset Z) (_ : Z) => res) ∅ l = ∅) as ->.
  { induction l; simpl; done. }
  by rewrite elements_empty.
Qed.

Lemma _get_j_set_only_zero (j : nat) : _get_j_set (mk [0%Z]) j = [0%Z].
Proof.
  induction j as [|j IH]; [done|]. simpl. rewrite IH. simpl.
  rewrite union_empty_l_L, elements_singleton. reflexivity.
Qed.

Lemma baseline_union_subseteq (self : t) (X : gset Z) (ks : list nat) (acc : gset Z) :
  acc ⊆ X -> Forall (fun k => list_to_set (_get_j_set self k) ⊆ X) ks ->
  foldl (fun result k => result ∪ list_to_set (_get_j_set self k)) acc ks ⊆ X.
Proof.
  intros Hacc Hks. revert acc Hacc.
  induction Hks as [|k ks Hk _ IH]; intros acc Hacc; simpl; [done|].
  apply IH. by apply union_least.
Qed.

(** C6, on [get_baseline_set].  When the sums of the stored lengths never
    reach [n] elements the function only calls itself again on [j + 1]: no
    number of calls makes it return, and there is no path on which it raises.
    With no length at all this is so from [n = 1] on, with the single length
    [0] from [n = 2] on. *)
Theorem get_baseline_set_unreachable (fuel j : nat) :
  get_baseline_set fuel (mk []) 1 j = Diverge
  /\ get_baseline_set fuel (mk [0%Z]) 2 j = Diverge.
Proof.
  split.
  - revert j. induction fuel as [|fuel IH]; intros j; simpl; [done|].
    rewrite bool_decide_eq_true_2; [apply IH|].
    assert (foldl (fun result k => result ∪ list_to_set (_get_j_set (mk []) k)) ∅ (seq 1 j)
            ⊆ (∅ : gset Z)) as Hsub.
    { apply baseline_union_subseteq; [done|].
      apply Forall_forall. intros k Hk%elem_of_seq.
      destruct k as [|k]; [lia|]. by rewrite _get_j_set_no_lengths. }
    apply subseteq_size in Hsub. rewrite size_empty in Hsub. lia.
  - revert j. induction fuel as [|fuel IH]; intros j; simpl; [done|].
    rewrite bool_decide_eq_true_2; [apply IH|].
    assert (foldl (fun result k => result ∪ list_to_set (_get_j_set (mk [0%Z]) k)) ∅ (seq 1 j)
            ⊆ ({[ 0%Z ]} : gset Z)) as Hsub.
    { apply baseline_union_subseteq; [set_solver|].
      apply Forall_forall. intros k _. rewrite _get_j_set_only_zero. set_solver. }
    apply subseteq_size in Hsub. rewrite size_singleton in Hsub. lia.
Qed.

Lemma py_insert_perm {A} (lt : A -> A -> bool) (x : A) (l : list A) :
  py_insert lt x l ≡ₚ x :: l.
Proof.
  induction l as [|y l IH]; simpl; [done|].
  destruct (lt y x); [|done]. rewrite IH. apply perm_swap.
Qed.

Lemma py_sorted_perm {A} (lt : A -> A -> bool) (l : list A) : py_sorted lt l ≡ₚ l.
Proof.
  induction l as [|x l IH]; [done|].
  unfold py_sorted in *. simpl. by rewrite py_insert_perm, IH.
Qed.

Lemma zero_sums_inner (lengths : list Z) (acc : gset Z) :
  Forall (fun l => l = 0%Z) lengths -> acc ⊆ {[ 0%Z ]} ->
  foldl (fun res l_base => res ∪ {[ (l_base + 0)%Z ]}) acc lengths ⊆ {[ 0%Z ]}.
Proof.
  intros Hzero. revert acc.
  induction Hzero as [|l_base lengths -> _ IH]; intros acc Hacc; simpl; [done|].
  apply IH. apply union_least; [done|]. by change (0 + 0)%Z with 0%Z.
Qed.

Lemma zero_sums_outer (lengths sums : list Z) (acc : gset Z) :
  Forall (fun l => l = 0%Z) lengths -> Forall (fun l_r => l_r = 0%Z) sums ->
  acc ⊆ {[ 0%Z ]} ->
  foldl (fun res l_r =>
           foldl (fun res l_base => res ∪ {[ (l_base + l_r)%Z ]}) res lengths) acc sums
  ⊆ {[ 0%Z ]}.
Proof.
  intros Hzero Hsums. revert acc.
  induction Hsums as [|l_r sums -> _ IH]; intros acc Hacc; simpl; [done|].
  apply IH. by apply zero_sums_inner.
Qed.

Lemma _get_j_set_zero_lengths (lengths : list Z) (j : nat) :
  Forall (fun l => l = 0%Z) lengths ->
  list_to_set (_get_j_set (mk lengths) j) ⊆ ({[ 0%Z ]} : gset Z).
Proof.
  intros Hzero. induction j as [|j IH]; [set_solver|].
  intros x Hx. apply elem_of_list_to_set in Hx. cbn [_get_j_set _lengths] in Hx.
  rewrite py_sorted_perm in Hx. apply elem_of_elements in Hx.
  revert x Hx. apply zero_sums_outer; [done| |done].
  apply Forall_forall. intros l_r Hin.
  assert (l_r ∈ (list_to_set (_get_j_set (mk lengths) j) : gset Z)) as Hset
    by (by apply elem_of_list_to_set).
  apply IH in Hset. set_solver.
Qed.

(** With lengths that are all [0] the sums never leave [{0}]: a request for
    two elements or more never returns. *)
Lemma get_baseline_set_zero_lengths (fuel : nat) (lengths : list Z) (n j : nat) :
  Forall (fun l => l = 0%Z) lengths -> 2 <= n ->
  get_baseline_set fuel (mk lengths) n j = Diverge.
Proof.
  intros Hzero Hn. revert j. induction fuel as [|fuel IH]; intros j; simpl; [done|].
  rewrite bool_decide_eq_true_2; [apply IH|].
  assert (foldl (fun result k => result ∪ list_to_set (_get_j_set (mk lengths) k)) ∅ (seq 1 j)
          ⊆ ({[ 0%Z ]} : gset Z)) as Hsub.
  { apply baseline_union_subseteq; [set_solver|].
    apply Forall_forall. intros k _. by apply _get_j_set_zero_lengths. }
  apply subseteq_size in Hsub. rewrite size_singleton in Hsub. lia.
Qed.

(** With a positive length the lattice of sums grows and the request is
    served: the three smallest sums of [1] and [2]. *)
Example get_baseline_set_served :
  get_baseline_set 5 (mk [1; 2]%Z) 3 1 = Ret [1; 2; 3]%Z.
Proof. vm_compute. reflexivity. Qed.

End baseline_facts.

(** ** The greedy optimizer *)

Section greedy_facts.
Context `{Number R}.
Import SimpleProbabilisticScheme.
Context (get_scheme_for_sum : t R -> nat -> Res (t R)).

(** For [r = 1], [greedy] scores the sorted top-[w] outcomes. *)
Lemma greedy_depth_one (self : t R) (w : nat) :
  SimpleOptimizer.greedy get_scheme_for_sum self w 1
  = (top ← get_top self w;
     let variant := py_sorted Z.ltb top in
     s ← SimpleStatisticalCalculations.expectation_sorted self w
           (py_sorted Z.ltb variant);
     Ret (s, variant)).
Proof. reflexivity. Qed.

(** C7, for [r > 1].  The first round of the loop over [r_candidate] asks
    the scheme of [get_scheme_for_sum(1)] for [compact()], which no scheme
    has: [greedy(w, r)] never gets to rank an outcome.  It ends as
    [get_scheme_for_sum(1)] ends when that call fails, and with
    [AttributeError] otherwise. *)
Theorem greedy_future_depth_raises (self : t R) (w r : nat) :
  1 < r ->
  SimpleOptimizer.greedy get_scheme_for_sum self w r
  = (get_scheme_for_sum self 1 ≫= fun _ => Raise AttributeError).
Proof.
  intros Hr. unfold SimpleOptimizer.greedy.
  rewrite bool_decide_eq_false_2 by lia.
  destruct r as [|r]; [lia|]. simpl.
  destruct (get_scheme_for_sum self 1); reflexivity.
Qed.

End greedy_facts.

Lemma greedy_future_depth_raises_witness :
  SimpleOptimizer.greedy (fun s _ => Ret s) S4_scheme_Qc 2 2 = Raise AttributeError.
Proof.
  apply (greedy_future_depth_raises (fun s _ => Ret s) S4_scheme_Qc 2 2). lia.
Defined.

(** ** One codeword at a time: the single decoder against [HuffmanCode.decode] *)

Section codeword_facts.
Context `{Countable Sym}.
Import HuffmanCode.

Abbreviation SDR := (SingleDecodingResult.t Sym).

Lemma _decode_loop_shape (cur : Node Sym) (bits : list ascii) (c : nat) :
  let r := SingleDecoder._decode_loop cur bits c in
  SingleDecodingResult.was_decoded r = true ->
  is_Some (SingleDecodingResult.symbol r)
  /\ c < SingleDecodingResult.length r <= c + length bits.
Proof.
  revert cur c. induction bits as [|bit rest IH]; intros cur c; simpl; [done|].
  assert (forall child : Node Sym,
    let r := match child with
             | NoneNode => SingleDecodingResult.mk false None (S c)
             | mkNode (Some s) _ _ _ => SingleDecodingResult.mk true (Some s) (S c)
             | mkNode None _ _ _ => SingleDecoder._decode_loop child rest (S c)
             end in
    SingleDecodingResult.was_decoded r = true ->
    is_Some (SingleDecodingResult.symbol r)
    /\ c < SingleDecodingResult.length r <= c + S (length rest)) as Hchild.
  { intros [|[s|] f l r]; simpl; [done| |].
    - intros _. split; [by eexists | lia].
    - intros Hr. destruct (IH _ _ Hr) as [? ?]. split; [done | lia]. }
  destruct (Ascii.eqb bit bit0); [apply Hchild|].
  destruct (Ascii.eqb bit bit1); [apply Hchild | done].
Qed.

Lemma decode_committed (d : @SingleDecoder.t Sym) (data : list ascii) (position : nat) :
  SingleDecodingResult.was_decoded (SingleDecoder._decode d data position) = true ->
  committed data position (SingleDecoder._decode d data position).
Proof.
  unfold committed, SingleDecoder._decode.
  destruct (bool_decide (data = []) || _ || _) eqn:Hguard; [done|].
  apply orb_false_elim in Hguard as [Hguard _].
  apply orb_false_elim in Hguard as [_ Hpos].
  apply bool_decide_eq_false in Hpos.
  destruct (SingleDecoder._single_symbol d) as [s|].
  - rewrite bool_decide_eq_true_2 by lia. simpl. intros _.
    repeat split; [by eexists | lia | lia].
  - intros Hr. destruct (_decode_loop_shape _ _ _ Hr) as [Hs Hlen].
    rewrite length_drop in Hlen. repeat split; [done.. | lia | lia].
Qed.

(** [decode] without its case distinction on the empty string. *)
Lemma decode_by_root (bits : list ascii) (T : Node Sym) :
  decode bits T =
  match T with
  | NoneNode => Ret []
  | mkNode (Some s) _ _ _ => Ret (replicate (length bits) s)
  | mkNode None _ _ _ => decode_loop T T bits []
  end.
Proof. destruct bits, T as [|[s|] f l r]; reflexivity. Qed.

Lemma decode_loop_acc (T cur : Node Sym) (bits : list ascii) (acc : list Sym) :
  decode_loop T cur bits acc = (app acc) <$> decode_loop T cur bits [].
Proof.
  revert cur acc. induction bits as [|bit rest IH]; intros cur acc; simpl.
  - unfold fmap, Res_fmap. simpl. by rewrite app_nil_r.
  - destruct cur as [|sc fc l r]; [done|].
    destruct (if Ascii.eqb bit bit0 then l else r) as [|[s|] f l' r'] eqn:Hnext; [done| |].
    + rewrite (IH T (acc ++ [s])), (IH T [s]).
      destruct (decode_loop T T rest []); unfold fmap, Res_fmap; simpl; [|done..].
      by rewrite <- app_assoc.
    + apply IH.
Qed.

(** One run of the single decoder's loop, against the loop of
    [HuffmanCode.decode] started on the same node of the same tree. *)
Lemma decode_loop_codeword (T cur : Node Sym) (bits : list ascii) (c : nat) :
  is_bit_string bits ->
  let r := SingleDecoder._decode_loop cur bits c in
  if SingleDecodingResult.was_decoded r
  then exists s n, r = SingleDecodingResult.mk true (Some s) (c + n)
         /\ 1 <= n <= length bits
         /\ forall acc, decode_loop T cur bits acc = decode_loop T T (drop n bits) (acc ++ [s])
  else forall acc, decode_loop T cur bits acc = Ret acc \/ raises (decode_loop T cur bits acc).
Proof.
  intros Hbits. revert cur c.
  induction Hbits as [|bit rest Hbit _ IH]; intros cur c; simpl.
  { intros acc. by left. }
  assert (forall child : Node Sym,
    let r := match child with
             | NoneNode => SingleDecodingResult.mk false None (S c)
             | mkNode (Some s) _ _ _ => SingleDecodingResult.mk true (Some s) (S c)
             | mkNode None _ _ _ => SingleDecoder._decode_loop child rest (S c)
             end in
    let continue acc :=
        match child with
        | NoneNode => Raise ValueError
        | mkNode (Some s) _ _ _ => decode_loop T T rest (acc ++ [s])
        | mkNode None _ _ _ => decode_loop T child rest acc
        end in
    if SingleDecodingResult.was_decoded r
    then exists s n, r = SingleDecodingResult.mk true (Some s) (c + n)
           /\ 1 <= n <= S (length rest)
           /\ forall acc, continue acc = decode_loop T T (drop n (bit :: rest)) (acc ++ [s])
    else forall acc, continue acc = Ret acc \/ raises (continue acc)) as Hchild.
  { intros [|[s|] f l r]; simpl.
    - intros acc. right. by eexists.
    - exists s, 1. split; [by rewrite Nat.add_1_r|]. split; [lia|]. intros acc. by destruct rest.
    - specialize (IH (mkNode None f l r) (S c)). simpl in IH.
      destruct (SingleDecodingResult.was_decoded _); [|done].
      destruct IH as (s & n & Hr & Hn & Hloop).
      exists s, (S n). split; [by rewrite Hr, Nat.add_succ_r|]. split; [lia|]. done. }
  unfold is_bit in Hbit.
  destruct cur as [|sc fc l r]; simpl.
  - destruct (Ascii.eqb bit bit0); simpl; [|destruct (Ascii.eqb bit bit1); simpl];
      intros acc; right; by eexists.
  - destruct (Ascii.eqb bit bit0); simpl in *; [apply Hchild|].
    rewrite Hbit. apply Hchild.
Qed.

(** An attempt of a decoder of the tree [T] at a position inside a bit
    string: when it succeeds, [HuffmanCode.decode] from that position emits
    the same symbol and goes on after the same number of bits; when it fails,
    [HuffmanCode.decode] from that position emits nothing or raises. *)
Lemma attempt_codeword (T : Node Sym) (data : list ascii) (position : nat) :
  is_bit_string data -> position < length data ->
  let r := SingleDecoder._decode (SingleDecoder.init T) data position in
  if SingleDecodingResult.was_decoded r
  then exists s, SingleDecodingResult.symbol r = Some s
         /\ decode (drop position data) T
            = (cons s) <$> decode (drop (position + SingleDecodingResult.length r) data) T
  else decode (drop position data) T = Ret [] \/ raises (decode (drop position data) T).
Proof.
  intros Hbits Hpos. rewrite !decode_by_root.
  unfold SingleDecoder._decode, SingleDecoder.init. simpl.
  rewrite bool_decide_eq_false_2 by (intros ->; simpl in Hpos; lia).
  rewrite bool_decide_eq_false_2 by lia. simpl.
  destruct T as [|[s|] f l r]; simpl.
  - by left.
  - rewrite bool_decide_eq_true_2 by done. simpl. exists s. split; [done|].
    rewrite decode_by_root. simpl. unfold fmap, Res_fmap. simpl. f_equal.
    rewrite !length_drop. replace (length data - position)
      with (S (length data - (position + 1))) by lia. done.
  - pose proof (decode_loop_codeword (mkNode None f l r) (mkNode None f l r)
                  (drop position data) 0) as Hstep.
    simpl in Hstep. specialize (Hstep (Forall_drop _ _ _ Hbits)).
    destruct (SingleDecodingResult.was_decoded _); [|apply Hstep].
    destruct Hstep as (s & n & -> & Hn & Hloop). simpl. exists s. split; [done|].
    rewrite decode_by_root, Hloop, drop_drop. simpl. apply decode_loop_acc.
Qed.

End codeword_facts.

(** ** A speculation round *)

Section round_facts.
Context `{Countable Sym} `{Index Sym} `{Predictor P}.
Import HuffmanCode SpeculativeDecoder.

Abbreviation decoder := (@SpeculativeDecoder.t Sym P).
Abbreviation SDR := (SingleDecodingResult.t Sym).

(** The counters play no part in what [_decode] answers. *)
Lemma _decode_reset_statistics (d d' : @SingleDecoder.t Sym) data position :
  SingleDecoder.reset_statistics d = SingleDecoder.reset_statistics d' ->
  SingleDecoder._decode d data position = SingleDecoder._decode d' data position.
Proof.
  intros Heq. unfold SingleDecoder._decode.
  assert (SingleDecoder.decoding_tree d = SingleDecoder.decoding_tree d') as ->.
  { by apply (f_equal SingleDecoder.decoding_tree) in Heq. }
  assert (SingleDecoder._single_symbol d = SingleDecoder._single_symbol d') as ->.
  { by apply (f_equal SingleDecoder._single_symbol) in Heq. }
  done.
Qed.

Lemma without_statistics_fields (self self' : decoder) :
  without_statistics self' = without_statistics self ->
  SingleDecoder.reset_statistics <$> _decoders self'
  = SingleDecoder.reset_statistics <$> _decoders self
  /\ length (_decoders self') = length (_decoders self)
  /\ _speculation_width self' = _speculation_width self
  /\ _predictor self' = _predictor self
  /\ _previous self' = _previous self
  /\ _current_position self' = _current_position self
  /\ _chain_length_limit self' = _chain_length_limit self.
Proof.
  intros Heq. injection Heq as Hd Hw Hp Hprev Hpos Hlimit.
  repeat split; try done.
  apply (f_equal length) in Hd. by rewrite !length_fmap in Hd.
Qed.

(** An attempt changes the counters of one decoder and nothing else. *)
Lemma attempt_without_statistics (self : decoder) i d (result : SDR) :
  _decoders self !! i = Some d ->
  without_statistics
    {| _decoders := <[i := SingleDecoder._update_stats d result]> (_decoders self);
       _speculation_width := _speculation_width self;
       _predictor := _predictor self;
       _previous := _previous self;
       _current_position := _current_position self;
       _chain_length_limit := _chain_length_limit self |}
  = without_statistics self.
Proof.
  intros Hd. unfold without_statistics. simpl. f_equal.
  rewrite list_fmap_insert. apply list_insert_id.
  by rewrite list_lookup_fmap, Hd.
Qed.

Lemma attempts_without_statistics (self self' : decoder) data position i lengths
    results results' :
  attempts self data position i lengths results = Ret (results', self') ->
  without_statistics self' = without_statistics self.
Proof.
  revert self i results. induction lengths as [|len lengths IH]; intros self i results; simpl.
  - by intros [= _ <-].
  - case_bool_decide as Hin; [|by apply IH].
    destruct (_decoders self !! i) as [d|] eqn:Hd; [|done].
    intros Hrun%IH. by rewrite Hrun, attempt_without_statistics.
Qed.

Lemma results_ok_without_statistics (self self' : decoder) data position results :
  without_statistics self' = without_statistics self ->
  results_ok self data position results -> results_ok self' data position results.
Proof.
  intros (Hdecs & _)%without_statistics_fields Hok k r Hr.
  destruct (Hok k r Hr) as (Hk & Hdec & d & Hd & ->). split; [done|]. split; [done|].
  assert (SingleDecoder.reset_statistics d
          ∈ SingleDecoder.reset_statistics <$> _decoders self') as Hd'.
  { rewrite Hdecs. by apply list_elem_of_fmap_2. }
  apply list_elem_of_fmap in Hd' as (d' & Heq & Hd').
  exists d'. split; [done|]. by apply _decode_reset_statistics.
Qed.

Lemma attempts_ok (self self' : decoder) data position i lengths results results' :
  results_ok self data position results ->
  attempts self data position i lengths results = Ret (results', self') ->
  results_ok self data position results'.
Proof.
  revert self i results. induction lengths as [|len lengths IH]; intros self i results Hok;
    simpl.
  - by intros [= <- _].
  - case_bool_decide as Hin; [|by apply IH].
    destruct (_decoders self !! i) as [d|] eqn:Hd; [|done].
    intros Hrun.
    pose proof (attempt_without_statistics self i d
                  (SingleDecoder._decode d data (position + len)) Hd) as Hframe.
    eapply results_ok_without_statistics; [symmetry; exact Hframe|].
    eapply IH; [|exact Hrun].
    eapply results_ok_without_statistics; [exact Hframe|].
    destruct (SingleDecodingResult.was_decoded _) eqn:Hdec; [|done].
    intros k r. destruct (decide (len = k)) as [->|Hne].
    + rewrite lookup_insert_eq. intros [= <-]. split; [done|]. split; [done|].
      exists d. split; [by eapply list_elem_of_lookup_2 | done].
    + rewrite lookup_insert_ne by done. apply Hok.
Qed.

Lemma attempts_keeps_keys (self self' : decoder) data position i lengths results results' k :
  attempts self data position i lengths results = Ret (results', self') ->
  is_Some (results !! k) -> is_Some (results' !! k).
Proof.
  revert self i results. induction lengths as [|len lengths IH]; intros self i results; simpl.
  - by intros [= <- _].
  - case_bool_decide as Hin; [|by apply IH].
    destruct (_decoders self !! i) as [d|]; [|done].
    intros Hrun Hk. eapply IH; [done|].
    destruct (SingleDecodingResult.was_decoded _); [|done].
    destruct (decide (len = k)) as [->|Hne].
    + rewrite lookup_insert_eq. by eexists.
    + by rewrite lookup_insert_ne.
Qed.

Lemma attempts_not_Diverge (self : decoder) data position i lengths results :
  attempts self data position i lengths results <> Diverge.
Proof.
  revert self i results. induction lengths as [|len lengths IH]; intros self i results;
    simpl; [done|].
  case_bool_decide; [|apply IH]. destruct (_decoders self !! i); [apply IH | done].
Qed.

Lemma attempts_returns (self : decoder) data position i lengths results :
  i + length lengths <= length (_decoders self) ->
  returns (attempts self data position i lengths results).
Proof.
  revert self i results. induction lengths as [|len lengths IH]; intros self i results Hlen;
    simpl.
  - by eexists.
  - simpl in Hlen. case_bool_decide; [|apply IH; lia].
    destruct (lookup_lt_is_Some_2 (_decoders self) i) as [d ->]; [lia|].
    apply IH. simpl. rewrite length_insert. lia.
Qed.

Lemma chain_loop_chain fuel (results : gmap nat SDR) offset current_sequence chain :
  chain_loop fuel results offset current_sequence = Ret chain ->
  exists ext, chain = current_sequence ++ ext /\ chain_from results offset ext
              /\ (ext = [] -> results !! offset = None).
Proof.
  revert offset current_sequence.
  induction fuel as [|fuel IH]; intros offset current_sequence; simpl.
  - destruct (results !! offset) eqn:Hoff; [done|]. intros [= <-].
    exists []. rewrite app_nil_r. repeat split. constructor.
  - destruct (results !! offset) as [r|] eqn:Hoff.
    + intros (ext & -> & Hext & _)%IH. exists (r :: ext).
      rewrite <- app_assoc. split; [done|]. split; [by constructor | done].
    + intros [= <-]. exists []. rewrite app_nil_r. repeat split. constructor.
Qed.

(** The loop over the chain ends: offsets of successes stay below a bound
    and every success is at least one bit long. *)
Lemma chain_loop_not_Diverge fuel (results : gmap nat SDR) bound offset current_sequence :
  (forall k r, results !! k = Some r -> k < bound /\ 1 <= SingleDecodingResult.length r) ->
  bound - offset <= fuel ->
  chain_loop fuel results offset current_sequence <> Diverge.
Proof.
  intros Hres. revert offset current_sequence.
  induction fuel as [|fuel IH]; intros offset current_sequence Hfuel; simpl.
  - destruct (results !! offset) as [r|] eqn:Hoff; [|done].
    apply Hres in Hoff. lia.
  - destruct (results !! offset) as [r|] eqn:Hoff; [|done].
    apply Hres in Hoff. apply IH. lia.
Qed.

Lemma chain_loop_never_raises fuel (results : gmap nat SDR) offset current_sequence e :
  chain_loop fuel results offset current_sequence <> Raise e.
Proof.
  revert offset current_sequence.
  induction fuel as [|fuel IH]; intros offset current_sequence; simpl;
    destruct (results !! offset); try done.
Qed.

Lemma chain_loop_mono fuel fuel' (results : gmap nat SDR) offset current_sequence :
  fuel <= fuel' ->
  chain_loop fuel results offset current_sequence <> Diverge ->
  chain_loop fuel' results offset current_sequence
  = chain_loop fuel results offset current_sequence.
Proof.
  revert fuel' offset current_sequence.
  induction fuel as [|fuel IH]; intros fuel' offset current_sequence Hle; simpl.
  - destruct (results !! offset) eqn:Hoff; [done|]. intros _.
    destruct fuel'; simpl; by rewrite Hoff.
  - destruct fuel' as [|fuel']; [lia|]. simpl.
    destruct (results !! offset); [|done]. apply IH. lia.
Qed.

Lemma chain_from_take (results : gmap nat SDR) offset chain n :
  chain_from results offset chain -> chain_from results offset (take n chain).
Proof.
  intros Hchain. revert n. induction Hchain as [|offset r rest Hr _ IH]; intros n.
  - rewrite take_nil. constructor.
  - destruct n; simpl; [constructor | by constructor].
Qed.

Lemma chain_from_committed (self : decoder) data position results offset chain :
  results_ok self data position results ->
  chain_from results offset chain ->
  Forall (fun r => SingleDecodingResult.was_decoded r = true
                   /\ is_Some (SingleDecodingResult.symbol r)
                   /\ 1 <= SingleDecodingResult.length r) chain.
Proof.
  intros Hok. induction 1 as [|offset r rest Hr _ IH]; constructor; [|done].
  destruct (Hok _ _ Hr) as (_ & Hdec & d & _ & ->).
  destruct (decode_committed _ _ _ Hdec) as (? & ? & ? & _). done.
Qed.

(** What a returning call of [speculate] has done. *)
Lemma speculate_inv fuel (self self' : decoder) data position chain truly_guessed :
  speculate fuel self data position = Ret (chain, truly_guessed, self') ->
  (length data <= position /\ chain = [] /\ truly_guessed = 0 /\ self' = self)
  \/ (position < length data
      /\ exists results,
           attempts self data position 0
             (0 :: implicitly_predict (_predictor self) (_speculation_width self)) ∅
           = Ret (results, self')
           /\ results_ok self data position results
           /\ chain_from results 0 chain
           /\ (chain = [] -> results !! 0 = None)
           /\ (truly_guessed = 0 \/ truly_guessed = 1)).
Proof.
  unfold speculate. case_bool_decide as Hpos.
  { intros [= <- <- <-]. by left. }
  intros Hrun. right. split; [lia|].
  destruct (attempts self data position 0 _ ∅) as [[results self1]| |] eqn:Hatt; [|done..].
  assert (results_ok self data position results) as Hok.
  { eapply attempts_ok; [|done]. intros k r. by rewrite lookup_empty. }
  simpl in Hrun.
  destruct (results !! 0) as [first|] eqn:Hfirst.
  - destruct (chain_loop fuel results 0 []) as [sequence| |] eqn:Hloop; [|done..].
    apply chain_loop_chain in Hloop as (ext & -> & Hext & Hnil). simpl in Hrun.
    assert (truly_guessed = 0 \/ truly_guessed = 1) as Htg.
    { destruct (_chain_length_limit self1) as [[|k]|];
        injection Hrun as _ <- _; destruct (bool_decide _); auto. }
    assert (ext <> []) as Hne by (intros Heq; by rewrite Hnil in Hfirst).
    exists results.
    destruct (_chain_length_limit self1) as [[|k]|]; injection Hrun as <- _ <-;
      (split; [done|]; split; [done|];
       split; [done || by apply chain_from_take|]; split; [|done];
       by destruct ext).
  - simpl in Hrun. exists results.
    destruct (_chain_length_limit self1) as [[|k]|]; injection Hrun as <- <- <-;
      (split; [done|]; split; [done|]; split; [apply chain_stop | split; [done | by left]]).
Qed.

(** [speculate] changes the counters of the single decoders and nothing
    else. *)
Lemma speculate_without_statistics fuel (self self' : decoder) data position chain
    truly_guessed :
  speculate fuel self data position = Ret (chain, truly_guessed, self') ->
  without_statistics self' = without_statistics self.
Proof.
  intros [(_ & _ & _ & ->) | (_ & results & Hatt & _)]%speculate_inv; [done|].
  by eapply attempts_without_statistics.
Qed.

Lemma speculate_not_Diverge fuel (self : decoder) data position :
  length data - position <= fuel ->
  speculate fuel self data position <> Diverge.
Proof.
  intros Hfuel. unfold speculate. case_bool_decide as Hpos; [done|].
  destruct (attempts self data position 0 _ ∅) as [[results self1]| |] eqn:Hatt; simpl;
    [|done|].
  - assert (results_ok self data position results) as Hok.
    { eapply attempts_ok; [|done]. intros k r. by rewrite lookup_empty. }
    destruct (results !! 0) as [first|]; simpl.
    + pose proof (chain_loop_not_Diverge fuel results (length data - position) 0 []) as Hloop.
      destruct (chain_loop fuel results 0 []) as [sequence| |]; simpl.
      * by destruct (_chain_length_limit self1) as [[|k]|].
      * done.
      * exfalso. apply Hloop; [|lia|done].
        intros k r Hr. destruct (Hok _ _ Hr) as (Hk & Hdec & d & _ & ->).
        destruct (decode_committed _ _ _ Hdec) as (_ & _ & ? & _). lia.
    + by destruct (_chain_length_limit self1) as [[|k]|].
  - by apply attempts_not_Diverge in Hatt.
Qed.

Lemma speculate_mono fuel fuel' (self : decoder) data position :
  fuel <= fuel' ->
  speculate fuel self data position <> Diverge ->
  speculate fuel' self data position = speculate fuel self data position.
Proof.
  intros Hle. unfold speculate. case_bool_decide as Hpos; [done|].
  destruct (attempts self data position 0 _ ∅) as [[results self1]| |]; simpl; [|done..].
  destruct (results !! 0) as [first|]; simpl; [|done].
  intros Hnd. rewrite (chain_loop_mono fuel fuel'); [done..|].
  by destruct (chain_loop fuel results 0 []).
Qed.



End round_facts.

(** ** The decode loop: tallies and termination *)

Section decode_facts.
Context `{Countable Sym} `{Index Sym} `{Predictor P}.
Import HuffmanCode SpeculativeDecoder.

Abbreviation decoder := (@SpeculativeDecoder.t Sym P).
Abbreviation SDR := (SingleDecodingResult.t Sym).
Abbreviation locals := (SpeculativeDecoder.output Sym).
Abbreviation tally := (SpeculativeDecoder.output Z).

Lemma foldl_commit (results : list SDR) (decoded : list Sym) (predictor : P) :
  Forall (fun r => is_Some (SingleDecodingResult.symbol r)) results ->
  (foldl commit (decoded, predictor) results).1
  = decoded ++ omap SingleDecodingResult.symbol results
  /\ length (omap SingleDecodingResult.symbol results) = length results.
Proof.
  intros Hall. revert decoded predictor.
  induction Hall as [|r results [s Hs] _ IH]; intros decoded predictor; simpl.
  - by rewrite app_nil_r.
  - unfold commit at 2. rewrite Hs. simpl.
    destruct (IH (decoded ++ [s]) (feed predictor (SingleDecodingResult.length r)))
      as [-> Hlen].
    fold (omap SingleDecodingResult.symbol results).
    rewrite <- app_assoc, Hlen. done.
Qed.

Lemma sum_list_lengths_pos (chain : list SDR) :
  chain <> [] ->
  Forall (fun r => 1 <= SingleDecodingResult.length r) chain ->
  1 <= sum_list (SingleDecodingResult.length <$> chain).
Proof. intros Hne Hall. destruct Hall; [done|]. simpl. lia. Qed.

(** [bytes] answers one byte value per symbol, or raises. *)
Lemma bytes_values (symbols : list Sym) (packed : list Z) :
  bytes symbols = Ret packed <-> Forall2 byte_value symbols packed.
Proof.
  revert packed. induction symbols as [|s symbols IH]; intros packed; simpl.
  - split; [intros [= <-]; constructor | by intros ->%Forall2_nil_inv_l].
  - split.
    + destruct (__index__ s) as [value|] eqn:Hs; [|done].
      case_bool_decide as Hvalue; [|done].
      destruct (bytes symbols) as [rest| |]; [|done..]. simpl. intros [= <-].
      constructor; [done | by apply IH].
    + intros (value & rest & [Hs Hvalue] & Hrest%IH & ->)%Forall2_cons_inv_l.
      by rewrite Hs, bool_decide_eq_true_2, Hrest.
Qed.

Lemma bytes_not_Diverge (symbols : list Sym) : bytes symbols <> Diverge.
Proof.
  induction symbols as [|s symbols IH]; simpl; [done|].
  destruct (__index__ s); [|done]. case_bool_decide; [|done].
  by destruct (bytes symbols).
Qed.

(** [decode]: the loop from empty locals, and [bytes] on its symbols. *)
Lemma decode_inv fuel (self self' : decoder) data (out : tally) :
  decode fuel self data = Ret (out, self') <->
  exists loc : locals,
    decode_loop fuel self data
      {| decoded_symbols := []; successes := 0; tries := 0;
         commited_codewords := []; truly_predicted := [] |} = Ret (loc, self')
    /\ bytes (decoded_symbols loc) = Ret (decoded_symbols out)
    /\ successes out = successes loc
    /\ tries out = tries loc
    /\ commited_codewords out = commited_codewords loc
    /\ truly_predicted out = truly_predicted loc.
Proof.
  unfold decode. split.
  - destruct (decode_loop _ _ _ _) as [[loc self1]| |]; [|done..]. simpl.
    destruct (bytes (decoded_symbols loc)) as [packed| |] eqn:Hbytes; [|done..]. simpl.
    intros [= <- <-]. by exists loc.
  - intros (loc & -> & Hbytes & Hs & Ht & Hc & Hp). simpl. rewrite Hbytes. simpl.
    destruct out. simpl in *. by subst.
Qed.

Lemma decode_loop_tallies fuel (self self' : decoder) data (out out' : locals) :
  tallies_agree out ->
  decode_loop fuel self data out = Ret (out', self') ->
  tallies_agree out'.
Proof.
  revert self out. induction fuel as [|fuel IH]; intros self out Hout; simpl.
  { case_bool_decide; [done|]. by intros [= <- <-]. }
  case_bool_decide as Hpos; [|by intros [= <- <-]].
  destruct (speculate (S fuel) self data (_current_position self))
    as [[[chain tg] self1]| |] eqn:Hspec; [|done..].
  simpl. destruct chain as [|first rest].
  { intros [= <- <-]. done. }
  apply speculate_inv in Hspec as [(? & ? & _) | (_ & results & _ & Hok & Hchain & _ & Htg)];
    [done|].
  pose proof (chain_from_committed _ _ _ _ _ _ Hok Hchain) as Hcommitted.
  destruct (foldl commit (decoded_symbols out, _predictor self1) (first :: rest))
    as [decoded predictor] eqn:Hfold.
  destruct (foldl_commit (first :: rest) (decoded_symbols out) (_predictor self1))
    as [Hdecoded Hlen].
  { eapply Forall_impl; [done|]. by intros r (_ & ? & _). }
  rewrite Hfold in Hdecoded. cbn [fst] in Hdecoded.
  set (syms := omap SingleDecodingResult.symbol (first :: rest)) in *.
  apply IH. destruct Hout as (Hsum & Hsyms & Hrounds & Hcommits & Hguessed).
  unfold tallies_agree. cbn [successes commited_codewords decoded_symbols truly_predicted].
  rewrite sum_list_with_app, !length_app, Hdecoded, length_app, Hlen. simpl.
  repeat split; try lia.
  - apply Forall_app. split; [done|]. constructor; [lia | done].
  - apply Forall_app. split; [done|]. by constructor.
Qed.

(** C10.  When [decode] returns, [successes] is the sum of the commits per
    round and the number of symbols of the output; there are as many entries
    of truly-guessed as of commits, every commit entry is at least 1 and
    every truly-guessed entry is 0 or 1. *)
Theorem decode_tallies fuel (self self' : decoder) (data : list ascii) (out : tally) :
  decode fuel self data = Ret (out, self') ->
  successes out = sum_list (commited_codewords out)
  /\ successes out = length (decoded_symbols out)
  /\ length (commited_codewords out) = length (truly_predicted out)
  /\ Forall (fun c => 1 <= c) (commited_codewords out)
  /\ Forall (fun g => g = 0 \/ g = 1) (truly_predicted out).
Proof.
  intros (loc & Hloop & Hbytes%bytes_values & -> & _ & -> & ->)%decode_inv.
  apply Forall2_length in Hbytes. rewrite <- Hbytes.
  eapply decode_loop_tallies; [|exact Hloop].
  unfold tallies_agree. simpl. by repeat split.
Qed.

(** One round of the loop, by what [speculate] answers. *)
Lemma decode_loop_round fuel (self : decoder) data (out : locals) :
  _current_position self < length data ->
  match speculate (S fuel) self data (_current_position self) with
  | Ret ([], _, _) => returns (decode_loop (S fuel) self data out)
  | Ret (chain, _, _) =>
      Forall (fun r => 1 <= SingleDecodingResult.length r) chain
      /\ exists self' out',
           decode_loop (S fuel) self data out = decode_loop fuel self' data out'
           /\ _current_position self'
              = _current_position self + sum_list (SingleDecodingResult.length <$> chain)
           /\ _current_position self < _current_position self'
  | Raise e => decode_loop (S fuel) self data out = Raise e
  | Diverge => decode_loop (S fuel) self data out = Diverge
  end.
Proof.
  intros Hpos. simpl. rewrite (bool_decide_eq_true_2 _ Hpos).
  destruct (speculate (S fuel) self data (_current_position self))
    as [[[chain tg] self1]| |] eqn:Hspec; [|done..].
  simpl. destruct chain as [|first rest]; [by eexists|].
  pose proof (speculate_without_statistics _ _ _ _ _ _ _ Hspec)
    as (_ & _ & _ & _ & _ & Hposition & _)%without_statistics_fields.
  apply speculate_inv in Hspec as [(? & ? & _) | (_ & results & _ & Hok & Hchain & _)];
    [done|].
  pose proof (chain_from_committed _ _ _ _ _ _ Hok Hchain) as Hcommitted.
  assert (Forall (fun r : SDR => 1 <= SingleDecodingResult.length r) (first :: rest))
    as Hlens.
  { eapply Forall_impl; [done|]. by intros r (_ & _ & ?). }
  split; [done|].
  destruct (foldl commit _ _) as [decoded predictor].
  eexists _, _. split; [reflexivity|]. simpl. rewrite Hposition. split; [done|].
  pose proof (sum_list_lengths_pos (first :: rest)) as Hsum.
  simpl in Hsum. specialize (Hsum ltac:(done) Hlens). lia.
Qed.

Lemma decode_loop_not_Diverge fuel (self : decoder) data (out : locals) :
  length data - _current_position self < fuel ->
  decode_loop fuel self data out <> Diverge.
Proof.
  revert self out. induction fuel as [|fuel IH]; intros self out Hfuel; [lia|].
  destruct (decide (_current_position self < length data)) as [Hpos|Hpos].
  - pose proof (decode_loop_round fuel self data out Hpos) as Hround.
    pose proof (speculate_not_Diverge (S fuel) self data (_current_position self)) as Hnd.
    destruct (speculate (S fuel) self data (_current_position self))
      as [[[[|first rest] tg] self1]| |].
    + by destruct Hround as [? ->].
    + destruct Hround as (_ & self' & out' & -> & Heq & Hlt). apply IH. lia.
    + by rewrite Hround.
    + exfalso. apply Hnd; [lia | done].
  - simpl. by rewrite bool_decide_eq_false_2.
Qed.

(** The loop, one round unfolded. *)
Lemma decode_loop_unfold fuel (self : decoder) data (out : locals) :
  decode_loop (S fuel) self data out
  = if bool_decide (_current_position self < length data)
    then '(results, truly_predicted_local, self1) ←
           speculate (S fuel) self data (_current_position self);
         match results with
         | [] => Ret ({| decoded_symbols := decoded_symbols out;
                         successes := successes out;
                         tries := tries out + (_speculation_width self + 1);
                         commited_codewords := commited_codewords out;
                         truly_predicted := truly_predicted out |}, self1)
         | first :: _ =>
             let previous :=
               match SingleDecodingResult.symbol first with
               | Some s => Some s
               | None => _previous self1
               end in
             let '(decoded, predictor) :=
               foldl commit (decoded_symbols out, _predictor self1) results in
             decode_loop fuel
               {| _decoders := _decoders self1;
                  _speculation_width := _speculation_width self1;
                  _predictor := predictor;
                  _previous := previous;
                  _current_position :=
                    _current_position self1
                    + sum_list (SingleDecodingResult.length <$> results);
                  _chain_length_limit := _chain_length_limit self1 |}
               data
               {| decoded_symbols := decoded;
                  successes := successes out + length results;
                  tries := tries out + (_speculation_width self + 1);
                  commited_codewords := commited_codewords out ++ [length results];
                  truly_predicted := truly_predicted out ++ [truly_predicted_local] |}
         end
    else Ret (out, self).
Proof. reflexivity. Qed.

Lemma decode_loop_mono fuel fuel' (self : decoder) data (out : locals) :
  fuel <= fuel' ->
  decode_loop fuel self data out <> Diverge ->
  decode_loop fuel' self data out = decode_loop fuel self data out.
Proof.
  revert fuel' self out.
  induction fuel as [|fuel IH]; intros fuel' self out Hle.
  - simpl. case_bool_decide as Hpos; [done|]. intros _.
    destruct fuel'; simpl; by rewrite bool_decide_eq_false_2.
  - destruct fuel' as [|fuel']; [lia|].
    rewrite !decode_loop_unfold.
    case_bool_decide as Hpos; [|done].
    destruct (speculate (S fuel) self data (_current_position self))
      as [[[chain tg] self1]| |] eqn:Hspec; simpl; [| |done].
    + rewrite (speculate_mono (S fuel) (S fuel')), Hspec by (lia || by rewrite Hspec).
      simpl. destruct chain as [|first rest]; [done|].
      destruct (foldl commit _ _) as [decoded predictor]. apply IH. lia.
    + rewrite (speculate_mono (S fuel) (S fuel')), Hspec by (lia || by rewrite Hspec).
      done.
Qed.

Lemma decode_not_Diverge fuel (self : decoder) data :
  length data - _current_position self < fuel ->
  decode fuel self data <> Diverge.
Proof.
  intros Hfuel. unfold decode.
  pose proof (decode_loop_not_Diverge fuel self data
                {| decoded_symbols := []; successes := 0; tries := 0;
                   commited_codewords := []; truly_predicted := [] |} Hfuel) as Hloop.
  destruct (decode_loop _ _ _ _) as [[loc self1]| |]; [|done..]. simpl.
  pose proof (bytes_not_Diverge (decoded_symbols loc)) as Hbytes.
  by destruct (bytes (decoded_symbols loc)).
Qed.

(** C8.  [decode] terminates: with fuel beyond the length of the data the
    model never runs out of it, and more fuel does not change the answer.  In
    a round that starts inside the data, an empty chain ends the loop; a
    chain that is not empty has only elements of length at least 1 and moves
    the position strictly forward. *)
Theorem decode_terminates (self : decoder) (data : list ascii) :
  decode (S (length data)) self data <> Diverge
  /\ (forall fuel, length data < fuel ->
        decode fuel self data = decode (S (length data)) self data)
  /\ (forall fuel out, _current_position self < length data ->
        match speculate (S fuel) self data (_current_position self) with
        | Ret ([], _, _) => returns (decode_loop (S fuel) self data out)
        | Ret (chain, _, _) =>
            Forall (fun r => 1 <= SingleDecodingResult.length r) chain
            /\ exists self' out',
                 decode_loop (S fuel) self data out = decode_loop fuel self' data out'
                 /\ _current_position self'
                    = _current_position self
                      + sum_list (SingleDecodingResult.length <$> chain)
                 /\ _current_position self < _current_position self'
        | Raise e => decode_loop (S fuel) self data out = Raise e
        | Diverge => decode_loop (S fuel) self data out = Diverge
        end).
Proof.
  split; [apply decode_not_Diverge; lia|]. split.
  - intros fuel Hfuel. unfold decode.
    rewrite (decode_loop_mono (S (length data)) fuel); [done | lia|].
    apply decode_loop_not_Diverge. lia.
  - intros fuel out Hpos. by apply decode_loop_round.
Qed.

End decode_facts.

(** ** The speculative decoder against [HuffmanCode.decode] *)

Section refinement_facts.
Context `{Countable Sym} `{Index Sym} `{Predictor P}.
Import HuffmanCode SpeculativeDecoder.

Abbreviation decoder := (@SpeculativeDecoder.t Sym P).
Abbreviation SDR := (SingleDecodingResult.t Sym).
Abbreviation locals := (SpeculativeDecoder.output Sym).
Abbreviation tally := (SpeculativeDecoder.output Z).

Lemma decoders_of_length (T : Node Sym) (self : decoder) :
  decoders_of T self -> length (_decoders self) = _speculation_width self + 1.
Proof.
  intros Hdecs. apply (f_equal length) in Hdecs.
  by rewrite length_fmap, length_replicate in Hdecs.
Qed.

(** Every decoder of [T] answers as a fresh one does. *)
Lemma decoders_of_decode (T : Node Sym) (self : decoder) d data position :
  decoders_of T self -> d ∈ _decoders self ->
  SingleDecoder._decode d data position
  = SingleDecoder._decode (SingleDecoder.init T) data position.
Proof.
  intros Hdecs Hd. apply _decode_reset_statistics.
  apply (list_elem_of_fmap_2 SingleDecoder.reset_statistics) in Hd.
  rewrite Hdecs in Hd. by apply elem_of_replicate in Hd as [-> _].
Qed.

Lemma decoders_of_without_statistics (T : Node Sym) (self self' : decoder) :
  without_statistics self' = without_statistics self ->
  decoders_of T self -> decoders_of T self'.
Proof.
  intros (Hdecs & _ & Hw & _)%without_statistics_fields Hof.
  unfold decoders_of. by rewrite Hdecs, Hw.
Qed.

(** A chain of attempts of decoders of [T] is a run of [HuffmanCode.decode]. *)
Lemma chain_from_codewords (T : Node Sym) (self : decoder) data position results
    offset chain :
  is_bit_string data -> decoders_of T self ->
  results_ok self data position results ->
  chain_from results offset chain ->
  HuffmanCode.decode (drop (position + offset) data) T
  = (app (omap SingleDecodingResult.symbol chain))
      <$> HuffmanCode.decode (drop (position + offset
                        + sum_list (SingleDecodingResult.length <$> chain)) data) T.
Proof.
  intros Hbits Hdecs Hok. induction 1 as [offset|offset r rest Hr _ IH]; simpl.
  - rewrite Nat.add_0_r. by destruct (HuffmanCode.decode _ T).
  - destruct (Hok _ _ Hr) as (Hin & Hdec & d & Hd & Heq).
    rewrite (decoders_of_decode T self d) in Heq by done.
    pose proof (attempt_codeword T data (position + offset) Hbits Hin) as Hstep.
    simpl in Hstep. rewrite <- Heq, Hdec in Hstep. destruct Hstep as (s & Hs & Hstep).
    rewrite Hs, Hstep. simpl.
    rewrite Nat.add_assoc in IH. rewrite IH.
    rewrite (Nat.add_assoc (position + offset)).
    change (list_fmap SDR nat SingleDecodingResult.length rest)
      with (SingleDecodingResult.length <$> rest).
    match goal with |- context [HuffmanCode.decode ?bits T] =>
      destruct (HuffmanCode.decode bits T) end; reflexivity.
Qed.

(** The attempt at offset 0 decides whether the chain is empty. *)
Lemma attempts_first_failed (T : Node Sym) (self self' : decoder) data position lengths
    results :
  decoders_of T self ->
  position < length data ->
  attempts self data position 0 (0 :: lengths) ∅ = Ret (results, self') ->
  results !! 0 = None ->
  SingleDecodingResult.was_decoded
    (SingleDecoder._decode (SingleDecoder.init T) data position) = false.
Proof.
  intros Hdecs Hpos. simpl. rewrite Nat.add_0_r, (bool_decide_eq_true_2 _ Hpos).
  destruct (lookup_lt_is_Some_2 (_decoders self) 0) as [d Hd].
  { rewrite (decoders_of_length T) by done. lia. }
  rewrite Hd, (decoders_of_decode T self d) by (done || by eapply list_elem_of_lookup_2).
  destruct (SingleDecodingResult.was_decoded _) eqn:Hdec; [|done].
  intros Hrun Hnone.
  destruct (attempts_keeps_keys _ _ _ _ _ _ _ _ 0 Hrun) as [r Hr].
  - rewrite lookup_insert_eq. by eexists.
  - congruence.
Qed.

(** The only exception of a round is the [IndexError] of [self._decoders[i]],
    and a predictor that honours the width never causes it. *)
Lemma attempts_raises (self : decoder) data position i lengths results e :
  attempts self data position i lengths results = Raise e -> e = IndexError.
Proof.
  revert self i results. induction lengths as [|len lengths IH]; intros self i results;
    simpl; [done|].
  case_bool_decide; [|apply IH]. destruct (_decoders self !! i); [apply IH|].
  by intros [= <-].
Qed.

Lemma speculate_raises fuel (self : decoder) data position e :
  speculate fuel self data position = Raise e ->
  e = IndexError
  /\ exists lengths results,
       attempts self data position 0 lengths results = Raise IndexError
       /\ lengths = 0 :: implicitly_predict (_predictor self) (_speculation_width self).
Proof.
  unfold speculate. case_bool_decide; [done|].
  destruct (attempts self data position 0 _ ∅) as [[results self1]|e'|] eqn:Hatt;
    cbn [mbind Res_mbind Res_bind]; [| |done].
  - destruct (results !! 0); cbn [mbind Res_mbind Res_bind].
    + pose proof (chain_loop_never_raises fuel results 0 []) as Hloop.
      destruct (chain_loop fuel results 0 []) as [sequence|e'|];
        cbn [mbind Res_mbind Res_bind]; [|by destruct (Hloop e')|done].
      by destruct (_chain_length_limit self1) as [[|k]|].
    + by destruct (_chain_length_limit self1) as [[|k]|].
  - intros [= <-]. pose proof (attempts_raises _ _ _ _ _ _ _ Hatt) as ->.
    split; [done|]. by eexists _, _.
Qed.

Lemma speculate_honoured (T : Node Sym) fuel (self : decoder) data position e :
  honours_width -> decoders_of T self ->
  speculate fuel self data position <> Raise e.
Proof.
  intros Hwidth Hdecs Hspec.
  apply speculate_raises in Hspec as (_ & lengths & results & Hatt & ->).
  destruct (attempts_returns self data position 0
              (0 :: implicitly_predict (_predictor self) (_speculation_width self)) results)
    as [results' Hret]; [|congruence].
  rewrite (decoders_of_length T) by done. simpl.
  specialize (Hwidth (_predictor self) (_speculation_width self)). lia.
Qed.

(** The loop of [decode] from any position, for any predictor: with fuel
    beyond the rest of the data it commits what [HuffmanCode.decode] emits
    from that position on, unless a round raised [IndexError]. *)
Lemma decode_loop_refines (T : Node Sym) fuel (self : decoder) data (out : locals) rest :
  is_bit_string data -> decoders_of T self ->
  HuffmanCode.decode (drop (_current_position self) data) T = Ret rest ->
  length data - _current_position self < fuel ->
  match decode_loop fuel self data out with
  | Ret (out', _) => decoded_symbols out' = decoded_symbols out ++ rest
  | Raise e => e = IndexError /\ ~ honours_width
  | Diverge => False
  end.
Proof.
  intros Hbits. revert self out rest.
  induction fuel as [|fuel IH]; intros self out rest Hdecs Hrest Hfuel; [lia|].
  destruct (decide (_current_position self < length data)) as [Hpos|Hpos]; cycle 1.
  { simpl. rewrite bool_decide_eq_false_2 by done.
    rewrite drop_ge in Hrest by lia. injection Hrest as <-. by rewrite app_nil_r. }
  simpl. rewrite (bool_decide_eq_true_2 _ Hpos).
  pose proof (speculate_not_Diverge (S fuel) self data (_current_position self)
                ltac:(lia)) as Hnd.
  destruct (speculate (S fuel) self data (_current_position self))
    as [[[chain tg] self1]|e|] eqn:Hspec; [| |done].
  - pose proof (speculate_without_statistics _ _ _ _ _ _ _ Hspec) as Hframe.
    pose proof (decoders_of_without_statistics T _ _ Hframe Hdecs) as Hdecs1.
    apply without_statistics_fields in Hframe
      as (_ & _ & Hw1 & Hpred1 & _ & Hpos1 & _).
    pose proof Hspec as Hinv.
    apply speculate_inv in Hinv
      as [(? & _) | (_ & results & Hatt & Hok & Hchain & Hnil & _)]; [lia|].
    simpl. destruct chain as [|first chain'].
    + pose proof (attempts_first_failed T _ _ _ _ _ _ Hdecs Hpos Hatt (Hnil eq_refl))
        as Hfail.
      pose proof (attempt_codeword T data _ Hbits Hpos) as Hstep. simpl in Hstep.
      rewrite Hfail, Hrest in Hstep. simpl.
      destruct Hstep as [[= ->] | [e [=]]]. by rewrite app_nil_r.
    + pose proof (chain_from_codewords T self data _ _ _ _ Hbits Hdecs Hok Hchain) as Hrun.
      rewrite Nat.add_0_r, Hrest in Hrun.
      destruct (HuffmanCode.decode (drop (_current_position self
                  + sum_list (SingleDecodingResult.length <$> first :: chain')) data) T)
        as [rest'| |] eqn:Hrest'; [|done..].
      injection Hrun as ->.
      pose proof (chain_from_committed _ _ _ _ _ _ Hok Hchain) as Hcommitted.
      destruct (foldl commit (decoded_symbols out, _predictor self1) (first :: chain'))
        as [decoded predictor] eqn:Hfold.
      destruct (foldl_commit (first :: chain') (decoded_symbols out) (_predictor self1))
        as [Hdecoded _].
      { eapply Forall_impl; [done|]. by intros r (_ & ? & _). }
      rewrite Hfold in Hdecoded. cbn [fst] in Hdecoded.
      pose proof (sum_list_lengths_pos (first :: chain') ltac:(done)) as Hsum.
      assert (Forall (fun r : SDR => 1 <= SingleDecodingResult.length r) (first :: chain'))
        as Hlens by (eapply Forall_impl; [done|]; by intros r (_ & _ & ?)).
      specialize (Hsum Hlens).
      match goal with |- context [decode_loop fuel ?s data ?o] =>
        pose proof (IH s o rest') as Hloop; destruct (decode_loop fuel s data o)
          as [[out' self']|e|] end.
      * rewrite Hloop; [|done|simpl; rewrite Hpos1; exact Hrest'|simpl in *; lia].
        simpl. rewrite Hdecoded. by rewrite <- app_assoc.
      * apply Hloop; [done|simpl; rewrite Hpos1; exact Hrest'|simpl in *; lia].
      * apply Hloop; [done|simpl; rewrite Hpos1; exact Hrest'|simpl in *; lia].
  - simpl. split.
    + by apply speculate_raises in Hspec as [-> _].
    + intros Hwidth. by eapply speculate_honoured.
Qed.

Lemma init_decoders_of (T : Node Sym) (predictor : P) (w : nat) (limit : option nat) :
  decoders_of T (init T w predictor limit).
Proof. unfold decoders_of, init. simpl. by rewrite fmap_replicate. Qed.

(** [bytes] raises a [TypeError] or a [ValueError]. *)
Lemma bytes_raises (symbols : list Sym) (e : exn) :
  bytes symbols = Raise e -> e = TypeError \/ e = ValueError.
Proof.
  induction symbols as [|s symbols IH]; simpl; [done|].
  destruct (__index__ s); [|intros [= <-]; by left].
  case_bool_decide; [|intros [= <-]; by right].
  destruct (bytes symbols); [done| |done]. simpl. intros [= <-]. by apply IH.
Qed.

(** For any predictor at all, a decoder of [T] answers [bytes(...)] of the
    symbols that [HuffmanCode.decode] emits from its position on, or raises
    the [IndexError] of an offset beyond its decoders. *)
Lemma decode_sound (T : Node Sym) fuel (self : decoder) data (rest : list Sym) :
  is_bit_string data -> decoders_of T self ->
  HuffmanCode.decode (drop (_current_position self) data) T = Ret rest ->
  length data - _current_position self < fuel ->
  SpeculativeDecoder.decode fuel self data = Raise IndexError /\ ~ honours_width
  \/ (fun answer => decoded_symbols answer.1) <$> SpeculativeDecoder.decode fuel self data
     = bytes rest.
Proof.
  intros Hbits Hdecs Hdec Hfuel.
  pose proof (decode_loop_refines T fuel self data
                {| decoded_symbols := []; successes := 0; tries := 0;
                   commited_codewords := []; truly_predicted := [] |} rest
                Hbits Hdecs Hdec Hfuel) as Hrun.
  unfold SpeculativeDecoder.decode.
  destruct (decode_loop _ _ _ _) as [[out self']|e|]; [|left|done].
  - right. simpl in Hrun. subst rest. cbn [mbind Res_mbind Res_bind].
    unfold fmap, Res_fmap. by destruct (bytes (decoded_symbols out)).
  - by destruct Hrun as [-> ?].
Qed.

(** With a predictor that honours the width, the first component of what a
    decoder of [T] answers is [bytes(...)] of the symbols that
    [HuffmanCode.decode] emits from its position on, exception included. *)
Lemma decode_answers_bytes (T : Node Sym) fuel (self : decoder) data (rest : list Sym) :
  honours_width ->
  is_bit_string data -> decoders_of T self ->
  HuffmanCode.decode (drop (_current_position self) data) T = Ret rest ->
  length data - _current_position self < fuel ->
  (fun answer => decoded_symbols answer.1) <$> SpeculativeDecoder.decode fuel self data
  = bytes rest.
Proof.
  intros Hwidth Hbits Hdecs Hdec Hfuel.
  by destruct (decode_sound T fuel self data rest Hbits Hdecs Hdec Hfuel) as [[_ ?]|?].
Qed.

Lemma speculative_decode_bytes (T : Node Sym) (predictor : P) (w : nat)
    (limit : option nat) (b : list ascii) (symbols : list Sym) (fuel : nat) :
  honours_width ->
  is_bit_string b ->
  HuffmanCode.decode b T = Ret symbols ->
  length b < fuel ->
  (fun answer => decoded_symbols answer.1)
    <$> SpeculativeDecoder.decode fuel (init T w predictor limit) b
  = bytes symbols.
Proof.
  intros Hwidth Hbits Hdec Hfuel.
  apply (decode_answers_bytes T); try done; [apply init_decoders_of | simpl; lia].
Qed.

(** An answer that is [bytes(symbols)]: the byte values when every symbol
    has one, the exception of [bytes] when some symbol has none. *)
Lemma answers_bytes (answer : Res (tally * decoder)) (symbols : list Sym) :
  (fun answer => decoded_symbols answer.1) <$> answer = bytes symbols ->
  (forall packed, Forall2 byte_value symbols packed ->
     exists out self', answer = Ret (out, self') /\ decoded_symbols out = packed)
  /\ ((forall packed, ~ Forall2 byte_value symbols packed) -> raises answer).
Proof.
  intros Hanswer. pose proof (bytes_values symbols) as Hvalues.
  pose proof (bytes_not_Diverge symbols) as Hnd.
  destruct answer as [[out self']|e|]; unfold fmap, Res_fmap in Hanswer; simpl in Hanswer;
    [| |congruence].
  - split.
    + intros packed Hpacked%Hvalues. exists out, self'. split; [done|]. congruence.
    + intros Hnone. by destruct (Hnone (decoded_symbols out)); apply Hvalues.
  - split.
    + intros packed Hpacked%Hvalues. congruence.
    + intros _. by exists e.
Qed.

(** C1, as the code has it.  For every tree [T], every predictor that
    answers at most the lengths it is asked for (in whatever state, whatever
    the lengths are), every width and every chain limit: on a bit string
    that [HuffmanCode.decode] decodes with [T] to [symbols], a fresh
    speculative decoder answers [bytes(symbols)].  When every symbol is a
    byte value, it returns the sequence of these values; when one is not,
    it raises as [bytes] does. *)
Theorem speculative_decode_refines (T : Node Sym) (predictor : P) (w : nat)
    (limit : option nat) (b : list ascii) (symbols : list Sym) (fuel : nat) :
  honours_width ->
  is_bit_string b ->
  HuffmanCode.decode b T = Ret symbols ->
  length b < fuel ->
  (fun answer => decoded_symbols answer.1)
    <$> SpeculativeDecoder.decode fuel (init T w predictor limit) b
  = bytes symbols
  /\ (forall packed, Forall2 byte_value symbols packed ->
      exists out self',
        SpeculativeDecoder.decode fuel (init T w predictor limit) b = Ret (out, self')
        /\ decoded_symbols out = packed)
  /\ ((forall packed, ~ Forall2 byte_value symbols packed) ->
      raises (SpeculativeDecoder.decode fuel (init T w predictor limit) b)).
Proof.
  intros Hwidth Hbits Hdec Hfuel.
  pose proof (speculative_decode_bytes T predictor w limit b symbols fuel
                Hwidth Hbits Hdec Hfuel) as Hbytes.
  split; [done|]. by apply answers_bytes.
Qed.

End refinement_facts.

(** ** Scenario S1: the codes [a:0, b:10, c:11], width 2, static [L = (1,2)] *)

Lemma StaticPredictor_honours_width : @honours_width StaticPredictor.t _.
Proof. intros p n. simpl. rewrite length_take. lia. Qed.

Example S1_speculative_decode :
  SpeculativeDecoder.decode 10 S1_decoder S1_bits = Ret (S1_output, S1_final).
Proof. vm_compute. reflexivity. Qed.

Lemma speculative_decode_refines_witness :
  exists out self',
    SpeculativeDecoder.decode 10 S1_decoder S1_bits = Ret (out, self')
    /\ SpeculativeDecoder.decoded_symbols out = [97; 98; 97; 99; 97; 98]%Z.
Proof.
  apply (proj1 (proj2 (speculative_decode_refines S1_tree (StaticPredictor.mk [1; 2]) 2 None
                         S1_bits [97; 98; 97; 99; 97; 98] 10
                         StaticPredictor_honours_width ltac:(repeat constructor)
                         eq_refl ltac:(simpl; lia)))).
  repeat (constructor; [split; [reflexivity | lia]|]). constructor.
Defined.

(** C1 as stated fails on a tree with a symbol that is not a byte value:
    [HuffmanCode.decode] answers the symbol [300], and the speculative
    decoder, width 1, raises the [ValueError] of [bytes]. *)
Lemma speculative_decode_not_bytes :
  @honours_width StaticPredictor.t _
  /\ is_bit_string wide_symbol_bits
  /\ HuffmanCode.decode wide_symbol_bits wide_symbol_tree = Ret [300]
  /\ SpeculativeDecoder.decode 2
       (SpeculativeDecoder.init wide_symbol_tree 1 (StaticPredictor.mk [1]) None) wide_symbol_bits
     = Raise ValueError
  /\ ~ exists out self',
        SpeculativeDecoder.decode 2
          (SpeculativeDecoder.init wide_symbol_tree 1 (StaticPredictor.mk [1]) None) wide_symbol_bits
        = Ret (out, self').
Proof.
  split; [exact StaticPredictor_honours_width|].
  split; [repeat constructor|]. split; [reflexivity|]. split; [reflexivity|].
  by intros (out & self' & [=]).
Qed.

Lemma decode_tallies_witness :
  let out := S1_output in
  SpeculativeDecoder.successes out = sum_list (SpeculativeDecoder.commited_codewords out)
  /\ SpeculativeDecoder.successes out = length (SpeculativeDecoder.decoded_symbols out)
  /\ length (SpeculativeDecoder.commited_codewords out)
     = length (SpeculativeDecoder.truly_predicted out)
  /\ Forall (fun c => 1 <= c) (SpeculativeDecoder.commited_codewords out)
  /\ Forall (fun g => g = 0 \/ g = 1) (SpeculativeDecoder.truly_predicted out).
Proof.
  intros out.
  apply (decode_tallies 10 S1_decoder S1_final S1_bits out).
  vm_compute. reflexivity.
Defined.

Lemma decode_terminates_witness :
  SpeculativeDecoder.decode 25 S1_decoder S1_bits
  = SpeculativeDecoder.decode (S (length S1_bits)) S1_decoder S1_bits.
Proof.
  apply (proj1 (proj2 (decode_terminates S1_decoder S1_bits)) 25). simpl. lia.
Defined.

(** ** [heapq] keeps the elements of the heap *)

Section heapq_facts.
Context {A : Type} (lt : A -> A -> bool).
Import heapq.

Lemma cons_insert_swap (l : list A) (j : nat) (x y : A) :
  j < length l -> y :: <[j := x]> l ≡ₚ x :: <[j := y]> l.
Proof.
  revert j. induction l as [|a l IH]; intros j Hj; simpl in Hj; [lia|].
  destruct j as [|j]; simpl.
  - apply perm_swap.
  - rewrite (perm_swap a y), (perm_swap a x). constructor. apply IH. lia.
Qed.

(** Writing [y] at [i] after the old content of [i] was copied to [j] is a
    transposition of writing [y] at [j]. *)
Lemma insert_insert_swap (l : list A) (i j : nat) (x y : A) :
  i <> j -> j < length l -> l !! i = Some x ->
  <[i := y]> (<[j := x]> l) ≡ₚ <[j := y]> l.
Proof.
  revert i j. induction l as [|a l IH]; intros i j Hne Hj Hi; [done|].
  destruct i as [|i], j as [|j]; simpl in *; try done.
  - injection Hi as ->. apply cons_insert_swap. lia.
  - symmetry. transitivity (y :: <[i := x]> l); [by rewrite list_insert_id|].
    apply cons_insert_swap. by eapply lookup_lt_Some.
  - constructor. apply IH; [congruence | lia | done].
Qed.

Lemma _siftdown_loop_perm (heap : list A) (startpos pos : nat) (newitem : A) :
  pos < length heap ->
  _siftdown_loop lt heap startpos pos newitem ≡ₚ <[pos := newitem]> heap.
Proof.
  funelim (_siftdown_loop lt heap startpos pos newitem); intros Hpos; try done.
  match goal with IH : _ -> _ ≡ₚ _ |- _ => rewrite IH end.
  - apply insert_insert_swap; [|done..].
    assert ((pos - 1) / 2 < pos) by (apply Nat.Div0.div_lt_upper_bound; lia). lia.
  - rewrite length_insert.
    assert ((pos - 1) / 2 < pos) by (apply Nat.Div0.div_lt_upper_bound; lia). lia.
Qed.

Lemma _siftdown_perm (heap : list A) (startpos pos : nat) :
  _siftdown lt heap startpos pos ≡ₚ heap.
Proof.
  unfold _siftdown. destruct (heap !! pos) as [newitem|] eqn:Hpos; [|done].
  rewrite _siftdown_loop_perm by (by eapply lookup_lt_Some).
  by rewrite list_insert_id.
Qed.

Lemma _siftup_loop_perm (heap : list A) (endpos pos : nat) (newitem : A) :
  pos < length heap ->
  let '(heap', hole) := _siftup_loop lt heap endpos pos in
  <[hole := newitem]> heap' ≡ₚ <[pos := newitem]> heap.
Proof.
  funelim (_siftup_loop lt heap endpos pos); intros Hpos; [|done].
  set (childpos :=
         match heap !! (2 * pos + 1) with
         | Some c =>
             match heap !! (2 * pos + 1 + 1) with
             | Some r =>
                 if bool_decide (2 * pos + 1 + 1 < endpos) && negb (lt c r)
                 then 2 * pos + 1 + 1 else 2 * pos + 1
             | None => 2 * pos + 1
             end
         | None => 2 * pos + 1
         end) in *.
  assert (pos < childpos) as Hlt by (subst childpos; repeat case_match; lia).
  destruct (heap !! childpos) as [c|] eqn:Hc; [|done].
  match goal with IH : forall c : A, _ |- _ => specialize (IH c newitem) end.
  rewrite length_insert in *.
  destruct (_siftup_loop lt (<[pos:=c]> heap) endpos childpos) as [heap' hole].
  match goal with IH : _ -> _ ≡ₚ _ |- _ => rewrite IH by (by eapply lookup_lt_Some) end.
  apply insert_insert_swap; [lia | done | done].
Qed.

Lemma _siftup_perm (heap : list A) (pos : nat) : _siftup lt heap pos ≡ₚ heap.
Proof.
  unfold _siftup. destruct (heap !! pos) as [newitem|] eqn:Hpos; [|done].
  pose proof (_siftup_loop_perm heap (length heap) pos newitem) as Hloop.
  destruct (_siftup_loop lt heap (length heap) pos) as [heap' hole].
  rewrite _siftdown_perm, Hloop by (by eapply lookup_lt_Some).
  by rewrite list_insert_id.
Qed.

Lemma heappush_perm (heap : list A) (item : A) : heappush lt heap item ≡ₚ item :: heap.
Proof. unfold heappush. rewrite _siftdown_perm. by rewrite Permutation_app_comm. Qed.

Lemma heappop_perm (heap : list A) :
  heap <> [] ->
  exists item heap', heappop lt heap = Ret (item, heap') /\ heap ≡ₚ item :: heap'.
Proof.
  intros Hne. unfold heappop.
  destruct (exists_last Hne) as (init & lastelt & ->).
  rewrite last_snoc, removelast_last.
  destruct init as [|returnitem rest].
  - by exists lastelt, [].
  - exists returnitem, (_siftup lt (lastelt :: rest) 0). split; [done|].
    rewrite _siftup_perm. simpl. constructor. by rewrite Permutation_app_comm.
Qed.

Lemma heapify_perm (x : list A) : heapify lt x ≡ₚ x.
Proof.
  unfold heapify. generalize (reverse (seq 0 (length x / 2))). intros positions.
  revert x. induction positions as [|pos positions IH]; intros x; simpl; [done|].
  by rewrite IH, _siftup_perm.
Qed.

End heapq_facts.

(** ** The Huffman tree, its codes, and the round trip *)

Section huffman_facts.
Context `{Countable Sym}.
Import HuffmanCode.

Lemma forest_leaves_cons (t : Node Sym) (heap : list (Node Sym)) :
  forest_leaves (t :: heap) = (paths t).*1 ++ forest_leaves heap.
Proof. reflexivity. Qed.

Lemma forest_leaves_perm (heap heap' : list (Node Sym)) :
  heap ≡ₚ heap' -> forest_leaves heap ≡ₚ forest_leaves heap'.
Proof.
  induction 1 as [|t h h' _ IH|t u h|h1 h2 h3 _ IH1 _ IH2]; simpl.
  - done.
  - by rewrite IH.
  - rewrite !app_assoc. f_equiv. apply Permutation_app_comm.
  - by rewrite IH1.
Qed.

Lemma paths_fst_internal f (l r : Node Sym) :
  (paths (mkNode None f l r)).*1 = (paths l).*1 ++ (paths r).*1.
Proof.
  simpl. rewrite fmap_app, <- !list_fmap_compose. f_equal; by apply list_fmap_ext.
Qed.

Lemma build_loop_spec fuel (heap : list (Node Sym)) :
  Forall proper heap -> heap <> [] -> length heap <= S fuel ->
  exists root, build_loop fuel heap = Ret root /\ proper root
               /\ (paths root).*1 ≡ₚ forest_leaves heap.
Proof.
  revert heap. induction fuel as [|fuel IH]; intros heap Hproper Hne Hlen.
  - destruct heap as [|root [|? ?]]; simpl in *; [done| |lia].
    exists root. split; [done|]. split; [by inversion Hproper|]. by rewrite app_nil_r.
  - destruct (decide (1 < length heap)) as [Hmany|Hone]; cycle 1.
    { destruct heap as [|root [|? ?]]; simpl in *; [done| |lia].
      exists root. split; [done|]. split; [by inversion Hproper|]. by rewrite app_nil_r. }
    simpl. rewrite (bool_decide_eq_true_2 _ Hmany).
    destruct (heappop_perm Node_lt heap Hne) as (left & heap1 & -> & Hperm1).
    assert (heap1 <> []) as Hne1.
    { intros ->. apply Permutation_length in Hperm1. simpl in Hperm1. lia. }
    destruct (heappop_perm Node_lt heap1 Hne1) as (right & heap2 & Hpop2 & Hperm2).
    simpl. rewrite Hpop2. simpl.
    set (merged := mkNode None (frequency left + frequency right)%Z left right).
    pose proof (heappush_perm Node_lt heap2 merged) as Hpush.
    rewrite Hperm1 in Hproper. apply Forall_cons in Hproper as [Hleft Hproper].
    rewrite Hperm2 in Hproper. apply Forall_cons in Hproper as [Hright Hproper].
    destruct (IH (heapq.heappush Node_lt heap2 merged)) as (root & -> & Hroot & Hleaves).
    + rewrite Hpush. constructor; [by constructor | done].
    + intros Heq. rewrite Heq in Hpush. by apply Permutation_nil_cons in Hpush.
    + apply Permutation_length in Hperm1, Hperm2, Hpush. simpl in *. lia.
    + exists root. split; [done|]. split; [done|].
      rewrite Hleaves, (forest_leaves_perm _ _ Hpush), (forest_leaves_perm _ _ Hperm1).
      rewrite !forest_leaves_cons, (forest_leaves_perm _ _ Hperm2), forest_leaves_cons.
      unfold merged. rewrite paths_fst_internal. by rewrite <- app_assoc.
Qed.

Lemma forest_leaves_of_table (table : list (Sym * Z)) :
  forest_leaves (map (fun '(sym, freq) => mkNode (Some sym) freq NoneNode NoneNode) table)
  = table.*1.
Proof.
  induction table as [|[s f] table IH]; [done|].
  cbn [map]. by rewrite fmap_cons, forest_leaves_cons, IH.
Qed.

(** With two entries or more the tree is proper and its leaves are the
    symbols of the table. *)
Lemma build_huffman_tree_spec (table : list (Sym * Z)) :
  2 <= length table ->
  exists root, build_huffman_tree table = Ret root /\ proper root
               /\ (paths root).*1 ≡ₚ table.*1.
Proof.
  intros Hlen. unfold build_huffman_tree.
  destruct table as [|[s1 f1] [|[s2 f2] table]]; simpl in Hlen; [lia..|].
  set (entries := (s1, f1) :: (s2, f2) :: table) in *.
  set (heap := map (fun '(sym, freq) => mkNode (Some sym) freq NoneNode NoneNode) entries).
  pose proof (heapify_perm Node_lt heap) as Hperm.
  destruct (build_loop_spec (length entries) (heapq.heapify Node_lt heap))
    as (root & Hroot & Hproper & Hleaves).
  - rewrite Hperm. apply List.Forall_map, Forall_forall. intros [s f] _. constructor.
  - intros Heq. rewrite Heq in Hperm. apply Permutation_length in Hperm.
    subst heap entries. simpl in Hperm. lia.
  - apply Permutation_length in Hperm. rewrite Hperm. unfold heap.
    rewrite length_map. lia.
  - exists root. split; [done|]. split; [done|].
    rewrite Hleaves, (forest_leaves_perm _ _ Hperm). unfold heap.
    by rewrite forest_leaves_of_table.
Qed.

Lemma proper_paths_nonempty (t : Node Sym) : proper t -> paths t <> [].
Proof. induction 1 as [s f|f l r _ IHl _ _]; simpl; [done|]. by destruct (paths l). Qed.

(** [generate_huffman_codes] stores the path of every leaf behind the
    prefix it was called with. *)
Lemma generate_huffman_codes_paths (t : Node Sym) (current_code : list ascii)
    (codes : gmap Sym (list ascii)) :
  proper t ->
  generate_huffman_codes t current_code codes
  = foldl (fun m '(s, path) => <[s := current_code ++ path]> m) codes (paths t).
Proof.
  intros Ht. revert current_code codes.
  induction Ht as [s f|f l r Hl IHl Hr IHr]; intros current_code codes; simpl.
  - by rewrite app_nil_r.
  - rewrite foldl_app, !foldl_fmap.
    assert (forall (c : ascii) (m : gmap Sym (list ascii)) (ps : list (Sym * list ascii)),
      foldl (fun m '(s, path) => <[s := (current_code ++ [c]) ++ path]> m) m ps
      = foldl (fun m sp => let '(s, path) := prod_map id (cons c) sp in
                           <[s := current_code ++ path]> m) m ps) as Hfold.
    { intros c m ps. revert m. induction ps as [|[s p] ps IH]; intros m; simpl; [done|].
      by rewrite <- app_assoc, IH. }
    rewrite <- !Hfold, <- IHl, <- IHr.
    destruct Hl, Hr; reflexivity.
Qed.

Lemma foldl_insert_paths (ps : list (Sym * list ascii)) (prefix : list ascii)
    (codes : gmap Sym (list ascii)) (s : Sym) :
  NoDup ps.*1 ->
  foldl (fun m '(s, path) => <[s := prefix ++ path]> m) codes ps !! s
  = match list_find (fun sp => sp.1 = s) ps with
    | Some (_, (_, path)) => Some (prefix ++ path)
    | None => codes !! s
    end.
Proof.
  revert codes. induction ps as [|[s' p] ps IH]; intros codes Hnd; simpl; [done|].
  apply NoDup_cons in Hnd as [Hfresh Hnd]. rewrite IH by done.
  case_decide as Heq; simpl in Heq.
  - subst s'. destruct (list_find _ ps) as [[i [s'' p']]|] eqn:Hfind; simpl.
    + apply list_find_Some in Hfind as (Hi & Hs & _). simpl in Hs. subst s''.
      exfalso. apply Hfresh. apply list_elem_of_fmap. exists (s, p'). split; [done|].
      by eapply list_elem_of_lookup_2.
    + by rewrite lookup_insert_eq.
  - destruct (list_find _ ps) as [[i [s'' p']]|]; simpl; [done|].
    by rewrite lookup_insert_ne.
Qed.

End huffman_facts.

Section round_trip.
Context `{Countable Sym}.
Import HuffmanCode.

(** Following the path of a leaf from an internal node of a proper tree,
    [HuffmanCode.decode] emits the symbol of the leaf and is back at the root. *)
Lemma decode_loop_path (T cur : Node Sym) (s : Sym) (path rest : list ascii)
    (acc : list Sym) :
  proper cur -> symbol cur = None -> (s, path) ∈ paths cur ->
  decode_loop T cur (path ++ rest) acc = decode_loop T T rest (acc ++ [s]).
Proof.
  intros Hcur. revert path acc.
  induction Hcur as [s' f|f l r Hl IHl Hr IHr]; intros path acc Hsym Hin; [done|].
  simpl in Hin. apply elem_of_app in Hin as [Hin|Hin];
    apply list_elem_of_fmap in Hin as ([s' p'] & [= -> ->] & Hin); simpl.
  - destruct Hl as [s0 f0|f0 l0 r0 Hl0 Hr0].
    + apply list_elem_of_singleton in Hin as [= -> ->]. done.
    + by apply IHl.
  - destruct Hr as [s0 f0|f0 l0 r0 Hl0 Hr0].
    + apply list_elem_of_singleton in Hin as [= -> ->]. done.
    + by apply IHr.
Qed.

Lemma codes_of_paths (t : Node Sym) (s : Sym) (code : list ascii) :
  proper t -> NoDup (paths t).*1 ->
  generate_huffman_codes t [] ∅ !! s = Some code -> (s, code) ∈ paths t.
Proof.
  intros Ht Hnd. rewrite generate_huffman_codes_paths, foldl_insert_paths by done.
  destruct (list_find _ (paths t)) as [[i [s' p]]|] eqn:Hfind; [|by rewrite lookup_empty].
  apply list_find_Some in Hfind as (Hi & Hs & _). simpl in Hs. subst s'.
  intros [= <-]. by eapply list_elem_of_lookup_2.
Qed.

Lemma codes_cover_leaves (t : Node Sym) (s : Sym) :
  proper t -> NoDup (paths t).*1 -> s ∈ (paths t).*1 ->
  is_Some (generate_huffman_codes t [] ∅ !! s).
Proof.
  intros Ht Hnd Hs. rewrite generate_huffman_codes_paths, foldl_insert_paths by done.
  apply list_elem_of_fmap in Hs as ([s' p] & -> & Hin). simpl.
  destruct (list_find (fun sp : Sym * list ascii => sp.1 = s') (paths t))
    as [[i [s'' p']]|] eqn:Hfind; [by eexists|].
  eapply list_find_None, Forall_forall in Hfind; [|done]. done.
Qed.

Lemma decode_loop_codes (T : Node Sym) (data : list Sym) (cs : list (list ascii))
    (rest : list ascii) (acc : list Sym) :
  proper T -> symbol T = None ->
  Forall2 (fun s c => (s, c) ∈ paths T) data cs ->
  decode_loop T T (concat cs ++ rest) acc = decode_loop T T rest (acc ++ data).
Proof.
  intros HT Hroot Hcs. revert acc.
  induction Hcs as [|s c data cs Hc _ IH]; intros acc; simpl.
  - by rewrite app_nil_r.
  - rewrite <- app_assoc, (decode_loop_path T T s c) by done.
    rewrite IH. by rewrite <- app_assoc.
Qed.

Lemma encode_loop_single (s : Sym) (code : list ascii) (n : nat) acc :
  encode_loop (replicate n s) {[ s := code ]} acc = Ret (acc ++ replicate n code).
Proof.
  revert acc. induction n as [|n IH]; intros acc; simpl.
  - by rewrite app_nil_r.
  - rewrite lookup_singleton_eq, IH. by rewrite <- app_assoc.
Qed.

(** C2.  For a frequency table with at least one entry (a [dict]: its keys
    are distinct) and data over its symbols, [build_huffman_tree] and
    [generate] return a tree and a code table, [encode] returns a bit string,
    and [decode] of that bit string with that tree is the data. *)
Theorem huffman_round_trip (histogram : list (Sym * Z)) (data : list Sym) :
  NoDup histogram.*1 ->
  histogram <> [] ->
  Forall (fun s => s ∈ histogram.*1) data ->
  exists tree codes bits,
    build_huffman_tree histogram = Ret tree
    /\ generate histogram = Ret codes
    /\ encode data codes = Ret bits
    /\ decode bits tree = Ret data.
Proof.
  intros Hnd Hne Hdata.
  destruct histogram as [|[s f] [|entry histogram]]; [done| |].
  - (* a single entry: the tree is a leaf and the code is "0" *)
    assert (exists n, data = replicate n s) as [n ->].
    { exists (length data). induction Hdata as [|s' data Hs' _ IH]; [done|].
      apply list_elem_of_singleton in Hs'. simpl in Hs'. subst s'.
      simpl. by rewrite <- IH. }
    assert (length (concat (replicate n [bit0])) = n) as Hlen.
    { clear. induction n as [|n IH]; simpl; [done|]. by rewrite IH. }
    exists (mkNode (Some s) f NoneNode NoneNode), {[ s := [bit0] ]},
      (concat (replicate n [bit0])).
    split; [reflexivity|]. split; [simpl; by rewrite insert_empty|]. split.
    + unfold encode. destruct n as [|n]; [done|].
      rewrite bool_decide_eq_false_2 by done.
      case_bool_decide as Heq.
      { apply (f_equal (lookup s)) in Heq.
        by rewrite lookup_singleton_eq, lookup_empty in Heq. }
      simpl "||". cbv iota. by rewrite encode_loop_single.
    + by rewrite decode_by_root, Hlen.
  - (* two entries or more *)
    set (table := (s, f) :: entry :: histogram) in *.
    destruct (build_huffman_tree_spec table) as (root & Hroot & Hproper & Hleaves);
      [simpl; lia|].
    assert (NoDup (paths root).*1) as Hnd' by (by rewrite Hleaves).
    assert (symbol root = None) as Hsym.
    { destruct Hproper; [|done]. apply Permutation_length in Hleaves. simpl in Hleaves. lia. }
    set (codes := generate_huffman_codes root [] ∅).
    exists root, codes.
    assert (generate table = Ret codes) as Hgen.
    { unfold generate, table. fold table. rewrite Hroot. reflexivity. }
    assert (Forall (fun s => is_Some (codes !! s)) data) as Hcovered.
    { eapply Forall_impl; [exact Hdata|]. intros s' Hs'. simpl in Hs'.
      apply codes_cover_leaves; [done..|]. by rewrite Hleaves. }
    destruct data as [|s' data].
    { exists []. repeat split; done. }
    assert (codes <> ∅) as Hcodes.
    { intros Heq. apply Forall_cons in Hcovered as [[c Hc] _].
      by rewrite Heq, lookup_empty in Hc. }
    destruct (proj1 (encode_nonempty_table (s' :: data) codes Hcodes) Hcovered)
      as (cs & Hcs & Henc).
    exists (concat cs). repeat split; try done.
    rewrite decode_by_root. destruct root as [|[?|] fr l r]; [done..|].
    pose proof (decode_loop_codes (mkNode None fr l r) (s' :: data) cs [] [] Hproper Hsym)
      as Hloop.
    rewrite app_nil_r in Hloop. rewrite Hloop; [done|].
    eapply Forall2_impl; [exact Hcs|]. intros ? ? ?. by apply codes_of_paths.
Qed.

End round_trip.

(** Scenario S1: the table [{a:5, b:2, c:1}] and the data ["abacab"]. *)
Lemma huffman_round_trip_witness :
  exists tree codes bits,
    HuffmanCode.build_huffman_tree [(97, 5%Z); (98, 2%Z); (99, 1%Z)] = Ret tree
    /\ HuffmanCode.generate [(97, 5%Z); (98, 2%Z); (99, 1%Z)] = Ret codes
    /\ HuffmanCode.encode [97; 98; 97; 99; 97; 98] codes = Ret bits
    /\ HuffmanCode.decode bits tree = Ret [97; 98; 97; 99; 97; 98].
Proof.
  apply (huffman_round_trip [(97, 5%Z); (98, 2%Z); (99, 1%Z)] [97; 98; 97; 99; 97; 98]).
  - apply (bool_decide_unpack _). vm_compute. exact I.
  - discriminate.
  - apply (bool_decide_unpack _). vm_compute. exact I.
Defined.

(** The codes of scenario S1, through the model of [heapq]: lengths
    [a:1, b:2, c:2]. *)
Example S1_codes :
  (codes ← HuffmanCode.generate [(97, 5%Z); (98, 2%Z); (99, 1%Z)];
   Ret (codes !! 97, codes !! 98, codes !! 99))
  = Ret (Some (list_ascii_of_string "1"), Some (list_ascii_of_string "01"),
         Some (list_ascii_of_string "00")).
Proof. vm_compute. reflexivity. Qed.

(** Why C1 is about predictors that honour the width: the decoder holds
    [w + 1] single decoders, and an offset beyond them that lies inside the data
    makes [self._decoders[i]] raise. *)
Example overlong_prediction_raises :
  @SpeculativeDecoder.decode nat _ (list nat) whole_table_predictor 10
    (SpeculativeDecoder.init S1_tree 1 [1; 2] None) S1_bits
  = Raise IndexError.
Proof. vm_compute. reflexivity. Qed.

(** Scenario S2: one symbol; every bit is a codeword and only the predicted
    offsets extend the chain. *)
Example S2_single_symbol :
  let leaf := HuffmanCode.mkNode (Some 120) 1 HuffmanCode.NoneNode HuffmanCode.NoneNode in
  (fst <$> SpeculativeDecoder.decode 10
     (SpeculativeDecoder.init leaf 3 (StaticPredictor.mk [1; 2; 3]) None)
     (list_ascii_of_string "0000"))
  = Ret (SpeculativeDecoder.mk_output [120; 120; 120; 120]%Z 4 4 [4] [1]).
Proof. vm_compute. reflexivity. Qed.

(** Scenario S3: the codes [{s:"0"}] give a root with only a left child; on
    ["1"] the non-speculative decoder raises and the speculative one commits
    nothing. *)
Example S3_malformed :
  let tree := HuffmanCode.mkNode None 0
                (HuffmanCode.mkNode (Some 115) 0 HuffmanCode.NoneNode HuffmanCode.NoneNode)
                HuffmanCode.NoneNode in
  HuffmanCode.decode ["1"%char] tree = Raise ValueError
  /\ (fst <$> SpeculativeDecoder.decode 10
        (SpeculativeDecoder.init tree 1 (StaticPredictor.mk [1]) None) ["1"%char])
     = Ret (SpeculativeDecoder.mk_output [] 0 2 [] []).
Proof. split; vm_compute; reflexivity. Qed.

(** A single entry: the tree is the leaf itself and the code is ["0"]. *)
Example single_entry_code :
  HuffmanCode.build_huffman_tree [(120, 1%Z)]
  = Ret (HuffmanCode.mkNode (Some 120) 1 HuffmanCode.NoneNode HuffmanCode.NoneNode)
  /\ HuffmanCode.generate [(120, 1%Z)] = Ret {[ 120 := list_ascii_of_string "0" ]}.
Proof. split; reflexivity. Qed.

(** ** The bit lengths of the data *)

Section bit_length_facts.
Context `{Countable Sym}.
Import HuffmanCode.

Abbreviation code_length code :=
  (fun s : Sym => default 0 (length <$> (code : gmap Sym (list ascii)) !! s)).

Lemma get_bit_lengths_fold (code : gmap Sym (list ascii)) (data : list Sym)
    (length_map : gmap Sym nat) (max_len : nat) :
  let '(length_map', max_len') :=
    foldl (fun '(length_map, max_len) char =>
             match code !! char with
             | Some c =>
                 let code_len := length c in
                 (<[char := code_len]> length_map, Nat.max max_len code_len)
             | None => (length_map, max_len)
             end)
          (length_map, max_len) data in
  (forall s, length_map' !! s
             = match code !! s with
               | Some c => if bool_decide (s ∈ data) then Some (length c) else length_map !! s
               | None => length_map !! s
               end)
  /\ max_len' = Nat.max max_len (max_list (code_length code <$> data)).
Proof.
  revert length_map max_len.
  induction data as [|char data IH]; intros length_map max_len; simpl.
  { split; [|lia]. intros s. by destruct (code !! s). }
  destruct (code !! char) as [c|] eqn:Hchar; simpl.
  - specialize (IH (<[char := length c]> length_map) (Nat.max max_len (length c))).
    destruct (foldl _ _ data) as [length_map' max_len'].
    destruct IH as [Hmap ->]. split; [|symmetry; apply Nat.max_assoc].
    intros s. rewrite Hmap. destruct (code !! s) as [cs|] eqn:Hs.
    + destruct (decide (s = char)) as [->|Hne].
      * rewrite lookup_insert_eq. rewrite (bool_decide_eq_true_2 (char ∈ char :: data))
          by constructor.
        assert (cs = c) as -> by congruence. by destruct (bool_decide _).
      * rewrite lookup_insert_ne by done.
        rewrite (bool_decide_ext (s ∈ char :: data) (s ∈ data)); [done|].
        rewrite elem_of_cons. split; [by intros [?|?] | by right].
    + destruct (decide (s = char)) as [->|Hne]; [congruence|].
      by rewrite lookup_insert_ne.
  - specialize (IH length_map max_len).
    destruct (foldl _ _ data) as [length_map' max_len'].
    destruct IH as [Hmap ->]. split; [|done].
    intros s. rewrite Hmap. destruct (code !! s) as [cs|] eqn:Hs; [|done].
    rewrite (bool_decide_ext (s ∈ char :: data) (s ∈ data)); [done|].
    rewrite elem_of_cons. split; [|by right]. intros [->|?]; [congruence | done].
Qed.

Lemma get_bit_lengths_answer (data : list Sym) (code : gmap Sym (list ascii)) :
  (data = [] \/ code = ∅ -> get_bit_lengths data code = ([], ∅, 0))
  /\ (data <> [] -> code <> ∅ ->
      exists length_map,
        get_bit_lengths data code
        = (code_length code <$> data, length_map, max_list (code_length code <$> data))
        /\ forall s, length_map !! s
                     = if bool_decide (s ∈ data) then length <$> code !! s else None).
Proof.
  unfold get_bit_lengths. split.
  - intros [-> | ->]; [done|]. by rewrite (bool_decide_eq_true_2 (∅ = ∅)), orb_true_r.
  - intros Hdata Hcode. rewrite !bool_decide_eq_false_2 by done. simpl.
    pose proof (get_bit_lengths_fold code data ∅ 0) as Hfold.
    destruct (foldl _ _ data) as [length_map max_len]. destruct Hfold as [Hmap ->].
    exists length_map.
    assert (forall s, length_map !! s
                      = if bool_decide (s ∈ data) then length <$> code !! s else None) as Hmap'.
    { intros s. rewrite Hmap, lookup_empty.
      destruct (code !! s); simpl; by destruct (bool_decide _). }
    split; [|done].
    assert ((fun char => default 0 (length_map !! char)) <$> data = code_length code <$> data)
      as ->; [|done].
    apply list_fmap_ext. intros i s Hs. rewrite Hmap'.
    rewrite bool_decide_eq_true_2 by (by eapply list_elem_of_lookup_2). done.
Qed.

(** The answer of [get_bit_lengths].  When the data or the code table is
    empty it is [([], {}, 0)]: the list of lengths is then not aligned with
    the data.  Otherwise the list has the code length of every symbol of the
    data in order, [0] where the symbol has no code; the map holds the code
    length of exactly the symbols of the data that have a code; and the
    maximum is the largest entry of the list. *)
Theorem get_bit_lengths_spec (data : list Sym) (code : gmap Sym (list ascii)) :
  (data = [] \/ code = ∅ -> get_bit_lengths data code = ([], ∅, 0))
  /\ (data <> [] -> code <> ∅ ->
      exists length_map,
        get_bit_lengths data code
        = (code_length code <$> data, length_map, max_list (code_length code <$> data))
        /\ forall s, length_map !! s
                     = if bool_decide (s ∈ data) then length <$> code !! s else None).
Proof. apply get_bit_lengths_answer. Qed.

(** [get_bit_lengths] against [encode]: whenever [encode] returns, the
    lengths add up to the length of the encoded string. *)
Theorem get_bit_lengths_encode (data : list Sym) (code : gmap Sym (list ascii))
    (bits : list ascii) :
  encode data code = Ret bits ->
  sum_list (get_bit_lengths data code).1.1 = length bits.
Proof.
  intros Henc.
  destruct (decide (data = [] \/ code = ∅)) as [Hguard|Hguard].
  { rewrite (proj1 (get_bit_lengths_answer data code) Hguard).
    rewrite encode_guard in Henc by done. by injection Henc as <-. }
  assert (data <> [] /\ code <> ∅) as [Hdata Hcode].
  { split; intros ->; apply Hguard; auto. }
  destruct (proj2 (get_bit_lengths_answer data code) Hdata Hcode) as (length_map & -> & _).
  simpl.
  destruct (decide (Forall (fun s => is_Some (code !! s)) data)) as [Hall|Hmiss].
  - destruct (proj1 (encode_nonempty_table data code Hcode) Hall) as (cs & Hcs & Heq).
    rewrite Heq in Henc. injection Henc as <-.
    clear -Hcs. induction Hcs as [|s c data cs Hc _ IH]; [done|].
    rewrite fmap_cons. cbn [sum_list_with concat]. rewrite length_app, <- IH, Hc. done.
  - apply not_Forall_Exists in Hmiss; [|apply _].
    rewrite (proj2 (encode_nonempty_table data code Hcode)) in Henc; [done|].
    eapply Exists_impl; [exact Hmiss|]. intros s Hs. simpl in Hs.
    by apply eq_None_not_Some.
Qed.

End bit_length_facts.

Lemma get_bit_lengths_spec_witness :
  HuffmanCode.get_bit_lengths [97; 100; 98] (∅ : gmap nat (list ascii)) = ([], ∅, 0)
  /\ exists length_map,
       HuffmanCode.get_bit_lengths [97; 100; 98] S1_code_table
       = ((fun s => default 0 (length <$> S1_code_table !! s)) <$> [97; 100; 98], length_map,
          max_list ((fun s => default 0 (length <$> S1_code_table !! s)) <$> [97; 100; 98]))
       /\ forall s, length_map !! s
                    = if bool_decide (s ∈ [97; 100; 98])
                      then length <$> S1_code_table !! s else None.
Proof.
  split.
  - apply (proj1 (get_bit_lengths_spec [97; 100; 98] ∅)). by right.
  - apply (proj2 (get_bit_lengths_spec [97; 100; 98] S1_code_table)); [done|].
    intros Heq. apply (f_equal (lookup 97)) in Heq. vm_compute in Heq. discriminate.
Defined.

Lemma get_bit_lengths_encode_witness :
  sum_list (HuffmanCode.get_bit_lengths S1_data S1_code_table).1.1
  = length (list_ascii_of_string "010011010").
Proof. apply (get_bit_lengths_encode S1_data S1_code_table). vm_compute. reflexivity. Defined.

(** On scenario S1 the lengths are [1, 2, 1, 2, 1, 2], with the map
    [{a: 1, b: 2, c: 2}] and the maximum [2]. *)
Example S1_bit_lengths :
  HuffmanCode.get_bit_lengths S1_data S1_code_table
  = ([1; 2; 1; 2; 1; 2], {[ 97 := 1; 98 := 2; 99 := 2 ]}, 2).
Proof. vm_compute. reflexivity. Qed.

(** ** The decoding tree of a code table *)

Section decoding_tree_facts.
Context `{Countable Sym}.
Import HuffmanCode.

Lemma paths_child_or_new (child : Node Sym) : paths (child_or_new child) = paths child.
Proof. by destruct child. Qed.

Lemma child_or_new_node (child : Node Sym) : child_or_new child <> NoneNode.
Proof. by destruct child. Qed.

Lemma insert_code_node (current : Node Sym) (code : list ascii) (s : Sym) :
  current <> NoneNode -> insert_code current code s <> NoneNode.
Proof.
  destruct code as [|bit code], current as [|sy f l r]; simpl; try done.
  by destruct (Ascii.eqb bit bit0).
Qed.

Lemma insert_code_symbol (current : Node Sym) (code : list ascii) (s : Sym) :
  code <> [] -> symbol (insert_code current code s) = symbol current.
Proof.
  destruct code as [|bit code], current as [|sy f l r]; simpl; try done.
  by destruct (Ascii.eqb bit bit0).
Qed.

Lemma paths_bit_string (t : Node Sym) (s : Sym) (path : list ascii) :
  (s, path) ∈ paths t -> is_bit_string path.
Proof.
  revert path. induction t as [|[s'|] f l IHl r IHr]; intros path; simpl.
  - by intros ?%elem_of_nil.
  - intros [= _ ->]%list_elem_of_singleton. constructor.
  - intros [Hin|Hin]%elem_of_app;
      apply list_elem_of_fmap in Hin as ([s0 p0] & [= -> ->] & Hin); simpl;
      (constructor; [done|]); [by apply IHl | by apply IHr].
Qed.

(** Where the code neither runs through a leaf nor ends above one, the walk
    adds the code as the path of a new leaf and keeps every other path. *)
Lemma paths_insert_code (current : Node Sym) (code : list ascii) (s : Sym) :
  current <> NoneNode -> is_bit_string code ->
  (forall s' p, (s', p) ∈ paths current -> ~ p `prefix_of` code /\ ~ code `prefix_of` p) ->
  paths (insert_code current code s) ≡ₚ paths current ++ [(s, code)].
Proof.
  intros Hnode Hbits. revert current Hnode.
  induction Hbits as [|bit code Hbit _ IH]; intros [|sy f l r] Hnode Hfree; try done.
  - cbn [insert_code]. destruct sy as [s0|].
    { destruct (Hfree s0 []) as [Hpre _]; [simpl; constructor|]. destruct Hpre. by exists []. }
    destruct (paths (mkNode None f l r)) as [|[s' p] ps] eqn:Hps; [done|].
    destruct (Hfree s' p) as [_ Hpre]; [constructor|]. destruct Hpre. by exists p.
  - destruct sy as [s0|].
    { destruct (Hfree s0 []) as [Hpre _]; [simpl; constructor|]. destruct Hpre.
      by exists (bit :: code). }
    assert (forall (b : ascii) (child : Node Sym),
      (forall s' p, (s', p) ∈ paths child -> (s', b :: p) ∈ paths (mkNode None f l r)) ->
      bit = b ->
      paths (insert_code (child_or_new child) code s) ≡ₚ paths child ++ [(s, code)]) as Hchild.
    { intros b child Hsub ->. rewrite IH, paths_child_or_new; [done|apply child_or_new_node|].
      intros s' p. rewrite paths_child_or_new. intros Hin%Hsub.
      destruct (Hfree _ _ Hin) as [Hp Hc]. split.
      - intros [k ->]. apply Hp. by exists k.
      - intros [k ->]. apply Hc. by exists k. }
    unfold is_bit in Hbit. simpl. destruct (Ascii.eqb bit bit0) eqn:Hb0; simpl.
    + apply Ascii.eqb_eq in Hb0. rewrite (Hchild bit0 l); [|
        intros s' p Hin; simpl; apply elem_of_app; left; apply list_elem_of_fmap;
        by exists (s', p)|done].
      subst bit. rewrite fmap_app. simpl. rewrite <- !app_assoc. f_equiv.
      apply Permutation_app_comm.
    + simpl in Hbit. apply Ascii.eqb_eq in Hbit. rewrite (Hchild bit1 r); [|
        intros s' p Hin; simpl; apply elem_of_app; right; apply list_elem_of_fmap;
        by exists (s', p)|done].
      subst bit. rewrite fmap_app. simpl. by rewrite <- !app_assoc.
Qed.


Lemma build_decoding_tree_paths (items : list (Sym * list ascii)) :
  NoDup items.*1 -> prefix_free_table items ->
  Forall (fun item => is_bit_string item.2) items ->
  paths (build_decoding_tree items) ≡ₚ items.
Proof.
  intros Hnd Hfree Hbits. unfold build_decoding_tree.
  destruct items as [|item items]; [done|].
  set (all := item :: items) in *.
  assert (forall (done_ todo : list (Sym * list ascii)) (root : Node Sym),
    all = done_ ++ todo -> root <> NoneNode -> paths root ≡ₚ done_ ->
    paths (foldl (fun root '(symbol, code) => insert_code root code symbol) root todo)
    ≡ₚ all) as Hloop.
  { intros done_ todo. revert done_.
    induction todo as [|[s c] todo IH]; intros done_ root Hall Hroot Hpaths; simpl.
    - by rewrite Hall, app_nil_r.
    - apply (IH (done_ ++ [(s, c)])).
      + by rewrite <- app_assoc.
      + by apply insert_code_node.
      + rewrite paths_insert_code; [by rewrite Hpaths|done| |].
        * apply (proj1 (Forall_forall (fun item => is_bit_string item.2) all) Hbits (s, c)).
          rewrite Hall. apply elem_of_app. right. constructor.
        * intros s' p Hin. rewrite Hpaths in Hin.
          assert ((s', p) ∈ all) as Hin' by (rewrite Hall; apply elem_of_app; by left).
          assert ((s, c) ∈ all) as Hsc
            by (rewrite Hall; apply elem_of_app; right; constructor).
          assert (s' <> s) as Hne.
          { intros ->. rewrite Hall, fmap_app in Hnd.
            apply NoDup_app in Hnd as (_ & Hdisj & _).
            apply (Hdisj s); [|constructor].
            apply list_elem_of_fmap. by exists (s, p). }
          split; [by apply (Hfree s' p s c) | by apply (Hfree s c s' p)]. }
  by apply (Hloop [] all).
Qed.

(** Following the path of a leaf from a node without a symbol,
    [HuffmanCode.decode] emits the symbol of the leaf and is back at the
    root: in any tree. *)
Lemma decode_loop_leaf (T cur : Node Sym) (s : Sym) (path rest : list ascii)
    (acc : list Sym) :
  symbol cur = None -> (s, path) ∈ paths cur ->
  decode_loop T cur (path ++ rest) acc = decode_loop T T rest (acc ++ [s]).
Proof.
  revert path acc. induction cur as [|sy f l IHl r IHr]; intros path acc Hsym Hin.
  { by apply elem_of_nil in Hin. }
  simpl in Hsym. subst sy. simpl in Hin.
  apply elem_of_app in Hin as [Hin|Hin];
    apply list_elem_of_fmap in Hin as ([s' p'] & [= -> ->] & Hin); simpl.
  - destruct l as [|[s0|] f0 l0 r0].
    + by apply elem_of_nil in Hin.
    + apply list_elem_of_singleton in Hin as [= -> ->]. done.
    + by apply IHl.
  - destruct r as [|[s0|] f0 l0 r0].
    + by apply elem_of_nil in Hin.
    + apply list_elem_of_singleton in Hin as [= -> ->]. done.
    + by apply IHr.
Qed.

Lemma decode_loop_leaves (T : Node Sym) (data : list Sym) (cs : list (list ascii))
    (rest : list ascii) (acc : list Sym) :
  symbol T = None ->
  Forall2 (fun s c => (s, c) ∈ paths T) data cs ->
  decode_loop T T (concat cs ++ rest) acc = decode_loop T T rest (acc ++ data).
Proof.
  intros Hroot Hcs. revert acc.
  induction Hcs as [|s c data cs Hc _ IH]; intros acc; simpl.
  - by rewrite app_nil_r.
  - rewrite <- app_assoc, (decode_loop_leaf T T s c) by done.
    rewrite IH. by rewrite <- app_assoc.
Qed.

(** The decoding tree of a prefix-free table of bit strings that are not
    empty, given by its items in any order: [encode] and then [decode] is
    the identity on the data over the symbols of the table. *)
Lemma decoding_tree_decodes (codes : gmap Sym (list ascii))
    (items : list (Sym * list ascii)) (data : list Sym) :
  NoDup items.*1 ->
  (forall s c, (s, c) ∈ items <-> codes !! s = Some c) ->
  Forall (fun item => item.2 <> [] /\ is_bit_string item.2) items ->
  prefix_free_table items ->
  Forall (fun s => is_Some (codes !! s)) data ->
  exists bits,
    encode data codes = Ret bits
    /\ is_bit_string bits
    /\ decode bits (build_decoding_tree items) = Ret data.
Proof.
  intros Hnd Hitems Hcodes Hfree Hdata.
  destruct data as [|s0 data].
  { exists []. split; [done|]. split; [constructor|]. by rewrite decode_by_root; destruct (build_decoding_tree items) as [|[?|] ? ? ?]. }
  assert (codes <> ∅) as Hne.
  { intros ->. apply Forall_cons in Hdata as [[c Hc] _]. by rewrite lookup_empty in Hc. }
  destruct (proj1 (encode_nonempty_table (s0 :: data) codes Hne) Hdata) as (cs & Hcs & Henc).
  exists (concat cs). split; [done|].
  pose proof (build_decoding_tree_paths items Hnd Hfree) as Hpaths.
  assert (Forall (fun item : Sym * list ascii => is_bit_string item.2) items) as Hbs
    by (eapply Forall_impl; [exact Hcodes|]; by intros ? [? ?]).
  specialize (Hpaths Hbs).
  assert (Forall2 (fun s c => (s, c) ∈ items) (s0 :: data) cs) as Hcs'.
  { eapply Forall2_impl; [exact Hcs|]. intros s c Hc. by apply Hitems. }
  split.
  { unfold is_bit_string. apply Forall_concat. clear -Hcs' Hbs.
    induction Hcs' as [|s c data' cs Hc _ IH]; constructor; [|done].
    apply (proj1 (Forall_forall _ items) Hbs (s, c) Hc). }
  assert (symbol (build_decoding_tree items) = None) as Hsym.
  { unfold build_decoding_tree. destruct items as [|item items]; [done|].
    set (all := item :: items) in *. clearbody all.
    assert (forall root : Node Sym, symbol root = None ->
      symbol (foldl (fun root '(symbol, code) => insert_code root code symbol) root all)
      = None) as Hloop; [|by apply Hloop].
    clear -Hcodes. induction Hcodes as [|[s c] all [Hc _] _ IH]; intros root Hroot; [exact Hroot|].
    simpl. apply IH. by rewrite insert_code_symbol. }
  rewrite decode_by_root.
  destruct (build_decoding_tree items) as [|[?|] f l r] eqn:Htree; [|done|].
  { apply Permutation_nil in Hpaths. subst items.
    inversion Hcs' as [|? ? ? ? Hin]; subst. by apply elem_of_nil in Hin. }
  pose proof (decode_loop_leaves (mkNode None f l r) (s0 :: data) cs [] [] eq_refl) as Hloop.
  rewrite app_nil_r in Hloop. rewrite Hloop; [done|].
  eapply Forall2_impl; [exact Hcs'|]. intros s c Hc. by rewrite Hpaths.
Qed.

End decoding_tree_facts.

(** ** The code table of [generate] *)

Section generate_facts.
Context `{Countable Sym}.
Import HuffmanCode.

Lemma proper_paths_prefix (t : Node Sym) (s s' : Sym) (c c' : list ascii) :
  proper t -> NoDup (paths t).*1 ->
  (s, c) ∈ paths t -> (s', c') ∈ paths t -> c `prefix_of` c' -> s = s'.
Proof.
  intros Ht. revert c c'.
  induction Ht as [s0 f|f l r Hl IHl Hr IHr]; intros c c' Hnd Hc Hc' Hpre.
  - apply list_elem_of_singleton in Hc, Hc'. congruence.
  - rewrite paths_fst_internal in Hnd. apply NoDup_app in Hnd as (Hndl & _ & Hndr).
    simpl in Hc, Hc'. destruct Hpre as [k ->].
    apply elem_of_app in Hc as [Hc|Hc], Hc' as [Hc'|Hc'];
      apply list_elem_of_fmap in Hc as ([s1 p1] & [= -> ->] & Hc);
      apply list_elem_of_fmap in Hc' as ([s2 p2] & [= -> Hp2] & Hc'); simpl in *;
      try discriminate.
    + subst p2. eapply IHl; [done..|]. by exists k.
    + subst p2. eapply IHr; [done..|]. by exists k.
Qed.

(** The tree behind [generate], for a table with two entries or more. *)
Lemma generate_tree (histogram : list (Sym * Z)) :
  NoDup histogram.*1 -> 2 <= length histogram ->
  exists root,
    build_huffman_tree histogram = Ret root
    /\ generate histogram = Ret (generate_huffman_codes root [] ∅)
    /\ proper root /\ symbol root = None
    /\ NoDup (paths root).*1 /\ (paths root).*1 ≡ₚ histogram.*1
    /\ forall s c, generate_huffman_codes root [] ∅ !! s = Some c <-> (s, c) ∈ paths root.
Proof.
  intros Hnd Hlen.
  destruct (build_huffman_tree_spec histogram Hlen) as (root & Hroot & Hproper & Hleaves).
  exists root. split; [done|].
  assert (NoDup (paths root).*1) as Hnd' by (by rewrite Hleaves).
  split.
  { unfold generate. destruct histogram as [|e1 [|e2 histogram]]; simpl in Hlen; [lia..|].
    by rewrite Hroot. }
  split; [done|]. split.
  { destruct Hproper; [|done]. apply Permutation_length in Hleaves.
    rewrite !length_fmap in Hleaves. simpl in Hleaves. lia. }
  split; [done|]. split; [done|].
  intros s c. split; [by apply codes_of_paths|].
  intros Hin.
  destruct (codes_cover_leaves root s Hproper Hnd') as [c' Hc'].
  { apply list_elem_of_fmap. by exists (s, c). }
  rewrite Hc'. f_equal. apply codes_of_paths in Hc'; [|done..].
  apply (elem_of_list_to_map (M := gmap Sym)) in Hin, Hc'; [|done..]. congruence.
Qed.

(** What [generate] answers on a frequency table (a [dict]: its keys are
    distinct). *)
Lemma generate_codes (histogram : list (Sym * Z)) :
  NoDup histogram.*1 ->
  exists codes,
    generate histogram = Ret codes
    /\ (forall s, is_Some (codes !! s) <-> s ∈ histogram.*1)
    /\ (forall s c, codes !! s = Some c -> c <> [] /\ is_bit_string c)
    /\ (forall s c s' c', codes !! s = Some c -> codes !! s' = Some c' -> s <> s' ->
                          ~ c `prefix_of` c').
Proof.
  intros Hnd. destruct histogram as [|[s0 f0] [|e2 histogram]].
  - exists ∅. split; [done|]. split.
    { intros s. rewrite lookup_empty. split; [by intros [? ?] | by intros ?%elem_of_nil]. }
    split; intros ? ?; by rewrite lookup_empty.
  - exists {[ s0 := [bit0] ]}. split; [simpl; by rewrite insert_empty|]. split.
    { intros s. simpl. rewrite list_elem_of_singleton. split.
      - intros [c Hc]. by apply lookup_singleton_Some in Hc as [-> _].
      - intros ->. rewrite lookup_singleton_eq. by eexists. }
    split.
    { intros s c [_ <-]%lookup_singleton_Some. split; [done|]. by repeat constructor. }
    intros s c s' c' [<- _]%lookup_singleton_Some [<- _]%lookup_singleton_Some. done.
  - set (table := (s0, f0) :: e2 :: histogram) in *.
    destruct (generate_tree table Hnd) as (root & _ & Hgen & Hproper & Hsym & Hnd' & Hleaves & Hcodes);
      [simpl; lia|].
    eexists. split; [exact Hgen|]. split.
    { intros s. rewrite <- Hleaves. split.
      - intros [c Hc%Hcodes]. apply list_elem_of_fmap. by exists (s, c).
      - intros ([s' c] & -> & Hin)%list_elem_of_fmap. exists c. by apply Hcodes. }
    split.
    { intros s c Hc%Hcodes. split; [|by eapply paths_bit_string].
      intros ->. destruct root as [|[?|] f l r]; [by apply elem_of_nil in Hc|done|].
      simpl in Hc.
      apply elem_of_app in Hc as [Hc|Hc];
        by apply list_elem_of_fmap in Hc as ([? ?] & [=] & _). }
    intros s c s' c' Hc%Hcodes Hc'%Hcodes Hne Hpre. apply Hne.
    by eapply proper_paths_prefix.
Qed.

Lemma kraft_sum_app (cs ds : list (list ascii)) :
  kraft_sum (cs ++ ds) = (kraft_sum cs + kraft_sum ds)%Qc.
Proof.
  induction cs as [|c cs IH]; simpl; [ring|]. rewrite IH. ring.
Qed.

Lemma kraft_sum_cons (b : ascii) (cs : list (list ascii)) :
  kraft_sum (cons b <$> cs) = (Q2Qc (1 # 2) * kraft_sum cs)%Qc.
Proof.
  induction cs as [|c cs IH]; simpl; [ring|].
  change (list_fmap _ _ (cons b) cs) with (cons b <$> cs). rewrite IH. ring.
Qed.

Lemma kraft_sum_perm (cs ds : list (list ascii)) : cs ≡ₚ ds -> kraft_sum cs = kraft_sum ds.
Proof.
  induction 1 as [|c cs ds _ IH|c d cs|cs ds es _ IH1 _ IH2]; simpl.
  - done.
  - by rewrite IH.
  - ring.
  - by rewrite IH1.
Qed.

Lemma kraft_sum_proper (t : Node Sym) : proper t -> kraft_sum (paths t).*2 = 1%Qc.
Proof.
  induction 1 as [s f|f l r _ IHl _ IHr]; simpl.
  - apply Qc_is_canon. reflexivity.
  - rewrite fmap_app, kraft_sum_app, <- !list_fmap_compose.
    assert (forall (b : ascii) (ps : list (Sym * list ascii)),
      (snd ∘ prod_map id (cons b)) <$> ps = cons b <$> ps.*2) as Hsnd.
    { intros b ps. rewrite <- list_fmap_compose. by apply list_fmap_ext. }
    rewrite !Hsnd, !kraft_sum_cons, IHl, IHr. apply Qc_is_canon. reflexivity.
Qed.

End generate_facts.

(** ** Code tables, decoding trees and the two decoders together *)

Section huffman_table_theorems.
Context `{Countable Sym}.
Import HuffmanCode.

(** [build_decoding_tree] then [decode] undoes [encode], for every code
    table (a [dict]: distinct keys, in any iteration order) whose codes are
    bit strings, none of them empty and none a prefix of another, and every
    data over the symbols of the table. *)
Theorem build_decoding_tree_round_trip (items : list (Sym * list ascii)) (data : list Sym) :
  NoDup items.*1 ->
  Forall (fun item => item.2 <> [] /\ is_bit_string item.2) items ->
  prefix_free_table items ->
  Forall (fun s => s ∈ items.*1) data ->
  exists bits,
    encode data (list_to_map items) = Ret bits
    /\ decode bits (build_decoding_tree items) = Ret data.
Proof.
  intros Hnd Hcodes Hfree Hdata.
  destruct (decoding_tree_decodes (list_to_map items) items data) as (bits & ? & _ & ?);
    try done.
  - intros s c. by apply elem_of_list_to_map.
  - eapply Forall_impl; [exact Hdata|]. intros s ([s' c] & -> & Hin)%list_elem_of_fmap.
    exists c. by apply elem_of_list_to_map.
  - by exists bits.
Qed.

(** The code table of [generate], for a frequency table with distinct keys:
    its keys are the symbols of the table, every code is a bit string that is
    not empty, and no code is a prefix of the code of another symbol. *)
Theorem generate_prefix_free (histogram : list (Sym * Z)) :
  NoDup histogram.*1 ->
  exists codes,
    generate histogram = Ret codes
    /\ (forall s, is_Some (codes !! s) <-> s ∈ histogram.*1)
    /\ (forall s c, codes !! s = Some c -> c <> [] /\ is_bit_string c)
    /\ (forall s c s' c', codes !! s = Some c -> codes !! s' = Some c' -> s <> s' ->
                          ~ c `prefix_of` c').
Proof. apply generate_codes. Qed.

(** With two symbols or more the code of [generate] is complete: the sum of
    [2 ** (-len(code))] over the table is exactly 1. *)
Theorem generate_kraft (histogram : list (Sym * Z)) :
  NoDup histogram.*1 -> 2 <= length histogram ->
  exists codes,
    generate histogram = Ret codes /\ kraft_sum (map_to_list codes).*2 = 1%Qc.
Proof.
  intros Hnd Hlen.
  destruct (generate_tree histogram Hnd Hlen)
    as (root & _ & Hgen & Hproper & _ & Hnd' & _ & Hcodes).
  eexists. split; [exact Hgen|].
  rewrite <- (kraft_sum_proper root Hproper). apply kraft_sum_perm, fmap_Permutation.
  apply NoDup_Permutation.
  - apply NoDup_map_to_list.
  - by eapply NoDup_fmap_1.
  - intros [s c]. rewrite elem_of_map_to_list. apply Hcodes.
Qed.

End huffman_table_theorems.

Section pipeline.
Context `{Countable Sym} `{Index Sym} `{Predictor P}.
Import HuffmanCode.

(** The run of the scripts: the code table of [generate], [encode], the
    tree of [build_decoding_tree] over the items of the table in any order,
    and a fresh speculative decoder of any width and chain limit with a
    predictor that honours the width.  [HuffmanCode.decode] gives back the
    data, and the speculative decoder answers [bytes(data)]: the byte values
    of the data when every symbol of it has one. *)
Theorem speculative_pipeline_round_trip (histogram : list (Sym * Z)) (data : list Sym)
    (predictor : P) (w : nat) (limit : option nat) :
  honours_width ->
  NoDup histogram.*1 ->
  Forall (fun s => s ∈ histogram.*1) data ->
  exists codes bits,
    generate histogram = Ret codes
    /\ encode data codes = Ret bits
    /\ forall items fuel,
         items ≡ₚ map_to_list codes -> length bits < fuel ->
         decode bits (build_decoding_tree items) = Ret data
         /\ (fun answer => SpeculativeDecoder.decoded_symbols answer.1)
              <$> SpeculativeDecoder.decode fuel
                    (SpeculativeDecoder.init (build_decoding_tree items) w predictor limit)
                    bits
            = bytes data
         /\ forall packed, Forall2 byte_value data packed ->
              exists out self',
                SpeculativeDecoder.decode fuel
                  (SpeculativeDecoder.init (build_decoding_tree items) w predictor limit)
                  bits
                = Ret (out, self')
                /\ SpeculativeDecoder.decoded_symbols out = packed.
Proof.
  intros Hwidth Hnd Hdata.
  destruct (generate_codes histogram Hnd) as (codes & Hgen & Hkeys & Hcodes & Hfree).
  assert (Forall (fun s => is_Some (codes !! s)) data) as Hcovered.
  { eapply Forall_impl; [exact Hdata|]. intros s. apply Hkeys. }
  assert (forall items, items ≡ₚ map_to_list codes ->
    exists bits, encode data codes = Ret bits /\ is_bit_string bits
                 /\ decode bits (build_decoding_tree items) = Ret data) as Htree.
  { intros items Hitems.
    assert (forall s c, (s, c) ∈ items <-> codes !! s = Some c) as Hin.
    { intros s c. by rewrite Hitems, elem_of_map_to_list. }
    apply decoding_tree_decodes; try done.
    - rewrite Hitems. apply NoDup_fst_map_to_list.
    - apply Forall_forall. intros [s c] Hsc%Hin. by apply (Hcodes s).
    - intros s c s' c' Hc%Hin Hc'%Hin. by apply Hfree. }
  destruct (Htree (map_to_list codes)) as (bits & Henc & _ & _); [done|].
  exists codes, bits. split; [done|]. split; [done|].
  intros items fuel Hitems Hfuel.
  destruct (Htree items Hitems) as (bits' & Henc' & Hbits & Hdec).
  assert (bits' = bits) as -> by congruence.
  split; [done|].
  pose proof (speculative_decode_bytes (build_decoding_tree items) predictor w limit bits
                data fuel Hwidth Hbits Hdec Hfuel) as Hbytes.
  split; [done|]. by apply answers_bytes.
Qed.

End pipeline.

Lemma S1_items_prefix_free : prefix_free_table S1_items.
Proof.
  intros s c s' c' Hc Hc' Hne [k Hk]. unfold S1_items in Hc, Hc'.
  rewrite !elem_of_cons, elem_of_nil in Hc, Hc'.
  destruct Hc as [[= -> ->]|[[= -> ->]|[[= -> ->]|[]]]],
           Hc' as [[= -> ->]|[[= -> ->]|[[= -> ->]|[]]]];
    try done; discriminate Hk.
Qed.

Lemma build_decoding_tree_round_trip_witness :
  exists bits,
    HuffmanCode.encode S1_data (list_to_map S1_items) = Ret bits
    /\ HuffmanCode.decode bits (HuffmanCode.build_decoding_tree S1_items) = Ret S1_data.
Proof.
  apply (build_decoding_tree_round_trip S1_items S1_data).
  - apply (bool_decide_unpack _). vm_compute. exact I.
  - repeat constructor; discriminate.
  - exact S1_items_prefix_free.
  - apply (bool_decide_unpack _). vm_compute. exact I.
Defined.

Lemma generate_prefix_free_witness :
  exists codes,
    HuffmanCode.generate S1_histogram = Ret codes
    /\ (forall s, is_Some (codes !! s) <-> s ∈ S1_histogram.*1)
    /\ (forall s c, codes !! s = Some c -> c <> [] /\ is_bit_string c)
    /\ (forall s c s' c', codes !! s = Some c -> codes !! s' = Some c' -> s <> s' ->
                          ~ c `prefix_of` c').
Proof.
  apply (generate_prefix_free S1_histogram).
  apply (bool_decide_unpack _). vm_compute. exact I.
Defined.

Lemma generate_kraft_witness :
  exists codes,
    HuffmanCode.generate S1_histogram = Ret codes
    /\ kraft_sum (map_to_list codes).*2 = 1%Qc.
Proof.
  apply (generate_kraft S1_histogram); [|simpl; lia].
  apply (bool_decide_unpack _). vm_compute. exact I.
Defined.

(** A single entry gets the code ["0"]: the sum is one half. *)
Example single_entry_kraft :
  (codes ← HuffmanCode.generate [(120, 1%Z)]; Ret (kraft_sum (map_to_list codes).*2))
  = Ret (Q2Qc (1 # 2)).
Proof. vm_compute. reflexivity. Qed.

Lemma speculative_pipeline_round_trip_witness :
  exists codes bits,
    HuffmanCode.generate S1_histogram = Ret codes
    /\ HuffmanCode.encode S1_data codes = Ret bits
    /\ forall items fuel,
         items ≡ₚ map_to_list codes -> length bits < fuel ->
         HuffmanCode.decode bits (HuffmanCode.build_decoding_tree items) = Ret S1_data
         /\ (fun answer => SpeculativeDecoder.decoded_symbols answer.1)
              <$> SpeculativeDecoder.decode fuel
                    (SpeculativeDecoder.init (HuffmanCode.build_decoding_tree items) 2
                       (StaticPredictor.mk [1; 2]) None) bits
            = bytes S1_data
         /\ forall packed, Forall2 byte_value S1_data packed ->
              exists out self',
                SpeculativeDecoder.decode fuel
                  (SpeculativeDecoder.init (HuffmanCode.build_decoding_tree items) 2
                     (StaticPredictor.mk [1; 2]) None) bits
                = Ret (out, self')
                /\ SpeculativeDecoder.decoded_symbols out = packed.
Proof.
  apply (speculative_pipeline_round_trip S1_histogram S1_data (StaticPredictor.mk [1; 2]) 2 None).
  - exact StaticPredictor_honours_width.
  - apply (bool_decide_unpack _). vm_compute. exact I.
  - apply (bool_decide_unpack _). vm_compute. exact I.
Defined.

(** ** The record and the counters of a single decoder *)

Section statistics_facts.
Context `{Countable Sym}.
Import HuffmanCode.

Abbreviation SDR := (SingleDecodingResult.t Sym).

Lemma _decode_loop_result (cur : Node Sym) (bits : list ascii) (c : nat) :
  let r := SingleDecoder._decode_loop cur bits c in
  SingleDecodingResult.length r <= c + length bits
  /\ (SingleDecodingResult.was_decoded r = false -> SingleDecodingResult.symbol r = None).
Proof.
  revert cur c. induction bits as [|bit rest IH]; intros cur c; simpl; [split; [lia|done]|].
  assert (forall child : Node Sym,
    let r := match child with
             | NoneNode => SingleDecodingResult.mk false None (S c)
             | mkNode (Some s) _ _ _ => SingleDecodingResult.mk true (Some s) (S c)
             | mkNode None _ _ _ => SingleDecoder._decode_loop child rest (S c)
             end in
    SingleDecodingResult.length r <= c + S (length rest)
    /\ (SingleDecodingResult.was_decoded r = false -> SingleDecodingResult.symbol r = None))
    as Hchild.
  { intros [|[s|] f l r]; simpl; [split; [lia|done]..|].
    destruct (IH (mkNode None f l r) (S c)) as [? ?]. split; [lia|done]. }
  destruct (Ascii.eqb bit bit0); [apply Hchild|].
  destruct (Ascii.eqb bit bit1); [apply Hchild|]. simpl. split; [lia|done].
Qed.

Lemma _decode_result (self : @SingleDecoder.t Sym) (data : list ascii) (position : nat) :
  let r := SingleDecoder._decode self data position in
  SingleDecodingResult.length r <= length data - position
  /\ (if SingleDecodingResult.was_decoded r
      then is_Some (SingleDecodingResult.symbol r) /\ 1 <= SingleDecodingResult.length r
      else SingleDecodingResult.symbol r = None).
Proof.
  pose proof (decode_committed self data position) as Hcommitted.
  unfold committed in Hcommitted. revert Hcommitted.
  unfold SingleDecoder._decode.
  destruct (bool_decide (data = []) || _ || _) eqn:Hguard; [simpl; split; [lia|done]|].
  apply orb_false_elim in Hguard as [Hguard _].
  apply orb_false_elim in Hguard as [_ Hpos]. apply bool_decide_eq_false in Hpos.
  destruct (SingleDecoder._single_symbol self) as [s|].
  - rewrite bool_decide_eq_true_2 by lia. simpl. intros _. split; [lia|].
    split; [by eexists | lia].
  - intros Hcommitted.
    destruct (_decode_loop_result (SingleDecoder.decoding_tree self) (drop position data) 0)
      as [Hlen Hfail]. rewrite length_drop in Hlen. split; [done|].
    destruct (SingleDecodingResult.was_decoded _) eqn:Hdec; [|by apply Hfail].
    destruct (Hcommitted eq_refl) as (_ & ? & ? & _). done.
Qed.

(** One call of [decode], for every decoder, string and position.  The
    record it answers: at a position at or beyond the end of the string the
    length is [0]; at a position inside the string the bits read end inside
    the string; a success carries a symbol and at least one bit; a failure
    carries no symbol.  The decoder it leaves: the tree is untouched and only
    the counters have changed. *)
Theorem single_decoder_result (self : @SingleDecoder.t Sym) (data : list ascii)
    (position : nat) :
  let r := (SingleDecoder.decode self data position).1 in
  let self' := (SingleDecoder.decode self data position).2 in
  (length data <= position -> SingleDecodingResult.length r = 0)
  /\ (position <= length data -> position + SingleDecodingResult.length r <= length data)
  /\ (if SingleDecodingResult.was_decoded r
      then is_Some (SingleDecodingResult.symbol r) /\ 1 <= SingleDecodingResult.length r
      else SingleDecodingResult.symbol r = None)
  /\ SingleDecoder.reset_statistics self' = SingleDecoder.reset_statistics self.
Proof.
  cbn [SingleDecoder.decode fst snd]. cbv zeta.
  destruct (_decode_result self data position) as [Hlen Hshape].
  split; [lia|]. split; [lia|]. split; [done|]. reflexivity.
Qed.

Lemma single_symbol_success (self : @SingleDecoder.t Sym) (data : list ascii)
    (position : nat) :
  is_Some (SingleDecoder._single_symbol self) ->
  SingleDecodingResult.was_decoded (SingleDecoder._decode self data position) = true ->
  SingleDecodingResult.length (SingleDecoder._decode self data position) = 1.
Proof.
  intros [s Hs]. unfold SingleDecoder._decode. rewrite Hs.
  destruct (bool_decide (data = []) || _ || _); [done|]. by case_bool_decide.
Qed.

Lemma decode_counting_step (self : @SingleDecoder.t Sym) (data : list ascii)
    (position : nat) :
  let stats := SingleDecoder._stats self in
  let stats' := SingleDecoder._stats (SingleDecoder.decode self data position).2 in
  exists success bits : nat,
    success <= 1 /\ success <= bits <= length data - position
    /\ DecodingStatistics.total_decodes stats' = DecodingStatistics.total_decodes stats + 1
    /\ DecodingStatistics.successful_decodes stats'
       = DecodingStatistics.successful_decodes stats + success
    /\ DecodingStatistics.failed_decodes stats'
       = DecodingStatistics.failed_decodes stats + (1 - success)
    /\ DecodingStatistics.bits_processed stats'
       = DecodingStatistics.bits_processed stats + bits
    /\ DecodingStatistics.single_symbol_decodes stats'
       = DecodingStatistics.single_symbol_decodes stats
         + (match SingleDecoder._single_symbol self with
            | Some _ => success
            | None => 0
            end).
Proof.
  unfold SingleDecoder.decode, SingleDecoder._update_stats. cbn [snd SingleDecoder._stats].
  destruct (_decode_result self data position) as [Hlen Hshape]. cbv zeta in Hlen, Hshape.
  exists (if SingleDecodingResult.was_decoded (SingleDecoder._decode self data position)
          then 1 else 0),
         (SingleDecodingResult.length (SingleDecoder._decode self data position)).
  destruct (SingleDecodingResult.was_decoded _) eqn:Hdec; simpl.
  - destruct Hshape as [_ Hone]. repeat split; try lia.
    destruct (SingleDecoder._single_symbol self) as [s|] eqn:Hs.
    + rewrite (single_symbol_success self data position) by (by rewrite ?Hs).
      by rewrite !bool_decide_eq_true_2 by (done || by eexists).
    + rewrite (bool_decide_eq_false_2 (is_Some None)) by (by intros [? ?]).
      by rewrite andb_false_r, Nat.add_0_r.
  - repeat split; try lia. by destruct (SingleDecoder._single_symbol self); rewrite Nat.add_0_r.
Qed.

Lemma decode_run_counts (self : @SingleDecoder.t Sym) (calls : list (list ascii * nat)) :
  let stats := SingleDecoder._stats self in
  let stats' := SingleDecoder._stats (decode_run self calls) in
  SingleDecoder.reset_statistics (decode_run self calls) = SingleDecoder.reset_statistics self
  /\ exists successes bits : nat,
    successes <= length calls
    /\ successes <= bits <= sum_list ((fun call => length call.1 - call.2) <$> calls)
    /\ DecodingStatistics.total_decodes stats'
       = DecodingStatistics.total_decodes stats + length calls
    /\ DecodingStatistics.successful_decodes stats'
       = DecodingStatistics.successful_decodes stats + successes
    /\ DecodingStatistics.failed_decodes stats'
       = DecodingStatistics.failed_decodes stats + (length calls - successes)
    /\ DecodingStatistics.bits_processed stats'
       = DecodingStatistics.bits_processed stats + bits
    /\ DecodingStatistics.single_symbol_decodes stats'
       = DecodingStatistics.single_symbol_decodes stats
         + (match SingleDecoder._single_symbol self with
            | Some _ => successes
            | None => 0
            end).
Proof.
  revert self. induction calls as [|[data position] calls IH]; intros self.
  - split; [done|]. exists 0, 0. simpl.
    destruct (SingleDecoder._single_symbol self); repeat split; lia.
  - unfold decode_run. cbn [foldl].
    destruct (decode_counting_step self data position)
      as (s1 & b1 & Hs1 & Hb1 & Ht & Hs & Hf & Hb & Hss).
    destruct (IH (SingleDecoder.decode self data position).2)
      as (Hframe & s2 & b2 & Hs2 & Hb2 & Ht' & Hs' & Hf' & Hb' & Hss').
    unfold decode_run in *. cbv zeta in *. split; [by rewrite Hframe|].
    exists (s1 + s2), (b1 + b2). rewrite Ht', Hs', Hf', Hb', Hss', Ht, Hs, Hf, Hb, Hss.
    rewrite fmap_cons. cbn [sum_list_with length fst snd]. unfold id at 1.
    change (SingleDecoder._single_symbol (SingleDecoder.decode self data position).2)
      with (SingleDecoder._single_symbol self).
    destruct (SingleDecoder._single_symbol self); repeat split; lia.
Qed.

(** The bits from the position to the end of the string, none when the
    position is beyond the end. *)
Lemma bits_left_sum (calls : list (list ascii * nat)) :
  Z.of_nat (sum_list ((fun call => length call.1 - call.2) <$> calls))
  = Zsum ((fun call => Z.max 0 (Z.of_nat (length call.1) - Z.of_nat call.2)) <$> calls).
Proof.
  induction calls as [|[data position] calls IH]; [done|].
  rewrite !fmap_cons. cbn [sum_list_with Zsum foldr fst snd]. unfold id at 1.
  fold (Zsum ((fun call => Z.max 0 (Z.of_nat (length call.1) - Z.of_nat call.2)) <$> calls)).
  rewrite <- IH. lia.
Qed.

(** The counters of a single decoder after any run of [decode] calls that
    starts from reset counters: every call is counted once, as a success or
    as a failure; the single-symbol counter is the success counter when the
    root of the tree carries a symbol, and stays [0] otherwise; every success
    processed at least one bit, and no call processed more bits than
    [max(0, len(data) - position)], the bits left of its string. *)
Theorem decode_run_statistics (self : @SingleDecoder.t Sym)
    (calls : list (list ascii * nat)) :
  let stats :=
    SingleDecoder._stats (decode_run (SingleDecoder.reset_statistics self) calls) in
  DecodingStatistics.total_decodes stats = length calls
  /\ DecodingStatistics.total_decodes stats
     = DecodingStatistics.successful_decodes stats + DecodingStatistics.failed_decodes stats
  /\ DecodingStatistics.single_symbol_decodes stats
     = match SingleDecoder._single_symbol self with
       | Some _ => DecodingStatistics.successful_decodes stats
       | None => 0
       end
  /\ DecodingStatistics.successful_decodes stats <= DecodingStatistics.bits_processed stats
  /\ (Z.of_nat (DecodingStatistics.bits_processed stats)
      <= Zsum ((fun call => Z.max 0 (Z.of_nat (length call.1) - Z.of_nat call.2))
                 <$> calls))%Z.
Proof.
  destruct (decode_run_counts (SingleDecoder.reset_statistics self) calls)
    as (_ & s & b & Hs & Hb & Ht & Hsucc & Hf & Hbits & Hss).
  cbv zeta in *. rewrite <- bits_left_sum, Ht, Hsucc, Hf, Hbits, Hss. simpl.
  destruct (SingleDecoder._single_symbol self); repeat split; lia.
Qed.

End statistics_facts.

(** ** Rounds, tries and the position of the speculative decoder *)

Section efficiency_facts.
Context `{Countable Sym} `{Index Sym} `{Predictor P}.
Import HuffmanCode SpeculativeDecoder.

Abbreviation decoder := (@SpeculativeDecoder.t Sym P).
Abbreviation SDR := (SingleDecodingResult.t Sym).
Abbreviation locals := (SpeculativeDecoder.output Sym).
Abbreviation tally := (SpeculativeDecoder.output Z).

(** Every stored success has used a decoder of its own. *)
Lemma attempts_size (self self' : decoder) data position i lengths results results' :
  attempts self data position i lengths results = Ret (results', self') ->
  size results' <= size results + (length (_decoders self) - i).
Proof.
  revert self i results. induction lengths as [|len lengths IH]; intros self i results; simpl.
  - intros [= <- _]. lia.
  - case_bool_decide as Hin.
    + destruct (_decoders self !! i) as [d|] eqn:Hd; [|done].
      apply lookup_lt_Some in Hd. intros Hrun%IH.
      eapply Nat.le_trans; [exact Hrun|]. cbn [_decoders]. rewrite length_insert.
      destruct (SingleDecodingResult.was_decoded _); [|lia].
      rewrite map_size_insert. case_match; unfold id; lia.
    + intros Hrun%IH. eapply Nat.le_trans; [exact Hrun|lia].
Qed.

(** The offsets of a chain are distinct keys of the map of successes. *)
Lemma chain_from_offsets (results : gmap nat SDR) (offset : nat) (chain : list SDR) :
  chain_from results offset chain ->
  Forall (fun r => 1 <= SingleDecodingResult.length r) chain ->
  exists offsets : list nat,
    length offsets = length chain /\ NoDup offsets
    /\ Forall (fun k => offset <= k /\ is_Some (results !! k)) offsets.
Proof.
  induction 1 as [offset|offset r rest Hr _ IH]; intros Hlens.
  - exists []. repeat split; constructor.
  - apply Forall_cons in Hlens as [Hlen Hlens].
    destruct (IH Hlens) as (offsets & Hlength & Hnd & Hall).
    exists (offset :: offsets). split; [simpl; by rewrite Hlength|]. split.
    + constructor; [|done]. intros Hin.
      eapply Forall_forall in Hall; [|exact Hin]. lia.
    + constructor; [split; [lia | by eexists]|].
      eapply Forall_impl; [exact Hall|]. intros k [? ?]. split; [lia|done].
Qed.

Lemma chain_from_length (results : gmap nat SDR) (offset : nat) (chain : list SDR) :
  chain_from results offset chain ->
  Forall (fun r => 1 <= SingleDecodingResult.length r) chain ->
  length chain <= size results.
Proof.
  intros Hchain Hlens.
  destruct (chain_from_offsets results offset chain Hchain Hlens)
    as (offsets & <- & Hnd & Hall).
  assert (offsets ⊆+ (map_to_list results).*1) as Hsub.
  { apply NoDup_submseteq; [done|]. intros k Hk.
    eapply Forall_forall in Hall; [|exact Hk]. destruct Hall as [_ [r Hr]].
    apply list_elem_of_fmap. exists (k, r). split; [done|]. by apply elem_of_map_to_list. }
  apply submseteq_length in Hsub. by rewrite length_fmap, length_map_to_list in Hsub.
Qed.

(** A chain that is not empty ends inside the data. *)
Lemma chain_from_inside (self : decoder) data position results offset chain :
  results_ok self data position results ->
  chain_from results offset chain -> chain <> [] ->
  position + offset + sum_list (SingleDecodingResult.length <$> chain) <= length data.
Proof.
  intros Hok. induction 1 as [offset|offset r rest Hr Hrest IH]; intros Hne; [done|].
  rewrite fmap_cons. cbn [sum_list_with]. unfold id at 1.
  destruct rest as [|r' rest].
  - destruct (Hok _ _ Hr) as (_ & Hdec & d & _ & ->).
    destruct (decode_committed _ _ _ Hdec) as (_ & _ & _ & ?). simpl. lia.
  - specialize (IH ltac:(done)). lia.
Qed.

Lemma speculate_limit fuel (self self' : decoder) data position chain truly_guessed k :
  speculate fuel self data position = Ret (chain, truly_guessed, self') ->
  _chain_length_limit self = Some (S k) -> length chain <= S k.
Proof.
  unfold speculate. intros Hrun Hlimit.
  case_bool_decide; [injection Hrun as <- _; simpl; lia|].
  destruct (attempts self data position 0 _ ∅) as [[results self1]| |] eqn:Hatt; [|done..].
  apply attempts_without_statistics in Hatt
    as (_ & _ & _ & _ & _ & _ & Hlimit1)%without_statistics_fields.
  cbn [mbind Res_mbind Res_bind] in Hrun. rewrite Hlimit1, Hlimit in Hrun.
  destruct (results !! 0).
  - destruct (chain_loop fuel results 0 []) as [sequence| |]; [|done..].
    injection Hrun as <- _. rewrite length_take. lia.
  - injection Hrun as <- _. simpl. lia.
Qed.

(** What a round that commits has in hand. *)
Lemma speculate_chain fuel (self self' : decoder) data position first rest truly_guessed :
  speculate fuel self data position = Ret (first :: rest, truly_guessed, self') ->
  let chain := first :: rest in
  position < length data
  /\ Forall (fun r => is_Some (SingleDecodingResult.symbol r)
                      /\ 1 <= SingleDecodingResult.length r) chain
  /\ length chain <= length (_decoders self)
  /\ position + sum_list (SingleDecodingResult.length <$> chain) <= length data.
Proof.
  intros Hspec chain. pose proof Hspec as Hinv.
  apply speculate_inv in Hinv
    as [(_ & ? & _) | (Hpos & results & Hatt & Hok & Hchain & _ & _)]; [done|].
  pose proof (chain_from_committed _ _ _ _ _ _ Hok Hchain) as Hcommitted.
  assert (Forall (fun r : SDR => 1 <= SingleDecodingResult.length r) chain) as Hlens.
  { eapply Forall_impl; [exact Hcommitted|]. by intros r (_ & _ & ?). }
  split; [done|]. split.
  { eapply Forall_impl; [exact Hcommitted|]. by intros r (_ & ? & ?). }
  split.
  - pose proof (chain_from_length _ _ _ Hchain Hlens) as Hlen.
    apply attempts_size in Hatt. rewrite map_size_empty in Hatt.
    eapply Nat.le_trans; [exact Hlen|]. eapply Nat.le_trans; [exact Hatt|]. lia.
  - pose proof (chain_from_inside _ _ _ _ _ _ Hok Hchain ltac:(done)) as Hin.
    subst chain. lia.
Qed.

(** What a returning run of the loop of [decode] has done: the trees of the
    decoders, the width and the chain limit are as before; the position has
    not gone back nor beyond the data; every round that committed appended
    its commit count, and at most one more round was tried, the one that
    found nothing. *)
Lemma decode_loop_inv fuel (self self' : decoder) data (out out' : locals) :
  decode_loop fuel self data out = Ret (out', self') ->
  SingleDecoder.reset_statistics <$> _decoders self'
  = SingleDecoder.reset_statistics <$> _decoders self
  /\ _speculation_width self' = _speculation_width self
  /\ _chain_length_limit self' = _chain_length_limit self
  /\ _current_position self <= _current_position self'
  /\ (_current_position self <= length data -> _current_position self' <= length data)
  /\ exists (commits : list nat) (extra : nat),
       commited_codewords out' = commited_codewords out ++ commits
       /\ Forall (fun c => c <= length (_decoders self)
                           /\ forall k, _chain_length_limit self = Some (S k) -> c <= S k)
                 commits
       /\ tries out' = tries out + (_speculation_width self + 1) * (length commits + extra)
       /\ (extra = 0 /\ length data <= _current_position self'
           \/ extra = 1 /\ _current_position self' < length data
              /\ exists f tg before,
                   without_statistics before = without_statistics self'
                   /\ speculate f before data (_current_position self')
                      = Ret ([], tg, self')).
Proof.
  assert (forall (self : decoder) (out : locals),
    ~ _current_position self < length data ->
    SingleDecoder.reset_statistics <$> _decoders self
    = SingleDecoder.reset_statistics <$> _decoders self
    /\ _speculation_width self = _speculation_width self
    /\ _chain_length_limit self = _chain_length_limit self
    /\ _current_position self <= _current_position self
    /\ (_current_position self <= length data -> _current_position self <= length data)
    /\ exists (commits : list nat) (extra : nat),
         commited_codewords out = commited_codewords out ++ commits
         /\ Forall (fun c => c <= length (_decoders self)
                             /\ forall k, _chain_length_limit self = Some (S k) -> c <= S k)
                   commits
         /\ tries out = tries out + (_speculation_width self + 1) * (length commits + extra)
         /\ (extra = 0 /\ length data <= _current_position self
             \/ extra = 1 /\ _current_position self < length data
                /\ exists f tg before,
                     without_statistics before = without_statistics self
                     /\ speculate f before data (_current_position self)
                        = Ret ([], tg, self)))
    as Hdone.
  { intros s o Hpos. repeat split; try done. exists [], 0.
    rewrite app_nil_r. repeat split; [constructor|simpl; lia|]. left.
    split; [done|lia]. }
  revert self out. induction fuel as [|fuel IH]; intros self out; simpl.
  { case_bool_decide as Hpos; [done|]. intros [= <- <-]. by apply Hdone. }
  case_bool_decide as Hpos; [|intros [= <- <-]; by apply Hdone].
  destruct (speculate (S fuel) self data (_current_position self))
    as [[[chain tg] self1]| |] eqn:Hspec; [|done..].
  pose proof (speculate_without_statistics _ _ _ _ _ _ _ Hspec) as Hframe.
  pose proof Hframe as (Hd1 & Hlen1 & Hw1 & _ & _ & Hpos1 & Hlimit1)%without_statistics_fields.
  cbn [mbind Res_mbind Res_bind]. destruct chain as [|first rest].
  { intros [= <- <-]. repeat split; try done; try lia. exists [], 1. simpl.
    rewrite app_nil_r. repeat split; [constructor|lia|]. right.
    split; [done|]. split; [lia|]. exists (S fuel), tg, self. by rewrite Hpos1. }
  destruct (speculate_chain _ _ _ _ _ _ _ _ Hspec) as (_ & _ & Hlen & Hinside).
  destruct (foldl commit (decoded_symbols out, _predictor self1) (first :: rest))
    as [decoded predictor].
  intros Hrun. apply IH in Hrun. cbn [_decoders _speculation_width _chain_length_limit
    _current_position commited_codewords tries] in Hrun.
  destruct Hrun as (Hd & Hw & Hl & Hge & Hle & commits & extra & Hcommits & Hall & Htries & Hend).
  split; [by rewrite Hd|]. split; [by rewrite Hw|]. split; [by rewrite Hl|].
  split; [lia|]. split; [intros _; apply Hle; lia|].
  exists (length (first :: rest) :: commits), extra.
  split; [by rewrite Hcommits, <- app_assoc|]. split.
  { constructor.
    - split; [done|]. intros k Hk. by eapply speculate_limit.
    - rewrite Hlen1, Hlimit1 in Hall. done. }
  split; [rewrite Htries, Hw1; simpl; lia|]. done.
Qed.

Lemma sum_list_bounded (l : list nat) (bound : nat) :
  Forall (fun c => c <= bound) l -> sum_list l <= bound * length l.
Proof. induction 1 as [|c l Hc _ IH]; simpl; lia. Qed.

(** The efficiency of a decoder as [__init__] builds it, with one single
    decoder more than the width: a round commits at most [w + 1] codewords,
    and at most the chain limit when there is one; [tries] counts [w + 1]
    for every round that committed and for at most one more round; so
    [successes] never exceeds [tries]. *)
Theorem decode_efficiency fuel (self self' : decoder) (data : list ascii) (out : tally) :
  length (_decoders self) = _speculation_width self + 1 ->
  decode fuel self data = Ret (out, self') ->
  let w := _speculation_width self in
  Forall (fun c => 1 <= c <= w + 1
                   /\ forall k, _chain_length_limit self = Some (S k) -> c <= S k)
         (commited_codewords out)
  /\ (tries out = (w + 1) * length (commited_codewords out)
      \/ tries out = (w + 1) * S (length (commited_codewords out)))
  /\ successes out <= tries out.
Proof.
  intros Hdecoders (loc & Hrun & _ & -> & -> & -> & _)%decode_inv w.
  destruct (decode_loop_tallies fuel self self' data
              {| decoded_symbols := []; successes := 0; tries := 0;
                 commited_codewords := []; truly_predicted := [] |} loc)
    as (Hsum & _ & _ & Hpos & _); [|exact Hrun|].
  { unfold tallies_agree. simpl. by repeat split. }
  apply decode_loop_inv in Hrun
    as (_ & _ & _ & _ & _ & commits & extra & Hcommits & Hall & Htries & Hend).
  simpl in Hcommits, Htries. subst commits. rewrite Hdecoders in Hall. fold w in Hall, Htries.
  assert (Forall (fun c => c <= w + 1) (commited_codewords loc)) as Hbound.
  { eapply Forall_impl; [exact Hall|]. by intros c [? _]. }
  apply sum_list_bounded in Hbound.
  split; [|split].
  - apply Forall_forall. intros c Hc.
    eapply Forall_forall in Hall; [|exact Hc]. eapply Forall_forall in Hpos; [|exact Hc].
    destruct Hall as [? ?]. repeat split; [lia | lia | done].
  - destruct Hend as [[-> _] | (-> & _)]; [left | right]; lia.
  - rewrite Hsum, Htries. nia.
Qed.

(** Where [decode] stops, for a decoder on the tree [T] that starts inside
    the data: the position has not gone back nor beyond the data, and when it
    is short of the end, no codeword of [T] can be read there. *)
Theorem decode_stops (T : Node Sym) fuel (self self' : decoder) (data : list ascii)
    (out : tally) :
  decoders_of T self ->
  _current_position self <= length data ->
  decode fuel self data = Ret (out, self') ->
  _current_position self <= _current_position self' <= length data
  /\ (_current_position self' < length data ->
      SingleDecodingResult.was_decoded
        (SingleDecoder.decode (SingleDecoder.init T) data (_current_position self')).1
      = false).
Proof.
  intros Hdecs Hstart (loc & Hrun & _)%decode_inv.
  apply decode_loop_inv in Hrun
    as (Hd & Hw & _ & Hge & Hle & commits & extra & _ & _ & _ & Hend).
  split; [split; [done | by apply Hle]|]. intros Hshort.
  destruct Hend as [[_ ?] | (_ & _ & f & tg & before & Hbefore & Hspec)]; [lia|].
  apply speculate_inv in Hspec as [(? & _) | (_ & results & Hatt & _ & _ & Hnil & _)]; [lia|].
  cbn [SingleDecoder.decode fst].
  eapply attempts_first_failed; [|exact Hshort|exact Hatt|by apply Hnil].
  apply (decoders_of_without_statistics T self'); [done|].
  unfold decoders_of in *. by rewrite Hd, Hw.
Qed.


(** After [flush] the decoder can be used again, although its predictor has
    moved on: on a decoder of the tree [T] with a predictor that honours the
    width, and a bit string that [HuffmanCode.decode] decodes to [symbols],
    [decode] after [decode] and [flush] answers [bytes(symbols)]; it returns
    the byte values when every symbol has one. *)
Theorem flush_then_decode (T : Node Sym) fuel (self self' : decoder) (data : list ascii)
    (out : tally) (symbols : list Sym) :
  honours_width ->
  decoders_of T self ->
  is_bit_string data ->
  HuffmanCode.decode data T = Ret symbols ->
  length data < fuel ->
  decode fuel self data = Ret (out, self') ->
  (fun answer => decoded_symbols answer.1) <$> decode fuel (flush self') data
  = bytes symbols
  /\ forall packed, Forall2 byte_value symbols packed ->
       exists out_again self_again,
         decode fuel (flush self') data = Ret (out_again, self_again)
         /\ decoded_symbols out_again = packed.
Proof.
  intros Hwidth Hdecs Hbits Hdec Hfuel (loc & Hrun & _)%decode_inv.
  apply decode_loop_inv in Hrun as (Hd & Hw & _).
  assert ((fun answer => decoded_symbols answer.1) <$> decode fuel (flush self') data
          = bytes symbols) as Hbytes.
  { apply (decode_answers_bytes T); try done; [|simpl; lia].
    unfold decoders_of in *. simpl. by rewrite Hd, Hw. }
  split; [done|]. by apply answers_bytes.
Qed.

End efficiency_facts.

Lemma S1_decode_run :
  SpeculativeDecoder.decode 10 S1_decoder S1_bits = Ret (S1_output, S1_final).
Proof. vm_compute. reflexivity. Qed.

Lemma decode_efficiency_witness :
  Forall (fun c => 1 <= c <= 2 + 1
                   /\ forall k, (None : option nat) = Some (S k) -> c <= S k)
         (SpeculativeDecoder.commited_codewords S1_output)
  /\ (SpeculativeDecoder.tries S1_output
      = (2 + 1) * length (SpeculativeDecoder.commited_codewords S1_output)
      \/ SpeculativeDecoder.tries S1_output
         = (2 + 1) * S (length (SpeculativeDecoder.commited_codewords S1_output)))
  /\ SpeculativeDecoder.successes S1_output <= SpeculativeDecoder.tries S1_output.
Proof.
  apply (decode_efficiency 10 S1_decoder S1_final S1_bits S1_output);
    [reflexivity | exact S1_decode_run].
Defined.

Lemma decode_stops_witness :
  SpeculativeDecoder._current_position S1_decoder
  <= SpeculativeDecoder._current_position S1_final <= length S1_bits
  /\ (SpeculativeDecoder._current_position S1_final < length S1_bits ->
      SingleDecodingResult.was_decoded
        (SingleDecoder.decode (SingleDecoder.init S1_tree) S1_bits
           (SpeculativeDecoder._current_position S1_final)).1
      = false).
Proof.
  apply (decode_stops S1_tree 10 S1_decoder S1_final S1_bits S1_output);
    [reflexivity | simpl; lia | exact S1_decode_run].
Defined.

(** A string that ends inside a codeword: the decoder stops short of the
    end, where nothing can be decoded. *)
Example decode_stops_short :
  (snd <$> SpeculativeDecoder.decode 10 S1_decoder (list_ascii_of_string "0101"))
  = Ret (SpeculativeDecoder.mk
           [SingleDecoder.mk S1_tree None (DecodingStatistics.mk 2 1 1 2 0);
            SingleDecoder.mk S1_tree None (DecodingStatistics.mk 1 1 0 2 0);
            SingleDecoder.mk S1_tree None (DecodingStatistics.mk 1 1 0 1 0)]
           2 (StaticPredictor.mk [1; 2]) (Some 97) 3 None).
Proof. vm_compute. reflexivity. Qed.

(** Called again there, [decode] tries one more round: nothing is committed,
    and the first single decoder has counted one more failure. *)
Example decode_again_counts :
  (answer ← SpeculativeDecoder.decode 10 S1_decoder (list_ascii_of_string "0101");
   SpeculativeDecoder.decode 10 answer.2 (list_ascii_of_string "0101"))
  = Ret (SpeculativeDecoder.mk_output [] 0 3 [] [],
         SpeculativeDecoder.mk
           [SingleDecoder.mk S1_tree None (DecodingStatistics.mk 3 1 2 3 0);
            SingleDecoder.mk S1_tree None (DecodingStatistics.mk 1 1 0 2 0);
            SingleDecoder.mk S1_tree None (DecodingStatistics.mk 1 1 0 1 0)]
           2 (StaticPredictor.mk [1; 2]) (Some 97) 3 None).
Proof. vm_compute. reflexivity. Qed.


Lemma flush_then_decode_witness :
  (fun answer => SpeculativeDecoder.decoded_symbols answer.1)
    <$> SpeculativeDecoder.decode 10 (SpeculativeDecoder.flush S1_final) S1_bits
  = bytes S1_data
  /\ forall packed, Forall2 byte_value S1_data packed ->
       exists out_again self_again,
         SpeculativeDecoder.decode 10 (SpeculativeDecoder.flush S1_final) S1_bits
         = Ret (out_again, self_again)
         /\ SpeculativeDecoder.decoded_symbols out_again = packed.
Proof.
  apply (flush_then_decode S1_tree 10 S1_decoder S1_final S1_bits S1_output S1_data).
  - exact StaticPredictor_honours_width.
  - reflexivity.
  - repeat constructor.
  - reflexivity.
  - simpl. lia.
  - exact S1_decode_run.
Defined.

(** ** Integers within [int64] *)

Lemma wrap_int64_fits (x : Z) : fits_int64 x -> wrap_int64 x = x.
Proof.
  unfold fits_int64, wrap_int64. intros Hx. rewrite Z.mod_small; lia.
Qed.

Lemma wrap_int64_add (x y : Z) : wrap_int64 (wrap_int64 x + y) = wrap_int64 (x + y).
Proof.
  unfold wrap_int64. f_equal.
  replace (((x + 2 ^ 63) mod 2 ^ 64 - 2 ^ 63 + y + 2 ^ 63))%Z
    with ((x + 2 ^ 63) mod 2 ^ 64 + y)%Z by lia.
  rewrite Zplus_mod_idemp_l. f_equal. lia.
Qed.

(** Entries in [[-2**62, 2**62)] are enough. *)
Lemma int64_differences_narrow (l_vec : list Z) :
  Forall (fun x => - 2 ^ 62 <= x < 2 ^ 62)%Z l_vec -> int64_differences l_vec.
Proof.
  intros Hall. split.
  - eapply Forall_impl; [exact Hall|]. unfold fits_int64. intros x. simpl. lia.
  - intros x y Hx Hy. rewrite Forall_forall in Hall.
    pose proof (Hall x Hx). pose proof (Hall y Hy). unfold fits_int64. lia.
Qed.

Lemma int64_differences_shift (l_vec : list Z) (li : Z) (k : nat) :
  int64_differences l_vec -> li ∈ l_vec ->
  int64_differences ((fun x => (x - li)%Z) <$> drop k l_vec).
Proof.
  intros [_ Hdiff] Hli.
  assert (forall x, x ∈ (fun x => (x - li)%Z) <$> drop k l_vec ->
                    exists x0, x = (x0 - li)%Z /\ x0 ∈ l_vec) as Hin.
  { intros x (x0 & -> & Hx0)%list_elem_of_fmap. exists x0. split; [done|].
    apply list_elem_of_lookup in Hx0 as [j Hj]. rewrite lookup_drop in Hj.
    by eapply list_elem_of_lookup_2. }
  split.
  - apply Forall_forall. intros x (x0 & -> & Hx0)%Hin. by apply Hdiff.
  - intros x y (x0 & -> & Hx0)%Hin (y0 & -> & Hy0)%Hin.
    replace (x0 - li - (y0 - li))%Z with (x0 - y0)%Z by lia. by apply Hdiff.
Qed.

(** ** Sorting, and what [expectation_sorted] reads *)

Section sorted_facts.
Context {A : Type} (lt : A -> A -> bool).

(** [sorted] puts no element after one that is less than it, for an order
    [lt] that is asymmetric and whose complement is transitive. *)
Hypothesis lt_asym : forall x y, lt x y = true -> lt y x = false.
Hypothesis ge_trans : forall x y z, lt y x = false -> lt z y = false -> lt z x = false.

Lemma py_insert_sorted (x : A) (l : list A) :
  StronglySorted (fun a b => lt b a = false) l ->
  StronglySorted (fun a b => lt b a = false) (py_insert lt x l).
Proof.
  induction 1 as [|y l Hl IH Hy]; simpl.
  - repeat constructor.
  - destruct (lt y x) eqn:Hyx.
    + constructor; [done|]. rewrite py_insert_perm. constructor; [by apply lt_asym | done].
    + constructor; [by constructor|]. constructor; [done|].
      eapply Forall_impl; [exact Hy|]. intros z Hz. simpl in Hz. by eapply ge_trans.
Qed.

Lemma py_sorted_sorted (l : list A) :
  StronglySorted (fun a b => lt b a = false) (py_sorted lt l).
Proof.
  induction l as [|x l IH]; [constructor|]. unfold py_sorted in *. simpl.
  by apply py_insert_sorted.
Qed.

End sorted_facts.

Lemma StronglySorted_weaken {A} (R1 R2 : relation A) (l : list A) :
  (forall x y, R1 x y -> R2 x y) -> StronglySorted R1 l -> StronglySorted R2 l.
Proof.
  intros Himpl. induction 1 as [|x l _ IH Hx]; constructor; [done|].
  eapply Forall_impl; [exact Hx|]. intros y. apply Himpl.
Qed.

Lemma py_sorted_Z_sorted (l : list Z) : StronglySorted Z.le (py_sorted Z.ltb l).
Proof.
  apply (StronglySorted_weaken (fun a b => (b <? a)%Z = false)); [intros a b; lia|].
  apply py_sorted_sorted.
  - intros x y Hxy. lia.
  - intros x y z Hyx Hzy. lia.
Qed.

(** Sorting two arrangements of the same integers gives the same tuple. *)
Lemma py_sorted_Z_perm (l l' : list Z) : l ≡ₚ l' -> py_sorted Z.ltb l = py_sorted Z.ltb l'.
Proof.
  intros Hperm. apply (Sorted_unique Z.le).
  - apply StronglySorted_Sorted, py_sorted_Z_sorted.
  - apply StronglySorted_Sorted, py_sorted_Z_sorted.
  - by rewrite !py_sorted_perm.
Qed.

Section expectation_facts.
Context `{Number R}.
Import SimpleProbabilisticScheme SimpleStatisticalCalculations.

(** [p] only raises the [IndexError] of a probability that is missing. *)
Lemma p_outcome (self : t R) (o : Z) :
  returns (p self o) \/ p self o = Raise IndexError.
Proof.
  unfold p. destruct (list_find _ _) as [[i x]|]; [|left; by eexists].
  destruct (probabilities self !! i); [left; by eexists | by right].
Qed.

Lemma p_returns (self : t R) (o : Z) :
  length (outcomes self) <= length (probabilities self) -> returns (p self o).
Proof.
  intros Hlen. unfold p.
  destruct (list_find _ _) as [[i x]|] eqn:Hfind; [|by eexists].
  apply list_find_Some in Hfind as (Hi & _ & _). apply lookup_lt_Some in Hi.
  destruct (lookup_lt_is_Some_2 (probabilities self) i) as [pr ->]; [lia|]. by eexists.
Qed.

Lemma for_each_returns {S A} (body : S -> A -> Res S) (s : S) (xs : list A) :
  (forall s x, x ∈ xs -> returns (body s x)) -> returns (for_each body s xs).
Proof.
  revert s. induction xs as [|x xs IH]; intros s Hbody; simpl; [by eexists|].
  destruct (Hbody s x) as [s' ->]; [constructor|]. simpl.
  apply IH. intros s'' y Hy. apply Hbody. by constructor.
Qed.

Lemma shift_length (l_vec : list Z) (i : nat) (li : Z) :
  length (shift l_vec i li) = length l_vec - (i + 1).
Proof. unfold shift. by rewrite length_drop, length_fmap. Qed.

Lemma expectation_sorted_short (self : t R) (w : nat) (l_vec : list Z) :
  length l_vec < w -> expectation_sorted self w l_vec = Raise IndexError.
Proof.
  revert l_vec. induction w as [w IH] using lt_wf_ind. intros l_vec Hlen.
  destruct w as [|w]; [lia|]. simp expectation_sorted. cbn [seq for_each].
  destruct l_vec as [|l0 l_vec]; [done|]. cbn [lookup list_lookup].
  cbv zeta. simpl in Hlen.
  destruct (p_outcome self l0) as [[pr ->] | ->]; [|done].
  cbn [mbind Res_mbind Res_bind]. rewrite IH; [done|lia|].
  rewrite shift_length. simpl. lia.
Qed.

Lemma expectation_sorted_long (self : t R) (w : nat) (l_vec : list Z) :
  length (outcomes self) <= length (probabilities self) ->
  w <= length l_vec -> returns (expectation_sorted self w l_vec).
Proof.
  intros Hscheme. revert l_vec. induction w as [w IH] using lt_wf_ind. intros l_vec Hlen.
  destruct w as [|w]; simp expectation_sorted; [by eexists|].
  apply for_each_returns. intros res i Hi. apply elem_of_seq in Hi.
  destruct (lookup_lt_is_Some_2 l_vec i) as [li ->]; [lia|]. cbv zeta.
  destruct (p_returns self li Hscheme) as [pr ->]. cbn [mbind Res_mbind Res_bind].
  destruct (IH (S w - (i + 1)) ltac:(lia) (shift l_vec i li)) as [e ->].
  { rewrite shift_length. lia. }
  by eexists.
Qed.

(** [expectation_sorted(w, l_vec)] reads the first [w] entries of [l_vec]:
    on a shorter vector it raises [IndexError], whatever the scheme is; on a
    vector of [w] entries or more it returns, for a scheme that has a
    probability for every outcome. *)
Theorem expectation_sorted_returns (self : t R) (w : nat) (l_vec : list Z) :
  (length l_vec < w -> expectation_sorted self w l_vec = Raise IndexError)
  /\ (length (outcomes self) <= length (probabilities self) ->
      w <= length l_vec -> returns (expectation_sorted self w l_vec)).
Proof. split; [apply expectation_sorted_short | apply expectation_sorted_long]. Qed.

Lemma shift_take (l_vec : list Z) (w i : nat) (li : Z) :
  i < w -> shift (take w l_vec) i li = take (w - (i + 1)) (shift l_vec i li).
Proof.
  intros Hi. unfold shift. rewrite fmap_take, take_drop_commute.
  by replace (i + 1 + (w - (i + 1))) with w by lia.
Qed.

Lemma expectation_sorted_take (self : t R) (w : nat) (l_vec : list Z) :
  expectation_sorted self w (take w l_vec) = expectation_sorted self w l_vec.
Proof.
  revert l_vec. induction w as [w IH] using lt_wf_ind. intros l_vec.
  destruct w as [|w]; simp expectation_sorted; [done|].
  apply for_each_ext. intros res i Hi%elem_of_seq.
  rewrite lookup_take_lt by lia. destruct (l_vec !! i) as [li|]; [|done]. cbv zeta.
  rewrite shift_take by lia. by rewrite IH by lia.
Qed.

(** Only the first [w] entries of the vector count: on two vectors with
    the same first [w] entries, [expectation_sorted] gives the same answer.
    The vectors are such that numpy computes on them exactly: their entries
    and the differences of their entries fit [int64] (beyond that the type
    and the wrap-around of the array depend on all its entries). *)
Theorem expectation_sorted_prefix (self : t R) (w : nat) (l_vec l_vec' : list Z) :
  int64_differences l_vec -> int64_differences l_vec' ->
  take w l_vec = take w l_vec' ->
  expectation_sorted self w l_vec = expectation_sorted self w l_vec'.
Proof.
  intros _ _ Heq. by rewrite <- (expectation_sorted_take self w l_vec), Heq,
    expectation_sorted_take.
Qed.

(** [score] sorts the vector first: it does not depend on the order in
    which the entries are given. *)
Theorem score_permutation (self : t R) (w : nat) (l_vec l_vec' : list Z) :
  l_vec ≡ₚ l_vec' -> score self w l_vec = score self w l_vec'.
Proof. intros Hperm. unfold score. by rewrite (py_sorted_Z_perm l_vec l_vec'). Qed.

End expectation_facts.

Lemma expectation_sorted_returns_witness :
  SimpleStatisticalCalculations.expectation_sorted S4_scheme_Qc 3 [1; 2]%Z = Raise IndexError
  /\ returns (SimpleStatisticalCalculations.expectation_sorted S4_scheme_Qc 2 [1; 2]%Z).
Proof.
  split.
  - apply (proj1 (expectation_sorted_returns S4_scheme_Qc 3 [1; 2]%Z)). simpl. lia.
  - apply (proj2 (expectation_sorted_returns S4_scheme_Qc 2 [1; 2]%Z)); simpl; lia.
Defined.

Lemma expectation_sorted_prefix_witness :
  SimpleStatisticalCalculations.expectation_sorted S4_scheme_Qc 2 [1; 2; 7]%Z
  = SimpleStatisticalCalculations.expectation_sorted S4_scheme_Qc 2 [1; 2; 9]%Z.
Proof.
  apply (expectation_sorted_prefix S4_scheme_Qc 2); [| |reflexivity];
    apply int64_differences_narrow; repeat constructor; lia.
Defined.

Lemma score_permutation_witness :
  SimpleStatisticalCalculations.score S4_scheme_Qc 2 [2; 1]%Z
  = SimpleStatisticalCalculations.score S4_scheme_Qc 2 [1; 2]%Z.
Proof. apply (score_permutation S4_scheme_Qc 2). apply perm_swap. Defined.

(** ** The result of [greedy(w, 1)] *)

Section greedy_top_facts.
Context `{Number R}.
Context (get_scheme_for_sum : SimpleProbabilisticScheme.t R -> nat
                              -> Res (SimpleProbabilisticScheme.t R)).
Import SimpleProbabilisticScheme SimpleStatisticalCalculations.

Lemma mapM_Res_pairs {A B} (f : A -> Res B) (l : list A) (k : list (A * B)) :
  mapM (fun x => y ← f x; Ret (x, y)) l = Ret k -> k.*1 = l.
Proof.
  revert k. induction l as [|x l IH]; intros k; simpl.
  - by intros [= <-].
  - destruct (f x) as [y| |]; simpl; try done.
    destruct (mapM _ l) as [ys| |]; simpl; try done.
    intros [= <-]. simpl. f_equal. by apply IH.
Qed.

(** [get_top(n)] within the support: [n] of the stored outcomes. *)
Lemma get_top_within_support (self : t R) (n : nat) :
  length (outcomes self) <= length (probabilities self) ->
  n <= length (outcomes self) ->
  exists top, get_top self n = Ret top /\ length top = n /\ top ⊆+ outcomes self.
Proof.
  intros Hlen Hn. unfold get_top.
  destruct (mapM_Res_returns (fun o => pr ← p self o; Ret (o, pr)) (outcomes self))
    as [pairs Hpairs].
  { apply Forall_forall. intros o _. destruct (p_returns self o Hlen) as [pr ->]. by eexists. }
  rewrite Hpairs. cbn [mbind Res_mbind Res_bind].
  pose proof (mapM_Res_length _ _ _ Hpairs) as Hlength.
  apply mapM_Res_pairs in Hpairs.
  rewrite bool_decide_eq_false_2 by (rewrite py_sorted_length; lia).
  eexists. split; [done|]. split.
  - rewrite length_fmap, length_take, py_sorted_length. lia.
  - rewrite <- Hpairs. rewrite <- (py_sorted_perm (fun x y => ltb y.2 x.2) pairs) at 2.
    apply sublist_submseteq, fmap_sublist, sublist_take.
Qed.

(** [greedy(w, 1)]: with [w] beyond the number of outcomes it raises
    [ValueError]; otherwise it returns a vector of [w] of the stored
    outcomes, in increasing order, with the expectation of that vector as
    score. *)
Theorem greedy_depth_one_result (self : t R) (w : nat) :
  length (outcomes self) <= length (probabilities self) ->
  (length (outcomes self) < w ->
     SimpleOptimizer.greedy get_scheme_for_sum self w 1 = Raise ValueError)
  /\ (w <= length (outcomes self) ->
      exists score variant,
        SimpleOptimizer.greedy get_scheme_for_sum self w 1 = Ret (score, variant)
        /\ length variant = w
        /\ StronglySorted Z.le variant
        /\ variant ⊆+ outcomes self
        /\ expectation_sorted self w variant = Ret score).
Proof.
  intros Hlen. rewrite greedy_depth_one. split.
  - intros Hw. by rewrite get_top_beyond_support.
  - intros Hw. destruct (get_top_within_support self w Hlen Hw) as (top & -> & Htop & Hsub).
    cbn [mbind Res_mbind Res_bind]. cbv zeta.
    assert (py_sorted Z.ltb (py_sorted Z.ltb top) = py_sorted Z.ltb top) as ->.
    { apply py_sorted_Z_perm, py_sorted_perm. }
    destruct (expectation_sorted_long self w (py_sorted Z.ltb top) Hlen) as [score Hscore].
    { rewrite py_sorted_length. lia. }
    rewrite Hscore. exists score, (py_sorted Z.ltb top). split; [done|].
    split; [by rewrite py_sorted_length|]. split; [apply py_sorted_Z_sorted|].
    split; [by rewrite py_sorted_perm | done].
Qed.

End greedy_top_facts.

Lemma greedy_depth_one_result_witness :
  (length (SimpleProbabilisticScheme.outcomes S4_scheme_Qc) < 2 ->
     SimpleOptimizer.greedy (fun s _ => Ret s) S4_scheme_Qc 2 1 = Raise ValueError)
  /\ (2 <= length (SimpleProbabilisticScheme.outcomes S4_scheme_Qc) ->
      exists score variant,
        SimpleOptimizer.greedy (fun s _ => Ret s) S4_scheme_Qc 2 1 = Ret (score, variant)
        /\ length variant = 2
        /\ StronglySorted Z.le variant
        /\ variant ⊆+ SimpleProbabilisticScheme.outcomes S4_scheme_Qc
        /\ SimpleStatisticalCalculations.expectation_sorted S4_scheme_Qc 2 variant
           = Ret score).
Proof. apply (greedy_depth_one_result (fun s _ => Ret s) S4_scheme_Qc 2). simpl. lia. Defined.

(** On the scheme of scenario S4, [greedy(2, 1)] picks the lengths 1 and 2. *)
Example greedy_S4 :
  (snd <$> SimpleOptimizer.greedy (fun s _ => Ret s) S4_scheme_Qc 2 1) = Ret [1; 2]%Z.
Proof. vm_compute. reflexivity. Qed.

(** ** Requests that the baseline set and the conditional calculator serve *)

Lemma StronglySorted_take {A} (R : relation A) (l : list A) (n : nat) :
  StronglySorted R l -> StronglySorted R (take n l).
Proof.
  intros Hs. revert n. induction Hs as [|x l _ IH Hx]; intros [|n]; simpl; try constructor.
  - apply IH.
  - apply Forall_take, Hx.
Qed.

Lemma StronglySorted_strict (l : list Z) :
  StronglySorted Z.le l -> NoDup l -> StronglySorted Z.lt l.
Proof.
  induction 1 as [|x l _ IH Hx]; intros Hnd; constructor.
  - apply IH. by apply NoDup_cons in Hnd as [_ ?].
  - apply NoDup_cons in Hnd as [Hfresh _]. apply Forall_forall. intros y Hy.
    eapply Forall_forall in Hx; [|exact Hy].
    assert (x <> y) by (intros ->; done). lia.
Qed.

Section baseline_returns.
Import VariantsGenerator.

Lemma sums_inner_mono (lengths : list Z) (l_r : Z) (acc : gset Z) :
  acc ⊆ foldl (fun res l_base => res ∪ {[ (l_base + l_r)%Z ]}) acc lengths.
Proof.
  revert acc. induction lengths as [|l lengths IH]; intros acc; simpl; [done|].
  etrans; [|apply IH]. apply union_subseteq_l.
Qed.

Lemma sums_inner_elem (lengths : list Z) (l_r l_base : Z) (acc : gset Z) :
  l_base ∈ lengths ->
  (l_base + l_r)%Z ∈ foldl (fun res l_base => res ∪ {[ (l_base + l_r)%Z ]}) acc lengths.
Proof.
  intros Hin. revert acc. induction Hin as [l lengths|l l' lengths _ IH]; intros acc; simpl.
  - apply (sums_inner_mono lengths l_r). apply elem_of_union_r. by apply elem_of_singleton.
  - apply IH.
Qed.

Lemma sums_outer_mono (lengths sums : list Z) (acc : gset Z) :
  acc ⊆ foldl (fun res l_r =>
                 foldl (fun res l_base => res ∪ {[ (l_base + l_r)%Z ]}) res lengths) acc sums.
Proof.
  revert acc. induction sums as [|l_r sums IH]; intros acc; simpl; [done|].
  etrans; [|apply IH]. apply sums_inner_mono.
Qed.

Lemma sums_outer_elem (lengths sums : list Z) (l_r l_base : Z) (acc : gset Z) :
  l_r ∈ sums -> l_base ∈ lengths ->
  (l_base + l_r)%Z
  ∈ foldl (fun res l_r =>
             foldl (fun res l_base => res ∪ {[ (l_base + l_r)%Z ]}) res lengths) acc sums.
Proof.
  intros Hin Hbase. revert acc.
  induction Hin as [l_r sums|l_r l_r' sums _ IH]; intros acc; simpl.
  - apply (sums_outer_mono lengths sums). by apply sums_inner_elem.
  - apply IH.
Qed.

(** [k] times a stored length is a sum of [k] lengths. *)
Lemma _get_j_set_multiple (self : t) (l : Z) (k : nat) :
  l ∈ _lengths self -> (Z.of_nat k * l)%Z ∈ _get_j_set self k.
Proof.
  intros Hl. induction k as [|k IH].
  - simpl. rewrite Z.mul_0_l. constructor.
  - cbn [_get_j_set]. rewrite py_sorted_perm. apply elem_of_elements.
    replace (Z.of_nat (S k) * l)%Z with (l + Z.of_nat k * l)%Z by lia.
    by apply sums_outer_elem.
Qed.

Lemma baseline_union_mono (self : t) (ks : list nat) (acc : gset Z) :
  acc ⊆ foldl (fun result k => result ∪ list_to_set (_get_j_set self k)) acc ks.
Proof.
  revert acc. induction ks as [|k ks IH]; intros acc; simpl; [done|].
  etrans; [|apply IH]. apply union_subseteq_l.
Qed.

Lemma baseline_union_elem (self : t) (ks : list nat) (k : nat) (x : Z) (acc : gset Z) :
  k ∈ ks -> x ∈ _get_j_set self k ->
  x ∈ foldl (fun result k => result ∪ list_to_set (_get_j_set self k)) acc ks.
Proof.
  intros Hk Hx. revert acc. induction ks as [|k' ks IH]; intros acc; simpl.
  { by apply elem_of_nil in Hk. }
  apply elem_of_cons in Hk as [<-|Hk]; [|by apply IH].
  apply (baseline_union_mono self ks). apply elem_of_union_r. by apply elem_of_list_to_set.
Qed.

(** With a length that is not [0], the sums of up to [j] lengths are at
    least [j]. *)
Lemma baseline_union_size (self : t) (l : Z) (j : nat) :
  l ∈ _lengths self -> l <> 0%Z ->
  j <= size (foldl (fun result k => result ∪ list_to_set (_get_j_set self k))
                   (∅ : gset Z) (seq 1 j)).
Proof.
  intros Hl Hne.
  set (multiples := (fun k : nat => (Z.of_nat k * l)%Z) <$> seq 1 j).
  assert (NoDup multiples) as Hnd.
  { apply NoDup_fmap_2; [|apply NoDup_seq]. intros a b Hab. simpl in Hab.
    apply Z.mul_cancel_r in Hab; [lia|done]. }
  assert (size (list_to_set multiples : gset Z) = j) as Hsize.
  { rewrite size_list_to_set by done. unfold multiples. by rewrite length_fmap, length_seq. }
  rewrite <- Hsize at 1. apply subseteq_size. intros x Hx. apply elem_of_list_to_set in Hx.
  apply list_elem_of_fmap in Hx as (k & -> & Hk).
  eapply baseline_union_elem; [exact Hk|]. by apply _get_j_set_multiple.
Qed.

(** [get_baseline_set(n)] with a stored length that is not [0]: the
    recursion stops at [j = n] at the latest, and answers [n] sums in
    strictly increasing order. *)
Theorem get_baseline_set_returns (self : t) (l : Z) (fuel n j : nat) :
  l ∈ _lengths self -> l <> 0%Z -> n - j < fuel ->
  exists v, get_baseline_set fuel self n j = Ret v
            /\ length v = n /\ StronglySorted Z.lt v.
Proof.
  intros Hl Hne. revert j. induction fuel as [|fuel IH]; intros j Hfuel; [lia|].
  pose proof (baseline_union_size self l j Hl Hne) as Hsize. simpl.
  set (result := foldl (fun result k => result ∪ list_to_set (_get_j_set self k)) ∅ (seq 1 j))
    in *.
  case_bool_decide as Hshort.
  - apply IH. lia.
  - eexists. split; [done|]. split.
    + rewrite length_take, py_sorted_length.
      change (size result) with (length (elements result)) in Hshort. lia.
    + apply StronglySorted_take, StronglySorted_strict; [apply py_sorted_Z_sorted|].
      rewrite py_sorted_perm. apply NoDup_elements.
Qed.

End baseline_returns.

Section conditional_facts.
Context `{Number R}.
Import ConditionalProbabilisticScheme ConditionalStatisticalCalculations.

(** On a strictly increasing vector whose differences fit [int64] the
    entries that stay positive are the later ones. *)
Lemma positive_shift_sorted (l_vec : list Z) (i : nat) (li : Z) :
  StronglySorted Z.lt l_vec -> int64_differences l_vec -> l_vec !! i = Some li ->
  positive_shift l_vec li = (fun x => (x - li)%Z) <$> drop (i + 1) l_vec.
Proof.
  intros Hs [_ Hdiff] Hi.
  assert (li ∈ l_vec) as Hli by (by eapply list_elem_of_lookup_2).
  assert (positive_shift l_vec li
          = filter (fun x => (0 < x)%Z) ((fun x => (x - li)%Z) <$> l_vec)) as ->.
  { unfold positive_shift. f_equal. apply list_fmap_ext. intros j x Hx.
    apply wrap_int64_fits, Hdiff; [|done]. by eapply list_elem_of_lookup_2. }
  clear Hdiff Hli. revert i Hi.
  induction Hs as [|x l Hs IH Hx]; intros i Hi; [done|].
  rewrite fmap_cons. destruct i as [|i]; simpl in Hi.
  - injection Hi as ->. rewrite filter_cons_False by lia. simpl. rewrite drop_0.
    clear -Hx. induction Hx as [|y l Hy _ IHl]; [done|].
    rewrite fmap_cons, filter_cons_True by lia. by rewrite IHl.
  - assert (x < li)%Z.
    { eapply Forall_forall in Hx; [exact Hx|]. by eapply list_elem_of_lookup_2. }
    rewrite filter_cons_False by lia. by apply IH.
Qed.

(** The conditional calculator on a strictly increasing vector of [w]
    entries or more, with entries and differences that fit [int64]: it
    returns. *)
Theorem conditional_expectation_returns (self : t R) (w : nat) (l_vec context : list Z) :
  StronglySorted Z.lt l_vec -> int64_differences l_vec -> w <= length l_vec ->
  returns (expectation_sorted self w l_vec context).
Proof.
  revert l_vec context. induction w as [w IH] using lt_wf_ind.
  intros l_vec context Hs Hfits Hlen.
  destruct w as [|w]; simp expectation_sorted; [by eexists|].
  apply for_each_returns. intros res i Hi%elem_of_seq.
  destruct (lookup_lt_is_Some_2 l_vec i) as [li Hli]; [lia|]. rewrite Hli. cbv zeta.
  rewrite (positive_shift_sorted l_vec i li Hs Hfits Hli).
  destruct (IH (S w - i - 1) ltac:(lia) ((fun x => (x - li)%Z) <$> drop (i + 1) l_vec)
              (drop 1 context ++ [li])) as [e ->].
  - apply (StronglySorted_fmap _ Z.lt); [intros x y; lia|].
    by apply (StronglySorted_lookup_drop Z.lt l_vec i li).
  - apply int64_differences_shift; [done|]. by eapply list_elem_of_lookup_2.
  - rewrite length_fmap, length_drop. lia.
  - by eexists.
Qed.

End conditional_facts.

Lemma get_baseline_set_returns_witness :
  exists v, VariantsGenerator.get_baseline_set 5 (VariantsGenerator.mk [1; 2]%Z) 3 1 = Ret v
            /\ length v = 3 /\ StronglySorted Z.lt v.
Proof.
  apply (get_baseline_set_returns (VariantsGenerator.mk [1; 2]%Z) 1%Z 5 3 1).
  - simpl. constructor.
  - discriminate.
  - lia.
Defined.

Lemma conditional_expectation_returns_witness :
  returns (ConditionalStatisticalCalculations.expectation_sorted
             (ConditionalProbabilisticScheme.mk (∅ : gmap (list Z) (gmap Z Qc)))
             2 [1; 2]%Z []).
Proof.
  apply (conditional_expectation_returns
           (ConditionalProbabilisticScheme.mk (∅ : gmap (list Z) (gmap Z Qc))) 2 [1; 2]%Z []).
  - repeat constructor.
  - apply int64_differences_narrow. repeat constructor; lia.
  - simpl. lia.
Defined.

(** Where the differences do not fit [int64]: [(-2**63, 2**63 - 1)] is
    strictly increasing, the difference of its entries wraps around to
    [-1], the filter drops it, and the calculator raises [IndexError] at
    width 2. *)
Example conditional_expectation_wraps :
  ConditionalStatisticalCalculations.expectation_sorted
    (ConditionalProbabilisticScheme.mk (∅ : gmap (list Z) (gmap Z Qc)))
    2 [- 2 ^ 63; 2 ^ 63 - 1]%Z []
  = Raise IndexError.
Proof. vm_compute. reflexivity. Qed.

(** ** The [k]-gram model *)

Section counter_facts.
Context `{EqDecision K}.

Lemma counter_incr_get (d : list (K * nat)) (key key' : K) :
  counter_get (counter_incr d key) key'
  = counter_get d key' + (if bool_decide (key = key') then 1 else 0).
Proof.
  induction d as [|[k0 n] d IH]; simpl.
  - by destruct (bool_decide (key = key')).
  - destruct (bool_decide (k0 = key)) eqn:Hk0; simpl.
    + apply bool_decide_eq_true in Hk0. subst k0.
      destruct (bool_decide (key = key')); lia.
    + apply bool_decide_eq_false in Hk0.
      destruct (bool_decide (k0 = key')) eqn:Hk0'; [|done].
      apply bool_decide_eq_true in Hk0'. subst k0.
      rewrite bool_decide_eq_false_2 by done. lia.
Qed.

Lemma counter_incr_keys (d : list (K * nat)) (key key' : K) :
  key' ∈ (counter_incr d key).*1 <-> key' = key \/ key' ∈ d.*1.
Proof.
  induction d as [|[k0 n] d IH]; simpl.
  - rewrite list_elem_of_singleton, elem_of_nil. tauto.
  - destruct (bool_decide (k0 = key)) eqn:Hk0; simpl.
    + apply bool_decide_eq_true in Hk0. subst k0. rewrite !elem_of_cons. tauto.
    + rewrite !elem_of_cons, IH. tauto.
Qed.

Lemma counter_incr_NoDup (d : list (K * nat)) (key : K) :
  NoDup d.*1 -> NoDup (counter_incr d key).*1.
Proof.
  induction d as [|[k0 n] d IH]; simpl; intros Hnd.
  - apply NoDup_singleton.
  - apply NoDup_cons in Hnd as [Hfresh Hnd].
    destruct (bool_decide (k0 = key)) eqn:Hk0; simpl; [by constructor|].
    apply bool_decide_eq_false in Hk0. constructor; [|by apply IH].
    rewrite counter_incr_keys. intros [?|?]; done.
Qed.

Lemma counter_incr_sum (d : list (K * nat)) (key : K) :
  sum_list (counter_incr d key).*2 = S (sum_list d.*2).
Proof.
  induction d as [|[k0 n] d IH]; [done|]. cbn [counter_incr].
  destruct (bool_decide (k0 = key)); rewrite !fmap_cons; cbn [sum_list_with snd];
    [unfold id; lia|].
  rewrite IH. unfold id. lia.
Qed.

Lemma counter_get_present (d : list (K * nat)) (key : K) (n : nat) :
  NoDup d.*1 -> (key, n) ∈ d -> counter_get d key = n.
Proof.
  induction d as [|[k0 n0] d IH]; simpl; intros Hnd Hin; [by apply elem_of_nil in Hin|].
  apply NoDup_cons in Hnd as [Hfresh Hnd].
  apply elem_of_cons in Hin as [[= <- <-]|Hin]; [by rewrite bool_decide_eq_true_2|].
  rewrite bool_decide_eq_false_2; [by apply IH|].
  intros ->. apply Hfresh. apply list_elem_of_fmap. by exists (key, n).
Qed.

Lemma counter_get_absent (d : list (K * nat)) (key : K) :
  key ∉ d.*1 -> counter_get d key = 0.
Proof.
  induction d as [|[k0 n] d IH]; simpl; [done|]. intros Hkey.
  apply not_elem_of_cons in Hkey as [Hne Hkey].
  rewrite bool_decide_eq_false_2 by done. by apply IH.
Qed.

End counter_facts.

Lemma for_each_snoc {S A} (body : S -> A -> Res S) (s : S) (xs : list A) (x : A) :
  for_each body s (xs ++ [x]) = (s' ← for_each body s xs; body s' x).
Proof.
  revert s. induction xs as [|y xs IH]; intros s; simpl.
  - by destruct (body s x).
  - destruct (body s y); simpl; [apply IH | done..].
Qed.

Section k_gram_facts.
Import KGramModel.

Lemma later_grams_short (k : nat) (sample : list Z) :
  length sample <= k -> later_grams k sample = [].
Proof. intros Hlen. unfold later_grams. by replace (length sample - k) with 0 by lia. Qed.

Lemma later_grams_snoc (k : nat) (sample : list Z) (x : Z) :
  k <= length sample ->
  later_grams k (sample ++ [x])
  = later_grams k sample ++ [Some <$> drop (length sample + 1 - k) (sample ++ [x])].
Proof.
  intros Hlen. unfold later_grams. rewrite length_app. simpl.
  replace (length sample + 1 - k) with (S (length sample - k)) by lia.
  rewrite seq_S, fmap_app. simpl. f_equal.
  - apply list_fmap_ext. intros j i Hi. apply lookup_seq in Hi as [-> Hj].
    f_equal. rewrite drop_app_le by lia. rewrite take_app_le; [done|].
    rewrite length_drop. lia.
  - do 2 f_equal. apply take_ge. rewrite length_drop, length_app. simpl. lia.
Qed.

Lemma trained_init (k : nat) : 1 <= k -> trained k [] (init k).
Proof.
  intros Hk. split; simpl; try done.
  - by rewrite app_nil_r.
  - by rewrite bool_decide_eq_false_2 by lia.
  - constructor.
  - constructor.
Qed.

Lemma feed_trained (k : nat) (sample : list Z) (self : t) (x : Z) :
  1 <= k -> trained k sample self ->
  exists self', feed self x = Ret self' /\ trained k (sample ++ [x]) self'.
Proof.
  intros Hk [Hkk Hctx Hok Hfreq Hgrams Htotal Hout Hsyms Hdist Halpha].
  set (m := length sample) in *.
  set (padded := replicate k None ++ (Some <$> sample)) in *.
  assert (length padded = k + m) as Hpadded
    by (unfold padded; rewrite length_app, length_replicate, length_fmap; done).
  assert (drop (m + 1) (replicate k None ++ (Some <$> sample ++ [x]))
          = drop 1 (_context self) ++ [Some x]) as Hnext.
  { rewrite Hctx, drop_drop, fmap_app, app_assoc. fold padded.
    rewrite drop_app_le by lia. done. }
  unfold feed. destruct (_context self) as [|c0 context] eqn:Hcontext.
  { apply (f_equal length) in Hctx. rewrite length_drop, Hpadded in Hctx. simpl in Hctx. lia. }
  simpl in Hnext. rewrite ?drop_0 in Hnext. rewrite Hok. case_bool_decide as Hfull.
  - eexists. split; [done|]. split; simpl.
    + done.
    + by rewrite length_app, Nat.add_1_r, <- Nat.add_1_r.
    + rewrite length_app. simpl. symmetry. apply bool_decide_eq_true_2. lia.
    + intros gram. rewrite counter_incr_get, Hfreq, later_grams_snoc by done.
      rewrite filter_app, length_app. f_equal.
      assert (context ++ [Some x] = Some <$> drop (m + 1 - k) (sample ++ [x])) as ->.
      { rewrite <- Hnext. rewrite drop_app_ge by (rewrite length_replicate; lia).
        rewrite length_replicate, <- fmap_drop. done. }
      fold m. case_bool_decide as Heq.
      * by rewrite filter_cons_True.
      * rewrite filter_cons_False; [done|]. congruence.
    + by apply counter_incr_NoDup.
    + rewrite counter_incr_sum, Htotal, length_app. simpl. fold m. lia.
    + intros symbol. rewrite counter_incr_get, Hout, filter_app, length_app. f_equal.
      case_bool_decide as Heq.
      * by rewrite filter_cons_True.
      * rewrite filter_cons_False; [done|]. congruence.
    + intros symbol. rewrite counter_incr_keys, Hsyms, elem_of_app, list_elem_of_singleton.
      tauto.
    + by apply counter_incr_NoDup.
    + rewrite Halpha, list_to_set_app_L. simpl. by rewrite union_empty_r_L.
  - eexists. split; [done|]. split; simpl.
    + done.
    + by rewrite length_app, Nat.add_1_r, <- Nat.add_1_r.
    + rewrite length_app. simpl. fold m. apply bool_decide_ext.
      rewrite <- Hnext. split.
      * intros Hnone. destruct (decide (k <= m + 1)) as [?|Hlt]; [done|].
        exfalso. apply Hnone. apply list_elem_of_lookup. exists 0.
        rewrite lookup_drop, lookup_app_l by (rewrite length_replicate; lia).
        apply lookup_replicate_2. lia.
      * intros Hle Hnone. rewrite drop_app_ge in Hnone by (rewrite length_replicate; lia).
        apply list_elem_of_lookup in Hnone as [i Hi].
        rewrite lookup_drop, list_lookup_fmap in Hi.
        by destruct ((sample ++ [x]) !! _).
    + intros gram. rewrite Hfreq, !later_grams_short; [done|rewrite length_app; simpl|]; lia.
    + done.
    + rewrite Htotal, length_app. simpl. fold m. lia.
    + intros symbol. rewrite counter_incr_get, Hout, filter_app, length_app. f_equal.
      case_bool_decide as Heq.
      * by rewrite filter_cons_True.
      * rewrite filter_cons_False; [done|]. congruence.
    + intros symbol. rewrite counter_incr_keys, Hsyms, elem_of_app, list_elem_of_singleton.
      tauto.
    + by apply counter_incr_NoDup.
    + rewrite Halpha, list_to_set_app_L. simpl. by rewrite union_empty_r_L.
Qed.


Lemma train_trained (k : nat) (sample : list Z) :
  1 <= k -> exists self, train (init k) sample = Ret self /\ trained k sample self.
Proof.
  intros Hk. induction sample as [|x sample IH] using rev_ind.
  - exists (init k). split; [done|]. by apply trained_init.
  - destruct IH as (self & Hrun & Htrained).
    destruct (feed_trained k sample self x Hk Htrained) as (self' & Hfeed & Htrained').
    exists self'. split; [|done]. unfold train in *. by rewrite for_each_snoc, Hrun.
Qed.

(** [KGramModel(k)] with [k <= 0] has an empty context: the first [feed]
    raises [IndexError] at [self._context.pop(0)].  With [k >= 1] training
    returns on every sample. *)
Theorem train_returns (k : nat) (sample : list Z) :
  (k = 0 -> sample <> [] -> train (init k) sample = Raise IndexError)
  /\ (1 <= k -> returns (train (init k) sample)).
Proof.
  split.
  - intros -> Hne. by destruct sample.
  - intros Hk. destruct (train_trained k sample Hk) as (self & -> & _). by eexists.
Qed.

(** The frequencies of a model of order [k >= 1] trained on a sample: the
    count of a [k]-gram is the number of positions from [1] to [len - k]
    where it starts.  The [k]-gram at position [0], the first one that is
    complete, is not counted.  The counts add up to [len - k], and the
    context is left on the last [k] symbols. *)
Theorem train_frequencies (k : nat) (sample : list Z) :
  1 <= k ->
  exists self,
    train (init k) sample = Ret self
    /\ (forall gram, counter_get (_frequencies self) gram
                     = length (filter (eq gram) (later_grams k sample)))
    /\ NoDup (_frequencies self).*1
    /\ sum_list (_frequencies self).*2 = length sample - k
    /\ _context self = drop (length sample) (replicate k None ++ (Some <$> sample)).
Proof.
  intros Hk. destruct (train_trained k sample Hk) as (self & Hrun & Htrained).
  exists self. split; [done|]. by destruct Htrained.
Qed.

Lemma StronglySorted_lookup_lt {A} (rel : relation A) (l : list A) (i j : nat) (x y : A) :
  StronglySorted rel l -> i < j -> l !! i = Some x -> l !! j = Some y -> rel x y.
Proof.
  intros Hs. revert i j. induction Hs as [|z l _ IH Hz]; intros i j Hij Hi Hj; [done|].
  destruct i as [|i], j as [|j]; simpl in *; try lia.
  - injection Hi as ->. eapply Forall_forall in Hz; [exact Hz|].
    by eapply list_elem_of_lookup_2.
  - eapply (IH i j); [lia|done..].
Qed.

(** The outcomes of a trained model and their ranking: there is a list of
    the distinct symbols of the sample, ordered by count from the most
    frequent on, of which [most_frequent_outcomes(n)] is the first [n]
    entries for every [n]; [number_of_outcomes] is its length. *)
Theorem most_frequent_outcomes_ranking (k : nat) (sample : list Z) :
  1 <= k ->
  exists self ranking,
    train (init k) sample = Ret self
    /\ NoDup ranking
    /\ (forall symbol, symbol ∈ ranking <-> symbol ∈ sample)
    /\ (forall i j s s', i < j -> ranking !! i = Some s -> ranking !! j = Some s' ->
          length (filter (eq s') sample) <= length (filter (eq s) sample))
    /\ number_of_outcomes self = length ranking
    /\ forall n, most_frequent_outcomes self n = take n ranking.
Proof.
  intros Hk. destruct (train_trained k sample Hk) as (self & Hrun & Htrained).
  destruct Htrained as [_ _ _ _ _ _ Hout Hsyms Hdist _].
  set (items := _outcome_frequencies self) in *.
  set (ranked := py_sorted (fun x y : Z * nat => y.2 <? x.2) items).
  assert (ranked ≡ₚ items) as Hperm by apply py_sorted_perm.
  exists self, ranked.*1. split; [done|]. split; [by rewrite Hperm|]. split.
  { intros symbol. by rewrite Hperm. }
  split; [|split].
  - intros i j s s' Hij Hi Hj. rewrite list_lookup_fmap in Hi, Hj.
    destruct (ranked !! i) as [[s0 c]|] eqn:Hi'; [|done].
    destruct (ranked !! j) as [[s0' c']|] eqn:Hj'; [|done].
    simpl in Hi, Hj. injection Hi as ->. injection Hj as ->.
    assert (StronglySorted (fun a b : Z * nat => (a.2 <? b.2) = false) ranked) as Hsorted.
    { apply (py_sorted_sorted (fun x y : Z * nat => y.2 <? x.2)).
      - intros x y Hxy. apply Nat.ltb_lt in Hxy. apply Nat.ltb_ge. lia.
      - intros x y z Hyx Hzy. apply Nat.ltb_ge in Hyx, Hzy. apply Nat.ltb_ge. lia. }
    pose proof (StronglySorted_lookup_lt _ _ _ _ _ _ Hsorted Hij Hi' Hj') as Hle.
    simpl in Hle. apply Nat.ltb_ge in Hle.
    rewrite <- !Hout. fold items.
    rewrite (counter_get_present items s c), (counter_get_present items s' c'); try done.
    + rewrite <- Hperm. by eapply list_elem_of_lookup_2.
    + rewrite <- Hperm. by eapply list_elem_of_lookup_2.
  - unfold number_of_outcomes. fold items. by rewrite length_fmap, Hperm.
  - intros n. unfold most_frequent_outcomes. fold items. fold ranked. by rewrite fmap_take.
Qed.

End k_gram_facts.

Lemma train_returns_witness :
  KGramModel.train (KGramModel.init 0) [5%Z] = Raise IndexError
  /\ returns (KGramModel.train (KGramModel.init 2) [1; 2; 3]%Z).
Proof.
  split.
  - by apply (proj1 (train_returns 0 [5%Z])).
  - apply (proj2 (train_returns 2 [1; 2; 3]%Z)). lia.
Defined.

Lemma train_frequencies_witness :
  exists self,
    KGramModel.train (KGramModel.init 2) [1; 2; 3; 2; 3]%Z = Ret self
    /\ (forall gram, counter_get (KGramModel._frequencies self) gram
                     = length (filter (eq gram) (later_grams 2 [1; 2; 3; 2; 3]%Z)))
    /\ NoDup (KGramModel._frequencies self).*1
    /\ sum_list (KGramModel._frequencies self).*2 = length [1; 2; 3; 2; 3]%Z - 2
    /\ KGramModel._context self
       = drop (length [1; 2; 3; 2; 3]%Z)
              (replicate 2 None ++ (Some <$> [1; 2; 3; 2; 3]%Z)).
Proof. apply (train_frequencies 2 [1; 2; 3; 2; 3]%Z). lia. Defined.

(** On the sample [1, 2, 3, 2, 3] with [k = 2]: the 2-gram [(1, 2)] at
    position [0] is not counted, [(2, 3)] is counted twice and [(3, 2)]
    once. *)
Example train_skips_first_gram :
  (KGramModel._frequencies <$> KGramModel.train (KGramModel.init 2) [1; 2; 3; 2; 3]%Z)
  = Ret [([Some 2; Some 3]%Z, 2); ([Some 3; Some 2]%Z, 1)].
Proof. vm_compute. reflexivity. Qed.

Lemma most_frequent_outcomes_ranking_witness :
  exists self ranking,
    KGramModel.train (KGramModel.init 2) [1; 2; 3; 2; 3]%Z = Ret self
    /\ NoDup ranking
    /\ (forall symbol, symbol ∈ ranking <-> symbol ∈ [1; 2; 3; 2; 3]%Z)
    /\ (forall i j s s', i < j -> ranking !! i = Some s -> ranking !! j = Some s' ->
          length (filter (eq s') [1; 2; 3; 2; 3]%Z)
          <= length (filter (eq s) [1; 2; 3; 2; 3]%Z))
    /\ KGramModel.number_of_outcomes self = length ranking
    /\ forall n, KGramModel.most_frequent_outcomes self n = take n ranking.
Proof. apply (most_frequent_outcomes_ranking 2 [1; 2; 3; 2; 3]%Z). lia. Defined.

(** Ties keep the order of first occurrence: on [1, 2, 3, 2, 3] the two
    most frequent outcomes are [2] and [3]. *)
Example most_frequent_outcomes_ties :
  (m ← KGramModel.train (KGramModel.init 2) [1; 2; 3; 2; 3]%Z;
   Ret (KGramModel.most_frequent_outcomes m 2))
  = Ret [2; 3]%Z.
Proof. vm_compute. reflexivity. Qed.

(** ** The context of the dynamic predictor *)

Lemma DynamicPredictor_honours_width : @honours_width DynamicPredictor.t _.
Proof.
  intros p n. simpl. destruct (_ !! _); rewrite length_take; lia.
Qed.

(** [feed] keeps the context a window of the lengths fed last: a context of
    [k >= 1] entries stays at [k] entries, the last [k] of the old context
    followed by the lengths fed; an empty context grows to one entry, the
    length fed last.  The prediction table and the backup variant are not
    touched. *)
Theorem DynamicPredictor_feed_window (self : DynamicPredictor.t) (lengths : list nat) :
  let self' := foldl feed self lengths in
  DynamicPredictor._prediction_table self' = DynamicPredictor._prediction_table self
  /\ DynamicPredictor._backup_variant self' = DynamicPredictor._backup_variant self
  /\ DynamicPredictor._context self'
     = match DynamicPredictor._context self with
       | [] => match last lengths with Some current => [current] | None => [] end
       | _ => drop (length lengths) (DynamicPredictor._context self ++ lengths)
       end.
Proof.
  assert (forall (self : DynamicPredictor.t) (lengths : list nat),
    DynamicPredictor._context self <> [] ->
    let self' := foldl feed self lengths in
    DynamicPredictor._prediction_table self' = DynamicPredictor._prediction_table self
    /\ DynamicPredictor._backup_variant self' = DynamicPredictor._backup_variant self
    /\ DynamicPredictor._context self'
       = drop (length lengths) (DynamicPredictor._context self ++ lengths)) as Hwindow.
  { clear. intros self lengths. revert self.
    induction lengths as [|current lengths IH]; intros self Hne; cbn [foldl length].
    - by rewrite app_nil_r.
    - destruct (IH (feed self current)) as (Htable & Hbackup & Hctx).
      { simpl. by destruct (drop 1 _). }
      cbv zeta in *. rewrite Htable, Hbackup, Hctx. simpl. repeat split.
      destruct (DynamicPredictor._context self) as [|c context]; [done|]. simpl.
      rewrite drop_0. by rewrite <- app_assoc. }
  intros self'. subst self'.
  destruct (DynamicPredictor._context self) as [|c context] eqn:Hcontext.
  - destruct lengths as [|current lengths]; [simpl; by rewrite Hcontext|]. cbn [foldl].
    destruct (Hwindow (feed self current) lengths) as (Htable & Hbackup & Hctx).
    { simpl. by destruct (drop 1 _). }
    cbv zeta in *. rewrite Htable, Hbackup, Hctx. simpl. rewrite Hcontext. simpl.
    repeat split.
    clear. revert current. induction lengths as [|l lengths IH]; intros current; [done|].
    change (last (current :: l :: lengths)) with (last (l :: lengths)).
    rewrite <- (IH l). reflexivity.
  - rewrite <- Hcontext. apply Hwindow. by rewrite Hcontext.
Qed.

(** ** The variants of the generator *)

Section v_set_facts.
Import VariantsGenerator.

(** [itertools.combinations(pool, r)] yields the subsequences of [pool] of
    length [r]. *)
Lemma combinations_spec {A} (pool : list A) (r : nat) (c : list A) :
  c ∈ combinations pool r <-> c `sublist_of` pool /\ length c = r.
Proof.
  revert r c. induction pool as [|x pool IH]; intros [|r] c; simpl.
  - rewrite list_elem_of_singleton, sublist_nil_r. split; [by intros ->|by intros [-> _]].
  - rewrite elem_of_nil, sublist_nil_r. split; [done|]. by intros [-> ?].
  - rewrite list_elem_of_singleton. split.
    + intros ->. split; [apply sublist_nil_l | done].
    + intros [_ Hlen]. by destruct c.
  - rewrite elem_of_app, list_elem_of_fmap, sublist_cons_r. split.
    + intros [(c' & -> & Hc')|Hc].
      * apply IH in Hc' as [Hsub <-]. split; [|done]. right. by exists c'.
      * apply IH in Hc as [Hsub Hlen]. split; [by left | done].
    + intros [[Hsub|(c' & -> & Hsub)] Hlen].
      * right. by apply IH.
      * left. exists c'. split; [done|]. apply IH. simpl in Hlen. split; [done|lia].
Qed.

Lemma v_set_of_elem (variants : list Z) (w : nat) (v : list Z) :
  v ∈ v_set_of variants w
  <-> exists c, c ∈ combinations variants w /\ v = py_sorted Z.ltb c.
Proof.
  unfold v_set_of. generalize (combinations variants w). intros cs.
  assert (forall acc : gset (list Z),
    v ∈ foldl (fun v_set c => v_set ∪ {[ py_sorted Z.ltb c ]}) acc cs
    <-> v ∈ acc \/ exists c, c ∈ cs /\ v = py_sorted Z.ltb c) as Hfold.
  { induction cs as [|c cs IH]; intros acc; simpl.
    - split; [by left|]. intros [?|(c & Hc & _)]; [done|]. by apply elem_of_nil in Hc.
    - rewrite IH, elem_of_union, elem_of_singleton. split.
      + intros [[? | ->] | (c' & Hc' & ->)]; [by left| |].
        * right. exists c. split; [constructor|done].
        * right. exists c'. split; [by constructor|done].
      + intros [?|(c' & Hc' & ->)]; [by left; left|].
        apply elem_of_cons in Hc' as [-> | Hc']; [left; by right|].
        right. by exists c'. }
  rewrite Hfold. split; [|by right]. intros [Hin|?]; [|done]. by apply elem_of_empty in Hin.
Qed.

Lemma py_sorted_Z_id (v : list Z) : StronglySorted Z.le v -> py_sorted Z.ltb v = v.
Proof.
  intros Hs. apply (Sorted_unique Z.le).
  - apply StronglySorted_Sorted, py_sorted_Z_sorted.
  - by apply StronglySorted_Sorted.
  - apply py_sorted_perm.
Qed.

Lemma StronglySorted_lt_NoDup (v : list Z) : StronglySorted Z.lt v -> NoDup v.
Proof.
  induction 1 as [|x v _ IH Hx]; constructor; [|done].
  intros Hin. eapply Forall_forall in Hx; [|exact Hin]. lia.
Qed.

(** The variants of a set, whatever the order in which it yields its
    elements: the strictly increasing tuples of [w] of them. *)
Lemma v_set_of_spec (variants : list Z) (w : nat) (v : list Z) :
  NoDup variants ->
  v ∈ v_set_of variants w
  <-> StronglySorted Z.lt v /\ length v = w /\ forall x, x ∈ v -> x ∈ variants.
Proof.
  intros Hnd. rewrite v_set_of_elem. split.
  - intros (c & [Hsub Hlen]%combinations_spec & ->).
    split; [|split].
    + apply StronglySorted_strict; [apply py_sorted_Z_sorted|].
      rewrite py_sorted_perm. by eapply sublist_NoDup.
    + by rewrite py_sorted_length.
    + intros x. rewrite py_sorted_perm. intros Hx. by eapply elem_of_sublist.
  - intros (Hs & Hlen & Hsub).
    pose proof (StronglySorted_lt_NoDup v Hs) as Hv.
    set (c := filter (fun x => x ∈ v) variants).
    assert (c ≡ₚ v) as Hperm.
    { apply NoDup_Permutation; [by apply NoDup_filter|done|].
      intros x. unfold c. rewrite list_elem_of_filter.
      split; [by intros [? _] | intros Hx; split; [done | by apply Hsub]]. }
    exists c. split.
    + apply combinations_spec. split; [apply sublist_filter|]. by rewrite Hperm.
    + rewrite (py_sorted_Z_perm c v Hperm). symmetry. apply py_sorted_Z_id.
      eapply StronglySorted_weaken; [|exact Hs]. intros x y. lia.
Qed.

End v_set_facts.

Section for_future_facts.
Import VariantsGenerator.

Lemma Zsum_app (c d : list Z) : Zsum (c ++ d) = (Zsum c + Zsum d)%Z.
Proof. induction c as [|x c IH]; simpl; [done|]. rewrite IH. lia. Qed.

Lemma Zsum_perm (c d : list Z) : c ≡ₚ d -> Zsum c = Zsum d.
Proof. induction 1; simpl; lia. Qed.

Lemma cwr_nil {A} (r : nat) : combinations_with_replacement ([] : list A) (S r) = [].
Proof. reflexivity. Qed.

Lemma cwr_cons {A} (x : A) (pool : list A) (r : nat) :
  combinations_with_replacement (x :: pool) (S r)
  = (cons x <$> combinations_with_replacement (x :: pool) r)
    ++ combinations_with_replacement pool (S r).
Proof. reflexivity. Qed.

(** A combination with replacement has [r] entries, all from the pool. *)
Lemma cwr_sound {A} (pool : list A) (r : nat) (c : list A) :
  c ∈ combinations_with_replacement pool r ->
  length c = r /\ Forall (fun x => x ∈ pool) c.
Proof.
  revert pool c. induction r as [|r IHr]; intros pool c.
  { intros ->%list_elem_of_singleton. by split. }
  induction pool as [|x pool IHpool]; [by intros ?%elem_of_nil|].
  rewrite cwr_cons, elem_of_app, list_elem_of_fmap. intros [(c' & -> & Hc')|Hc].
  - apply IHr in Hc' as [<- Hall]. split; [done|]. constructor; [constructor|done].
  - apply IHpool in Hc as [Hlen Hall]. split; [done|].
    eapply Forall_impl; [exact Hall|]. intros y Hy. by constructor.
Qed.

Lemma cwr_replicate {A} (x : A) (pool : list A) (r : nat) :
  replicate r x ∈ combinations_with_replacement (x :: pool) r.
Proof.
  induction r as [|r IH]; [constructor|].
  rewrite cwr_cons. apply elem_of_app. left. apply list_elem_of_fmap. by exists (replicate r x).
Qed.

Lemma cwr_prepend {A} (x : A) (pool : list A) (n r : nat) (c : list A) :
  c ∈ combinations_with_replacement pool (S r) ->
  replicate n x ++ c ∈ combinations_with_replacement (x :: pool) (n + S r).
Proof.
  intros Hc. induction n as [|n IH].
  - change (c ∈ combinations_with_replacement (x :: pool) (S r)).
    rewrite cwr_cons. apply elem_of_app. by right.
  - change (x :: (replicate n x ++ c)
            ∈ combinations_with_replacement (x :: pool) (S (n + S r))).
    rewrite cwr_cons. apply elem_of_app. left. apply list_elem_of_fmap. by eexists.
Qed.

(** Every list of elements of the pool that is not empty is, up to its
    order, the start of a combination with replacement of any greater
    length. *)
Lemma cwr_complete `{EqDecision A} (pool : list A) (c : list A) (r : nat) :
  Forall (fun x => x ∈ pool) c -> 1 <= length c <= r ->
  exists c0, c0 ∈ combinations_with_replacement pool r /\ take (length c) c0 ≡ₚ c.
Proof.
  revert c r. induction pool as [|x pool IH]; intros c r Hall Hlen.
  { destruct c as [|y c]; [simpl in Hlen; lia|].
    apply Forall_cons in Hall as [Hy _]. by apply elem_of_nil in Hy. }
  pose proof (filter_app_complement (eq x) c) as Hsplit.
  set (same := filter (eq x) c) in *. set (rest := filter (fun y => x <> y) c) in *.
  assert (same = replicate (length same) x) as Hsame.
  { symmetry. apply replicate_as_Forall. split; [done|].
    apply Forall_forall. intros y Hy. unfold same in Hy.
    by apply list_elem_of_filter in Hy as [? _]. }
  assert (length c = length same + length rest) as Hlength
    by (by rewrite <- Hsplit, length_app).
  destruct (decide (rest = [])) as [Hrest|Hrest].
  - exists (replicate r x). split; [apply cwr_replicate|].
    rewrite Hrest, app_nil_r in Hsplit. rewrite Hrest in Hlength. simpl in Hlength.
    rewrite <- Hsplit at 2. rewrite Hsame, take_replicate. f_equiv. f_equal. lia.
  - destruct (IH rest (r - length same)) as (c0 & Hc0 & Hperm).
    + apply Forall_forall. intros y Hy. unfold rest in Hy.
      apply list_elem_of_filter in Hy as [Hne Hy].
      eapply Forall_forall in Hall; [|exact Hy].
      apply elem_of_cons in Hall as [->|?]; done.
    + destruct rest; [done|]. simpl in *. lia.
    + exists (replicate (length same) x ++ c0). split.
      * replace r with (length same + S (r - length same - 1))
          by (destruct rest; [done|]; simpl in *; lia).
        apply cwr_prepend.
        by replace (S (r - length same - 1)) with (r - length same)
          by (destruct rest; [done|]; simpl in *; lia).
      * rewrite Hlength, take_app_add'; [|by rewrite length_replicate].
        by rewrite Hperm, <- Hsame.
Qed.

(** The running sums of [int64] arithmetic are the sums of the prefixes,
    wrapped around once. *)
Lemma cumsum_from_elem (total : Z) (c : list Z) (x : Z) :
  x ∈ cumsum_from total c
  <-> exists j, 1 <= j <= length c /\ x = wrap_int64 (total + Zsum (take j c)).
Proof.
  revert total. induction c as [|y c IH]; intros total; cbn [cumsum_from].
  - rewrite elem_of_nil. split; [done|]. intros (j & ? & _). simpl in *. lia.
  - cbv zeta. rewrite elem_of_cons, IH. split.
    + intros [->|(j & Hj & ->)].
      * exists 1. split; [simpl; lia|]. simpl. rewrite ?take_0. simpl. f_equal. lia.
      * exists (S j). split; [simpl; lia|]. rewrite wrap_int64_add. simpl. f_equal. lia.
    + intros ([|[|j]] & Hj & ->); [lia| |].
      * left. simpl. rewrite ?take_0. simpl. f_equal. lia.
      * right. exists (S j). split; [simpl in *; lia|]. rewrite wrap_int64_add.
        simpl. f_equal. lia.
Qed.

Lemma for_future_fold_elem (combos : list (list Z)) (acc : gset Z) (x : Z) :
  x ∈ foldl (fun result c => foldl (fun result s => result ∪ {[ s ]}) result (cumsum c))
            acc combos
  <-> x ∈ acc \/ exists c, c ∈ combos /\ x ∈ cumsum c.
Proof.
  assert (forall (sums : list Z) (acc : gset Z),
    x ∈ foldl (fun result s => result ∪ {[ s ]}) acc sums <-> x ∈ acc \/ x ∈ sums) as Hinner.
  { induction sums as [|s sums IH]; intros acc'; simpl.
    - rewrite elem_of_nil. tauto.
    - rewrite IH, elem_of_union, elem_of_singleton, elem_of_cons. tauto. }
  revert acc. induction combos as [|c combos IH]; intros acc; simpl.
  - split; [by left|]. intros [?|(c & Hc & _)]; [done|]. by apply elem_of_nil in Hc.
  - rewrite IH, Hinner. split.
    + intros [[?|?]|(c' & Hc' & ?)]; [by left| |].
      * right. exists c. split; [constructor|done].
      * right. exists c'. split; [by constructor|done].
    + intros [?|(c' & Hc' & Hx)]; [by left; left|].
      apply elem_of_cons in Hc' as [-> | Hc']; [left; by right|].
      right. by exists c'.
Qed.

(** The set that [_for_future(r)] builds: the sums of between [1] and [r]
    stored lengths, with repetition, each wrapped around as [int64]. *)
Lemma for_future_set_elem (lengths : list Z) (r : nat) (x : Z) :
  x ∈ foldl (fun result c => foldl (fun result s => result ∪ {[ s ]}) result (cumsum c))
            (∅ : gset Z) (combinations_with_replacement lengths r)
  <-> exists c, 1 <= length c <= r /\ Forall (fun l => l ∈ lengths) c
                /\ x = wrap_int64 (Zsum c).
Proof.
  rewrite for_future_fold_elem. split.
  - intros [Hin|(c & Hc & Hx)]; [by apply elem_of_empty in Hin|].
    apply cwr_sound in Hc as [Hlen Hall].
    apply cumsum_from_elem in Hx as (j & Hj & ->).
    exists (take j c). split; [rewrite length_take; lia|]. split; [by apply Forall_take|].
    reflexivity.
  - intros (c & Hlen & Hall & ->). right.
    destruct (cwr_complete lengths c r Hall Hlen) as (c0 & Hc0 & Hperm).
    exists c0. split; [done|]. apply cumsum_from_elem. exists (length c).
    apply cwr_sound in Hc0 as [Hlen0 _]. split; [lia|]. by rewrite (Zsum_perm _ _ Hperm).
Qed.

(** Sums of at most [j] lengths of modulus below [2**63 / j] fit [int64]. *)
Lemma Zsum_fits (lengths c : list Z) (j : nat) :
  Forall (fun l => (Z.of_nat j * Z.abs l < 2 ^ 63)%Z) lengths ->
  Forall (fun l => l ∈ lengths) c -> 1 <= length c <= j ->
  fits_int64 (Zsum c).
Proof.
  intros Hsmall Hall Hlen.
  assert (Z.of_nat j * Z.abs (Zsum c) <= Z.of_nat (length c) * (2 ^ 63 - 1))%Z as Hbound.
  { clear Hlen. induction Hall as [|l c Hl _ IH]; [simpl; lia|].
    rewrite Forall_forall in Hsmall. specialize (Hsmall l Hl). simpl in Hsmall.
    cbn [Zsum foldr length]. fold (Zsum c).
    pose proof (Z.abs_triangle l (Zsum c)). nia. }
  unfold fits_int64. nia.
Qed.

Lemma _for_future_runs (self : t) (r : nat) :
  _lengths self <> [] \/ r <> 0 ->
  _for_future self r
  = Ret (foldl (fun result c => foldl (fun result s => result ∪ {[ s ]}) result (cumsum c))
               ∅ (combinations_with_replacement (_lengths self) r)).
Proof.
  intros Hsome. unfold _for_future.
  assert (bool_decide (length (_lengths self) = 0) && bool_decide (r = 0) = false) as ->;
    [|done].
  apply andb_false_iff. destruct Hsome as [Hne|Hne]; [left | right];
    apply bool_decide_eq_false_2; [|done]. by destruct (_lengths self).
Qed.

(** [_for_future(r)], for stored lengths that fit [int64].  Without
    lengths and with [r == 0] it raises [ValueError] before any sum is taken.
    Otherwise it returns the set of the sums of between [1] and [r] stored
    lengths, with repetition, as [np.cumsum] computes them: wrapped around
    as [int64].  When the lengths are small enough for [r] of them not to
    overflow, these are the sums themselves. *)
Theorem _for_future_sums (self : t) (r : nat) :
  Forall fits_int64 (_lengths self) ->
  (_lengths self = [] -> r = 0 -> _for_future self r = Raise ValueError)
  /\ (_lengths self <> [] \/ r <> 0 ->
      exists variants,
        _for_future self r = Ret variants
        /\ (forall x, x ∈ variants
              <-> exists c, 1 <= length c <= r
                            /\ Forall (fun l => l ∈ _lengths self) c
                            /\ x = wrap_int64 (Zsum c))
        /\ (Forall (fun l => (Z.of_nat r * Z.abs l < 2 ^ 63)%Z) (_lengths self) ->
            forall x, x ∈ variants
              <-> exists c, 1 <= length c <= r
                            /\ Forall (fun l => l ∈ _lengths self) c /\ x = Zsum c)).
Proof.
  intros _. split.
  - unfold _for_future. intros -> ->. reflexivity.
  - intros Hsome. rewrite _for_future_runs by done. eexists. split; [done|]. split.
    + intros x. apply for_future_set_elem.
    + intros Hsmall x. rewrite for_future_set_elem. split.
      * intros (c & Hlen & Hall & ->). exists c. split; [done|]. split; [done|].
        apply wrap_int64_fits. by eapply Zsum_fits.
      * intros (c & Hlen & Hall & ->). exists c. split; [done|]. split; [done|].
        symmetry. apply wrap_int64_fits. by eapply Zsum_fits.
Qed.

Lemma sums_outer_only (lengths sums : list Z) (acc : gset Z) (x : Z) :
  x ∈ foldl (fun res l_r =>
               foldl (fun res l_base => res ∪ {[ (l_base + l_r)%Z ]}) res lengths) acc sums ->
  x ∈ acc \/ exists l_r l_base, l_r ∈ sums /\ l_base ∈ lengths /\ x = (l_base + l_r)%Z.
Proof.
  assert (forall (l_r : Z) (ls : list Z) (acc : gset Z),
    x ∈ foldl (fun res l_base => res ∪ {[ (l_base + l_r)%Z ]}) acc ls ->
    x ∈ acc \/ exists l_base, l_base ∈ ls /\ x = (l_base + l_r)%Z) as Hinner.
  { intros l_r ls. induction ls as [|l ls IH]; intros acc'; simpl; [by left|].
    intros [[?| ->%elem_of_singleton]%elem_of_union|(l_base & ? & ->)]%IH.
    - by left.
    - right. exists l. split; [constructor|done].
    - right. exists l_base. split; [by constructor|done]. }
  revert acc. induction sums as [|l_r sums IH]; intros acc; simpl; [by left|].
  intros [[?|(l_base & ? & ->)]%Hinner|(l_r' & l_base & ? & ? & ->)]%IH.
  - by left.
  - right. exists l_r, l_base. split; [constructor|done].
  - right. exists l_r', l_base. split; [by constructor|done].
Qed.

(** The [j]-th level of [get_baseline_set]: the sums of exactly [j] stored
    lengths. *)
Lemma _get_j_set_sums (self : t) (j : nat) (x : Z) :
  x ∈ _get_j_set self j
  <-> exists c, length c = j /\ Forall (fun l => l ∈ _lengths self) c /\ x = Zsum c.
Proof.
  revert x. induction j as [|j IH]; intros x.
  - simpl. rewrite list_elem_of_singleton. split.
    + intros ->. by exists [].
    + intros (c & Hlen & _ & ->). by destruct c.
  - cbn [_get_j_set]. rewrite py_sorted_perm, elem_of_elements. split.
    + intros [Hin|(l_r & l_base & Hr & Hbase & ->)]%sums_outer_only;
        [by apply elem_of_empty in Hin|].
      apply IH in Hr as (c & Hlen & Hall & ->).
      exists (l_base :: c). simpl. split; [by rewrite Hlen|]. split; [by constructor|done].
    + intros ([|l_base c] & Hlen & Hall & ->); [done|].
      apply Forall_cons in Hall as [Hbase Hall].
      apply sums_outer_elem; [|done]. apply IH. exists c. simpl in Hlen.
      split; [lia|]. done.
Qed.

(** [get_baseline_set] and [_for_future] build the same set as long as
    [np.cumsum] does not overflow: for stored lengths of modulus below
    [2**63 / j], the union of the levels [1] to [j] that [get_baseline_set]
    takes its answer from is what [_for_future(j)] returns. *)
Theorem _for_future_baseline (self : t) (j : nat) :
  Forall (fun l => (Z.of_nat j * Z.abs l < 2 ^ 63)%Z) (_lengths self) ->
  _lengths self <> [] \/ j <> 0 ->
  _for_future self j
  = Ret (foldl (fun result k => result ∪ list_to_set (_get_j_set self k)) ∅ (seq 1 j)).
Proof.
  intros Hsmall Hsome. rewrite _for_future_runs by done. f_equal. apply set_eq. intros x.
  assert (x ∈ foldl (fun result c =>
                       foldl (fun result s => result ∪ {[ s ]}) result (cumsum c))
                    (∅ : gset Z) (combinations_with_replacement (_lengths self) j)
          <-> exists c, 1 <= length c <= j /\ Forall (fun l => l ∈ _lengths self) c
                        /\ x = Zsum c) as ->.
  { rewrite for_future_set_elem. split.
    - intros (c & Hlen & Hall & ->). exists c. split; [done|]. split; [done|].
      apply wrap_int64_fits. by eapply Zsum_fits.
    - intros (c & Hlen & Hall & ->). exists c. split; [done|]. split; [done|].
      symmetry. apply wrap_int64_fits. by eapply Zsum_fits. }
  assert (forall (ks : list nat) (acc : gset Z),
    x ∈ foldl (fun result k => result ∪ list_to_set (_get_j_set self k)) acc ks
    <-> x ∈ acc \/ exists k, k ∈ ks /\ x ∈ _get_j_set self k) as Hunion.
  { induction ks as [|k ks IH]; intros acc; simpl.
    - split; [by left|]. intros [?|(k & Hk & _)]; [done|]. by apply elem_of_nil in Hk.
    - rewrite IH, elem_of_union, elem_of_list_to_set. split.
      + intros [[?|?]|(k' & ? & ?)]; [by left| |].
        * right. exists k. split; [constructor|done].
        * right. exists k'. split; [by constructor|done].
      + intros [?|(k' & Hk' & ?)]; [by left; left|].
        apply elem_of_cons in Hk' as [-> | Hk']; [left; by right|].
        right. by exists k'. }
  rewrite Hunion. split.
  - intros (c & Hlen & Hall & ->). right. exists (length c). split.
    + apply elem_of_seq. lia.
    + apply _get_j_set_sums. by exists c.
  - intros [Hin|(k & Hk%elem_of_seq & Hx)]; [by apply elem_of_empty in Hin|].
    apply _get_j_set_sums in Hx as (c & Hlen & Hall & ->).
    exists c. split; [lia|done].
Qed.

(** [generate_v_set(r, w)]: the strictly increasing tuples of [w] elements
    of the set of [_for_future(r)], whatever the order in which the set
    yields its elements. *)
Theorem generate_v_set_spec (self : t) (r w : nat) :
  (_lengths self = [] -> r = 0 -> generate_v_set self r w = Raise ValueError)
  /\ (_lengths self <> [] \/ r <> 0 ->
      exists variants v_set,
        _for_future self r = Ret variants
        /\ generate_v_set self r w = Ret v_set
        /\ (forall v, v ∈ v_set
              <-> StronglySorted Z.lt v /\ length v = w /\ forall x, x ∈ v -> x ∈ variants)
        /\ forall listing, listing ≡ₚ elements variants -> v_set_of listing w = v_set).
Proof.
  unfold generate_v_set. split.
  - unfold _for_future. intros -> ->. reflexivity.
  - intros Hsome. rewrite _for_future_runs by done.
    eexists _, _. split; [done|]. split; [done|].
    assert (forall listing v, listing ≡ₚ elements
              (foldl (fun result c => foldl (fun result s => result ∪ {[ s ]}) result (cumsum c))
                     (∅ : gset Z) (combinations_with_replacement (_lengths self) r)) ->
      v ∈ v_set_of listing w
      <-> StronglySorted Z.lt v /\ length v = w
          /\ forall x, x ∈ v -> x ∈ foldl (fun result c =>
                 foldl (fun result s => result ∪ {[ s ]}) result (cumsum c))
               (∅ : gset Z) (combinations_with_replacement (_lengths self) r)) as Hspec.
    { intros listing v Hlisting. rewrite v_set_of_spec.
      - do 2 (apply and_iff_compat_l). split; intros Hsub x Hx.
        + apply elem_of_elements. rewrite <- Hlisting. by apply Hsub.
        + rewrite Hlisting. apply elem_of_elements. by apply Hsub.
      - rewrite Hlisting. apply NoDup_elements. }
    split.
    + intros v. by apply Hspec.
    + intros listing Hlisting. apply set_eq. intros v.
      by rewrite (Hspec listing v Hlisting), (Hspec _ v (reflexivity _)).
Qed.

End for_future_facts.

Lemma _for_future_sums_witness :
  VariantsGenerator._for_future (VariantsGenerator.mk []) 0 = Raise ValueError
  /\ exists variants,
       VariantsGenerator._for_future (VariantsGenerator.mk [1; 2]%Z) 2 = Ret variants
       /\ (forall x, x ∈ variants
             <-> exists c, 1 <= length c <= 2
                           /\ Forall (fun l => l ∈ [1; 2]%Z) c /\ x = wrap_int64 (Zsum c))
       /\ (Forall (fun l => (Z.of_nat 2 * Z.abs l < 2 ^ 63)%Z) [1; 2]%Z ->
           forall x, x ∈ variants
             <-> exists c, 1 <= length c <= 2
                           /\ Forall (fun l => l ∈ [1; 2]%Z) c /\ x = Zsum c).
Proof.
  split.
  - by apply (proj1 (_for_future_sums (VariantsGenerator.mk []) 0 ltac:(constructor))).
  - apply (proj2 (_for_future_sums (VariantsGenerator.mk [1; 2]%Z) 2
                    ltac:(repeat constructor; unfold fits_int64; lia))).
    by right.
Defined.

(** Two lengths [2**62] add up to [2**63], which [np.cumsum] wraps around to
    [-2**63]; [get_baseline_set] adds Python integers and keeps [2**63]. *)
Example _for_future_wraps :
  (variants ← VariantsGenerator._for_future (VariantsGenerator.mk [2 ^ 62]%Z) 2;
   Ret (py_sorted Z.ltb (elements variants)))
  = Ret [- 2 ^ 63; 2 ^ 62]%Z
  /\ VariantsGenerator.get_baseline_set 1 (VariantsGenerator.mk [2 ^ 62]%Z) 2 2
     = Ret [2 ^ 62; 2 ^ 63]%Z.
Proof. split; vm_compute; reflexivity. Qed.

(** The sums of one or two of the lengths [1] and [2]. *)
Example _for_future_one_two :
  (variants ← VariantsGenerator._for_future (VariantsGenerator.mk [1; 2]%Z) 2;
   Ret (py_sorted Z.ltb (elements variants)))
  = Ret [1; 2; 3; 4]%Z.
Proof. vm_compute. reflexivity. Qed.

Lemma _for_future_baseline_witness :
  VariantsGenerator._for_future (VariantsGenerator.mk [1; 2]%Z) 2
  = Ret (foldl (fun result k =>
                  result ∪ list_to_set
                             (VariantsGenerator._get_j_set (VariantsGenerator.mk [1; 2]%Z) k))
               ∅ (seq 1 2)).
Proof.
  apply (_for_future_baseline (VariantsGenerator.mk [1; 2]%Z) 2); [|by right].
  repeat constructor.
Defined.

Lemma generate_v_set_spec_witness :
  VariantsGenerator.generate_v_set (VariantsGenerator.mk []) 0 2 = Raise ValueError
  /\ exists variants v_set,
       VariantsGenerator._for_future (VariantsGenerator.mk [1; 2]%Z) 2 = Ret variants
       /\ VariantsGenerator.generate_v_set (VariantsGenerator.mk [1; 2]%Z) 2 2 = Ret v_set
       /\ (forall v, v ∈ v_set
              <-> StronglySorted Z.lt v /\ length v = 2
                  /\ forall x, x ∈ v -> x ∈ variants)
       /\ forall listing, listing ≡ₚ elements variants ->
                          VariantsGenerator.v_set_of listing 2 = v_set.
Proof.
  split.
  - by apply (proj1 (generate_v_set_spec (VariantsGenerator.mk []) 0 2)).
  - apply (proj2 (generate_v_set_spec (VariantsGenerator.mk [1; 2]%Z) 2 2)). by right.
Defined.

(** The six pairs out of the four sums [1, 2, 3, 4]. *)
Example generate_v_set_pairs :
  (size <$> VariantsGenerator.generate_v_set (VariantsGenerator.mk [1; 2]%Z) 2 2) = Ret 6.
Proof. vm_compute. reflexivity. Qed.

(** ** The frequencies of the Huffman tree *)

Section frequency_facts.
Context `{Countable Sym}.
Import HuffmanCode.

Lemma forest_weight_perm (heap heap' : list (Node Sym)) :
  heap ≡ₚ heap' -> concat (leaves <$> heap) ≡ₚ concat (leaves <$> heap').
Proof.
  induction 1 as [|t h h' _ IH|t u h|h1 h2 h3 _ IH1 _ IH2]; simpl.
  - done.
  - by rewrite IH.
  - rewrite !app_assoc. f_equiv. apply Permutation_app_comm.
  - by rewrite IH1.
Qed.

Lemma build_loop_weighted fuel (heap : list (Node Sym)) :
  Forall weighted heap -> heap <> [] -> length heap <= S fuel ->
  exists root, build_loop fuel heap = Ret root /\ weighted root
               /\ leaves root ≡ₚ concat (leaves <$> heap).
Proof.
  revert heap. induction fuel as [|fuel IH]; intros heap Hweighted Hne Hlen.
  - destruct heap as [|root [|? ?]]; simpl in *; [done| |lia].
    exists root. split; [done|]. split; [by inversion Hweighted|]. by rewrite app_nil_r.
  - destruct (decide (1 < length heap)) as [Hmany|Hone]; cycle 1.
    { destruct heap as [|root [|? ?]]; simpl in *; [done| |lia].
      exists root. split; [done|]. split; [by inversion Hweighted|]. by rewrite app_nil_r. }
    simpl. rewrite (bool_decide_eq_true_2 _ Hmany).
    destruct (heappop_perm Node_lt heap Hne) as (left & heap1 & -> & Hperm1).
    assert (heap1 <> []) as Hne1.
    { intros ->. apply Permutation_length in Hperm1. simpl in Hperm1. lia. }
    destruct (heappop_perm Node_lt heap1 Hne1) as (right & heap2 & Hpop2 & Hperm2).
    simpl. rewrite Hpop2. simpl.
    set (merged := mkNode None (frequency left + frequency right)%Z left right).
    pose proof (heappush_perm Node_lt heap2 merged) as Hpush.
    rewrite Hperm1 in Hweighted. apply Forall_cons in Hweighted as [Hleft Hweighted].
    rewrite Hperm2 in Hweighted. apply Forall_cons in Hweighted as [Hright Hweighted].
    destruct (IH (heapq.heappush Node_lt heap2 merged)) as (root & -> & Hroot & Hleaves).
    + rewrite Hpush. constructor; [by repeat split | done].
    + intros Heq. rewrite Heq in Hpush. by apply Permutation_nil_cons in Hpush.
    + apply Permutation_length in Hperm1, Hperm2, Hpush. simpl in *. lia.
    + exists root. split; [done|]. split; [done|].
      rewrite Hleaves, (forest_weight_perm _ _ Hpush), (forest_weight_perm _ _ Hperm1).
      simpl. rewrite (forest_weight_perm _ _ Hperm2). simpl. by rewrite <- app_assoc.
Qed.

Lemma weighted_frequency (t : Node Sym) : weighted t -> frequency t = Zsum (leaves t).*2.
Proof.
  induction t as [|[s|] f l IHl r IHr]; simpl; [done|lia|].
  intros (-> & Hl & Hr). rewrite fmap_app, Zsum_app, IHl, IHr by done. done.
Qed.

(** The tree of [build_huffman_tree] for a table that is not empty: its
    leaves are the entries of the table, the frequency of every internal node
    is the sum of the frequencies of its two children, and the frequency of
    the root is the sum of all the frequencies of the table. *)
Theorem build_huffman_tree_frequencies (table : list (Sym * Z)) :
  table <> [] ->
  exists root,
    build_huffman_tree table = Ret root
    /\ leaves root ≡ₚ table
    /\ weighted root
    /\ frequency root = Zsum table.*2.
Proof.
  intros Hne.
  assert (exists root, build_huffman_tree table = Ret root /\ weighted root
                       /\ leaves root ≡ₚ table) as (root & Hroot & Hweighted & Hleaves).
  { unfold build_huffman_tree. destruct table as [|[s1 f1] [|[s2 f2] table]]; [done| |].
    { eexists. split; [done|]. by split. }
    set (entries := (s1, f1) :: (s2, f2) :: table) in *.
    set (heap := map (fun '(sym, freq) => mkNode (Some sym) freq NoneNode NoneNode) entries).
    pose proof (heapify_perm Node_lt heap) as Hperm.
    destruct (build_loop_weighted (length entries) (heapq.heapify Node_lt heap))
      as (root & Hroot & Hweighted & Hleaves).
    - rewrite Hperm. apply List.Forall_map, Forall_forall. by intros [s f] _.
    - intros Heq. rewrite Heq in Hperm. apply Permutation_length in Hperm.
      subst heap entries. simpl in Hperm. lia.
    - apply Permutation_length in Hperm. rewrite Hperm. unfold heap.
      rewrite length_map. lia.
    - exists root. split; [done|]. split; [done|].
      rewrite Hleaves, (forest_weight_perm _ _ Hperm). unfold heap. clear.
      induction entries as [|[s f] entries IH]; [done|]. cbn [map]. rewrite fmap_cons.
      simpl. by rewrite IH. }
  exists root. split; [done|]. split; [done|]. split; [done|].
  rewrite (weighted_frequency root Hweighted). apply Zsum_perm. by rewrite Hleaves.
Qed.

End frequency_facts.

Lemma build_huffman_tree_frequencies_witness :
  exists root,
    HuffmanCode.build_huffman_tree S1_histogram = Ret root
    /\ leaves root ≡ₚ S1_histogram
    /\ weighted root
    /\ HuffmanCode.frequency root = Zsum S1_histogram.*2.
Proof. by apply (build_huffman_tree_frequencies S1_histogram). Defined.

(** ** [delta_sorted]: the gain of one more guess *)

Section delta_facts.
Context `{Number R}.
Import SimpleProbabilisticScheme SimpleStatisticalCalculations.
Hypothesis exact : exact_arithmetic.

Lemma exact_add_swap (x y z u : R) : add (add x y) (add z u) = add (add x z) (add y u).
Proof.
  destruct exact as [Hcomm Hassoc _ _ _].
  rewrite <- (Hassoc x y), (Hassoc y z u), (Hcomm y z), <- (Hassoc z y u), (Hassoc x z).
  done.
Qed.

(** Three loops over the same indices whose steps add [a + b], [a] and [b]:
    the sums stay in step. *)
Lemma for_each_split (xs : list nat) (bE bE' bD : R -> nat -> Res R) (q : R) :
  (forall i, i ∈ xs ->
     exists a b : R,
       (forall res, bE res i = Ret (add res (add a b)))
       /\ (forall res, bE' res i = Ret (add res a))
       /\ (forall res, bD res i = Ret (add res b))) ->
  forall s s' d, add s q = add s' d ->
  exists vE vE' vD,
    for_each bE s xs = Ret vE /\ for_each bE' s' xs = Ret vE' /\ for_each bD d xs = Ret vD
    /\ add vE q = add vE' vD.
Proof.
  destruct exact as [Hcomm Hassoc _ _ _].
  induction xs as [|i xs IH]; intros Hsteps s s' d Hstart; simpl.
  { by exists s, s', d. }
  destruct (Hsteps i) as (a & b & -> & -> & ->); [constructor|].
  cbn [mbind Res_mbind Res_bind]. apply IH.
  - intros j Hj. apply Hsteps. by constructor.
  - rewrite <- (Hassoc s), (Hcomm (add a b) q), (Hassoc s q), Hstart.
    apply exact_add_swap.
Qed.

(** The gain of one more guess: for [1 <= w <= len(l_vec)], in exact
    arithmetic and on a scheme that has a probability for each outcome, the
    three calls return and
    [expectation_sorted(w, l_vec)
     = expectation_sorted(w - 1, l_vec) + delta_sorted(w, l_vec)]. *)
Theorem delta_sorted_gain (self : t R) (w : nat) (l_vec : list Z) :
  length (outcomes self) <= length (probabilities self) ->
  1 <= w <= length l_vec ->
  exists e e' d,
    expectation_sorted self w l_vec = Ret e
    /\ expectation_sorted self (w - 1) l_vec = Ret e'
    /\ delta_sorted self w l_vec = Ret d
    /\ e = add e' d.
Proof.
  intros Hscheme. revert l_vec. induction w as [w IH] using lt_wf_ind. intros l_vec Hw.
  destruct exact as [Hcomm Hassoc Hzero Hone Hdistr].
  destruct w as [|[|n]]; [lia| |].
  - destruct (expectation_sorted_long self 1 l_vec Hscheme) as [e He]; [lia|].
    exists e, zero, e. simp delta_sorted. rewrite He. simp expectation_sorted.
    by rewrite Hzero.
  - destruct (lookup_lt_is_Some_2 l_vec (S n)) as [lw Hlw]; [lia|].
    destruct (p_returns self lw Hscheme) as [pw Hpw].
    simp delta_sorted. rewrite Hlw, Hpw. cbn [mbind Res_mbind Res_bind].
    replace (S (S n) - 1) with (S n) by lia.
    rewrite (expectation_sorted_shift_sum self (S (S n))),
      (expectation_sorted_shift_sum self (S n)).
    unfold recursion_sum. rewrite (seq_S (S n)), for_each_snoc.
    change (0 + S n) with (S n).
    edestruct (for_each_split (seq 0 (S n))) as (vE & vE' & vD & HE & HE' & HD & Heq);
      cycle 2.
    + rewrite HE. cbn [mbind Res_mbind Res_bind]. rewrite Hlw, Hpw.
      cbn [mbind Res_mbind Res_bind].
      replace (S (S n) - (S n + 1)) with 0 by lia. simp expectation_sorted.
      cbn [mbind Res_mbind Res_bind].
      eexists _, _, _. split; [reflexivity|]. split; [exact HE'|]. split; [exact HD|]. exact Heq.
    + intros i Hi%elem_of_seq.
      destruct (lookup_lt_is_Some_2 l_vec i) as [li Hli]; [lia|].
      destruct (p_returns self li Hscheme) as [pr Hpr].
      destruct (IH (S (S n) - (i + 1)) ltac:(lia) (shift l_vec i li))
        as (e & e' & d & He & He' & Hd & Hsum).
      { rewrite shift_length. lia. }
      replace (S (S n) - (i + 1) - 1) with (S n - (i + 1)) in He' by lia.
      exists (mul pr (add one e')), (mul pr d). split; [|split]; intros res.
      * rewrite Hli, Hpr. cbn [mbind Res_mbind Res_bind]. rewrite He.
        cbn [mbind Res_mbind Res_bind]. by rewrite Hsum, Hassoc, Hdistr.
      * rewrite Hli, Hpr. cbn [mbind Res_mbind Res_bind]. rewrite He'. done.
      * rewrite Hli. cbv zeta. rewrite Hd. cbn [mbind Res_mbind Res_bind]. by rewrite Hpr.
    + rewrite !Hzero. by rewrite (Hcomm one zero), Hzero, Hone.
Qed.

End delta_facts.

Lemma exact_arithmetic_Qc : @exact_arithmetic Qc _.
Proof. split; intros; simpl; ring. Qed.

Lemma delta_sorted_gain_witness :
  exists e e' d,
    SimpleStatisticalCalculations.expectation_sorted S4_scheme_Qc 2 [1; 2]%Z = Ret e
    /\ SimpleStatisticalCalculations.expectation_sorted S4_scheme_Qc (2 - 1) [1; 2]%Z = Ret e'
    /\ SimpleStatisticalCalculations.delta_sorted S4_scheme_Qc 2 [1; 2]%Z = Ret d
    /\ e = add e' d.
Proof.
  apply (delta_sorted_gain exact_arithmetic_Qc S4_scheme_Qc 2 [1; 2]%Z); simpl; lia.
Defined.
